(** * matrix-puppeteer-line: the content script's synchronization engine

    A shallow embedding of [puppet/src/contentscript.js] (class
    [MautrixController]) and the properties of its message / receipt
    synchronization code.

    Conventions of the embedding:
    - a JavaScript number that holds a message ID, a count or an index is a
      [Z]; [null] / [undefined] are the [None] of an [option];
    - an exception is a value of [completion]: [Return v] or [Throw e];
    - a DOM string ([innerText], an attribute) is a [string];
    - an array is a [list], read with stdpp's lookup; a JS object used as a
      map is a [gmap];
    - objects that closures keep a reference to (the [SameIDMsgs] wrappers)
      carry an object identity, so that a mutation made through a closure is
      seen by every holder of the reference. *)

From Stdlib Require Import ZArith Lia Bool Ascii String List.
From stdpp Require Import base option list sorting gmap.
From Equations Require Import Equations.
Import ListNotations.

Local Open Scope string_scope.
Local Open Scope Z_scope.

(** ** Completions: normal return or a thrown value *)

Inductive thrown : Type :=
| ThrownString (s : string)   (* [throw `...`] *)
| TypeError                   (* property read on [undefined] *)
| SyntaxError.                (* a selector that does not parse *)

Inductive completion (A : Type) : Type :=
| Return (a : A)
| Throw (e : thrown).
Arguments Return {A} a.
Arguments Throw {A} e.

(** ** Chat types *)

Module ChatType.

(** [const ChatTypeEnum = Object.freeze({DIRECT: 1, GROUP: 2, ROOM: 3})] *)
Inductive ChatTypeEnum : Type := DIRECT | GROUP | ROOM.

Definition value (t : ChatTypeEnum) : Z :=
  match t with DIRECT => 1 | GROUP => 2 | ROOM => 3 end.

(** [id.charAt(0)]: the first code unit as a one-character string, or the
    empty string when [id] is empty. *)
Definition charAt0 (s : string) : string :=
  match s with
  | EmptyString => EmptyString
  | String c _ => String c EmptyString
  end.

(** [getChatType(id)]: a [switch] on the first character. *)
Definition getChatType (id : string) : completion ChatTypeEnum :=
  let c := charAt0 id in
  if String.eqb c "u" then Return DIRECT
  else if String.eqb c "c" then Return GROUP
  else if String.eqb c "r" then Return ROOM
  else Throw (ThrownString ("Invalid chat ID: " ++ id)).

(** The first character of a chat ID, as the specification speaks of it. *)
Definition first_char (id : string) : option ascii := String.get 0 id.

Definition known_prefix (id : string) : Prop :=
  first_char id = Some "u"%char \/ first_char id = Some "c"%char \/
  first_char id = Some "r"%char.

End ChatType.

(** ** Receipt counts *)

Module ReceiptCount.

(** [\d]: an ASCII decimal digit. *)
Definition is_digit (c : ascii) : bool :=
  (48 <=? nat_of_ascii c)%nat && (nat_of_ascii c <=? 57)%nat.

Definition digit_value (c : ascii) : Z := Z.of_nat (nat_of_ascii c - 48).

(** The longest prefix of [s] made of digits (the greedy [+]). *)
Fixpoint take_digits (s : string) : string :=
  match s with
  | EmptyString => EmptyString
  | String c rest => if is_digit c then String c (take_digits rest) else EmptyString
  end.

(** [text.match(/\d+/)]: [null] when [text] has no digit, and otherwise the
    leftmost, longest run of digits ([match[0]]). *)
Fixpoint match_digits (s : string) : option string :=
  match s with
  | EmptyString => None
  | String c rest =>
      if is_digit c then Some (String c (take_digits rest)) else match_digits rest
  end.

(** Decimal value of a string of digits, read left to right. *)
Fixpoint digits_value (acc : Z) (s : string) : Z :=
  match s with
  | EmptyString => acc
  | String c rest => digits_value (10 * acc + digit_value c) rest
  end.

(** [Number.parseInt(s)] on the strings this code passes to it: the value of
    the leading run of digits, and [NaN] ([None]) when [s] does not start
    with a digit.  Signs, leading blanks and the [0x] prefix cannot occur in
    a run of digits and are not modelled.  The result of [Number.parseInt]
    is a double: it is the value of the run as long as that value is at most
    [2^53] (see [exact_count]); above, JavaScript rounds the value to the
    nearest double and gives [Infinity] from 309 digits on, which this
    definition does not follow. *)
Definition parseInt (s : string) : option Z :=
  match take_digits s with
  | EmptyString => None
  | ds => Some (digits_value 0 ds)
  end.

(** The integers from [0] to [2^53] are doubles, each its own nearest one. *)
Definition max_exact : Z := 2 ^ 53.

(** Whether [_getReceiptCount] reads a number in that range from a text:
    the value of the first run of digits of the text is at most [2^53] (a
    run of at most 15 digits is, whatever its digits). *)
Definition exact_count (innerText : string) : bool :=
  match match_digits innerText with
  | Some digits => digits_value 0 digits <=? max_exact
  | None => true
  end.

(** [x || null] on a number: [NaN] and [0] are falsy. *)
Definition or_null (x : option Z) : option Z :=
  match x with
  | Some n => if n =? 0 then None else Some n
  | None => None
  end.

(** [_getReceiptCount(receipt)], as a function of [receipt.innerText]:
    [Number.parseInt(match ? match[0] : 0) || null].  The number [0] passed
    on a miss is first converted to the string "0". *)
Definition _getReceiptCount (innerText : string) : option Z :=
  let m := match_digits innerText in
  or_null (parseInt (match m with Some m0 => m0 | None => "0" end)).

(** A text without any digit. *)
Fixpoint no_digit (s : string) : Prop :=
  match s with
  | EmptyString => True
  | String c rest => is_digit c = false /\ no_digit rest
  end.

End ReceiptCount.

(** ** Message records *)

(** The [timestamp] property of a [MessageData]: absent ([undefined]),
    [null], or a number of milliseconds. *)
Inductive timestamp_value : Type :=
| TsUndefined
| TsNull
| TsMillis (ms : Z).

Module MemberInfo.
Record t : Type := { invited : bool; joined : bool; left : bool }.
End MemberInfo.

(** [MessageData], without the [sender] and [image] objects, which no
    property below reads. *)
Module MessageData.
Record t : Type := {
  id : Z;
  timestamp : timestamp_value;
  is_outgoing : bool;
  html : option string;
  member_info : option MemberInfo.t;
  receipt_count : option Z;
}.

Definition set_timestamp (m : t) (ts : timestamp_value) : t :=
  {| id := id m; timestamp := ts; is_outgoing := is_outgoing m;
     html := html m; member_info := member_info m;
     receipt_count := receipt_count m |}.
End MessageData.

(** ** Promises, as far as their state is observed *)

Inductive promise (A R : Type) : Type :=
| Pending
| Fulfilled (v : A)
| Rejected (reason : R).
Arguments Pending {A R}.
Arguments Fulfilled {A R} v.
Arguments Rejected {A R} reason.

(** ** Full refresh of the message list: the tail of [parseMessageList] *)

Module ParseMessageList.

(** [Promise.allSettled(ps)] is itself pending while an element of [ps] is;
    [None] stands for "not settled yet". *)
Fixpoint allSettled {A R} (ps : list (promise A R)) : option (list (A + R)) :=
  match ps with
  | [] => Some []
  | p :: rest =>
      match p, allSettled rest with
      | Fulfilled v, Some l => Some (inl v :: l)
      | Rejected r, Some l => Some (inr r :: l)
      | _, _ => None
      end
  end.

(** [.filter(value => value.status == "fulfilled").map(value => value.value)] *)
Definition fulfilled_values {A R} (l : list (A + R)) : list A :=
  omap (fun s => match s with inl v => Some v | inr _ => None end) l.

(** One iteration of the loop body at index [i]:
    [if (messages[i].member_info) messages[i].timestamp = messages[i-1].timestamp].
    The objects of the array are pairwise distinct (each promise creates its
    own), so the assignment changes position [i] only. *)
Definition backfill_at (messages : list MessageData.t) (i : nat) : list MessageData.t :=
  match messages !! i, messages !! (i - 1)%nat with
  | Some m, Some prev =>
      match MessageData.member_info m with
      | Some _ => <[i := MessageData.set_timestamp m (MessageData.timestamp prev)]> messages
      | None => messages
      end
  | _, _ => messages
  end.

(** [for (let i = 1, n = messages.length; i < n; i++) ...] *)
Definition backfill (messages : list MessageData.t) : list MessageData.t :=
  foldl backfill_at messages (seq 1 (length messages - 1)).

(** [parseMessageList], from the point where the scan of the DOM has built
    [messagePromises]: the function is suspended at
    [await Promise.allSettled(messagePromises)] ([None]) until every promise
    has settled, and then returns the backfilled fulfilled values. *)
Definition parseMessageList {R} (messagePromises : list (promise MessageData.t R))
  : option (list MessageData.t) :=
  match allSettled messagePromises with
  | Some settled => Some (backfill (fulfilled_values settled))
  | None => None
  end.

Definition is_pending {A R} (p : promise A R) : Prop :=
  match p with Pending => True | _ => False end.

(** A text message and a member event, as their promises produce them. *)
Module Sample.
Definition text (id ms : Z) : MessageData.t :=
  {| MessageData.id := id; MessageData.timestamp := TsMillis ms;
     MessageData.is_outgoing := false; MessageData.html := Some "text";
     MessageData.member_info := None; MessageData.receipt_count := None |}.
Definition joined (id : Z) : MessageData.t :=
  {| MessageData.id := id; MessageData.timestamp := TsUndefined;
     MessageData.is_outgoing := false; MessageData.html := None;
     MessageData.member_info :=
       Some {| MemberInfo.invited := false; MemberInfo.joined := true;
               MemberInfo.left := false |};
     MessageData.receipt_count := None |}.
End Sample.

(** Two records that differ at most in their timestamp. *)
Definition same_but_timestamp (a b : MessageData.t) : Prop :=
  MessageData.set_timestamp a (MessageData.timestamp b) = b.

(** The loop after its first [k] iterations ([i = 1 .. k]). *)
Definition backfill_upto (k : nat) (l : list MessageData.t) : list MessageData.t :=
  foldl backfill_at l (seq 1 k).

End ParseMessageList.

(** ** Full refresh of the receipts: [parseReceiptList] *)

Module ReceiptData.
Record t : Type := { id : Z; count : option Z }.
End ReceiptData.

Module ParseReceiptList.
Import ChatType ReceiptCount.

(** A visible read indicator ([.mdRGT07Read:not(.MdNonDisp)]): the
    [data-local-id] of the message element around it and its text. *)
Record ReadElement : Type := { local_id : Z; innerText : string }.

(** [ToNumber] of a count: [null] compares as [0]. *)
Definition num (c : option Z) : Z := default 0 c.

(** [rctIDs[`${count}`] || 0].  The keys of [rctIDs] are the renderings of
    counts; rendering is injective, so the object is a finite map keyed by
    the count itself ([None] being the key "null"). *)
Definition watermark (rctIDs : gmap (option Z) Z) (count : option Z) : Z :=
  default 0 (rctIDs !! count).

Section Scan.
Variable rctIDs : gmap (option Z) Z.
Variable others : Z.

Definition prevFullyReadID : Z := watermark rctIDs (Some others).

(** The test of the first [if] of the loop body. *)
Definition is_new (minCountToFind : Z) (receipt : ReceiptData.t) : bool :=
  (minCountToFind <=? num (ReceiptData.count receipt)) &&
  (watermark rctIDs (ReceiptData.count receipt) <? ReceiptData.id receipt).

(** The loop [for (let i = receipts.length-1; i >= 0; i--)], as a
    recursion over the receipts in the order the loop visits them (last
    first).  The result lists the pushed receipts in push order. *)
Fixpoint scan (minCountToFind : Z) (visited : list ReceiptData.t) : list ReceiptData.t :=
  match visited with
  | [] => []
  | receipt :: rest =>
      if is_new minCountToFind receipt then
        receipt ::
          (if num (ReceiptData.count receipt) <? others
           then scan (num (ReceiptData.count receipt) + 1) rest
           else [])
      else if ReceiptData.id receipt <=? prevFullyReadID then []
      else scan minCountToFind rest
  end.

(** The value of [minCountToFind] when the loop leaves [visited] without
    a [break], and [None] when it breaks inside. *)
Fixpoint scan_through (minCountToFind : Z) (visited : list ReceiptData.t) : option Z :=
  match visited with
  | [] => Some minCountToFind
  | receipt :: rest =>
      if is_new minCountToFind receipt then
        if num (ReceiptData.count receipt) <? others
        then scan_through (num (ReceiptData.count receipt) + 1) rest
        else None
      else if ReceiptData.id receipt <=? prevFullyReadID then None
      else scan_through minCountToFind rest
  end.

Definition newReceipts (receipts : list ReceiptData.t) : list ReceiptData.t :=
  scan 1 (rev receipts).
End Scan.

(** The two lambdas of [.map(isDirect ? ... : ...)]. *)
Definition receipt_of (isDirect : bool) (e : ReadElement) : ReceiptData.t :=
  if isDirect
  then {| ReceiptData.id := local_id e; ReceiptData.count := Some 1 |}
  else {| ReceiptData.id := local_id e;
          ReceiptData.count := _getReceiptCount (innerText e) |}.

(** [getChatType(...) == ChatTypeEnum.DIRECT] *)
Definition is_direct (chatType : ChatTypeEnum) : bool :=
  value chatType =? value DIRECT.

(** [isDirect ? 1 : document.querySelector(SEL_PARTICIPANTS_LIST).childElementCount - 1] *)
Definition numOthers (isDirect : bool) (childElementCount : Z) : Z :=
  if isDirect then 1 else childElementCount - 1.

(** [parseReceiptList(rctIDs)], as a function of what it reads from the
    page: the current chat ID, the [childElementCount] of the participant
    list and the visible read indicators, in document order. *)
Definition parseReceiptList (chatID : string) (childElementCount : Z)
    (reads : list ReadElement) (rctIDs : gmap (option Z) Z)
  : completion (list ReceiptData.t) :=
  match getChatType chatID with
  | Throw e => Throw e
  | Return chatType =>
      let isDirect := is_direct chatType in
      Return (newReceipts rctIDs (numOthers isDirect childElementCount)
                (map (receipt_of isDirect) reads))
  end.

(** A group chat with three other participants, in which a message read by
    all three (watermark 10 of tier 3) is followed in the scan by receipts
    with lower IDs and lower counts. *)
Module Sample.
Definition rctIDs : gmap (option Z) Z := {[ Some 3 := 10 ]}.
Definition older : ReadElement := {| local_id := 4; innerText := "Read 2" |}.
Definition newer : ReadElement := {| local_id := 5; innerText := "Read 1" |}.
Definition receipt (id count : Z) : ReceiptData.t :=
  {| ReceiptData.id := id; ReceiptData.count := Some count |}.

(** The same chat once the receipts of tier 1 have been reported up to
    message 20, with a newer message 30 read by one participant. *)
Definition rctIDs_tier1 : gmap (option Z) Z := <[ Some 1 := 20 ]> rctIDs.
Definition newest : ReadElement := {| local_id := 30; innerText := "Read 1" |}.
End Sample.

End ParseReceiptList.

(** ** The pending-ID index: [_findMsgsForID] and [_insertMsgByID] *)

(** [PendingMessage]: the message ID and the promise of its parse task
    (tasks are numbered in the order they are started). *)
Module PendingMessage.
Record t : Type := { id : Z; promise : nat }.
End PendingMessage.

(** [SameIDMsgs].  [oid] is the identity of the JavaScript object: the
    handlers of a parse task keep a reference to the wrapper they were
    created with.  [resolve] holds the number of the continuation that
    [await new Promise(resolve => sameIDMsgs.resolve = resolve)] suspended. *)
Module SameIDMsgs.
Record t : Type := {
  oid : nat;
  id : Z;
  msgs : list PendingMessage.t;
  numRejected : Z;
  resolve : option nat;
}.

Definition push_msg (g : t) (msg : PendingMessage.t) : t :=
  {| oid := oid g; id := id g; msgs := msgs g ++ [msg];
     numRejected := numRejected g; resolve := resolve g |}.

Definition set_resolve (g : t) (k : nat) : t :=
  {| oid := oid g; id := id g; msgs := msgs g;
     numRejected := numRejected g; resolve := Some k |}.

Definition incr_numRejected (g : t) : t :=
  {| oid := oid g; id := id g; msgs := msgs g;
     numRejected := numRejected g + 1; resolve := resolve g |}.
End SameIDMsgs.

Module PendingIndex.

(** [arr[i]] for a number [i]: [undefined] outside of the array. *)
Definition at_index {A} (arr : list A) (i : Z) : option A :=
  if i <? 0 then None else arr !! Z.to_nat i.

(** [_findMsgsForID(sortedSameIDMsgs, id, returnClosest, lowerBound, upperBound)].
    Reading [.id] of an element outside of the array throws a [TypeError]. *)
Equations? _findMsgsForID (sortedSameIDMsgs : list SameIDMsgs.t) (id : Z)
    (returnClosest : bool) (lowerBound upperBound : Z) : completion Z
    by wf (Z.to_nat (upperBound - lowerBound + 1)) lt :=
  _findMsgsForID sortedSameIDMsgs id returnClosest lowerBound upperBound
    with Z_lt_dec upperBound lowerBound := {
    | left _ := Return (-1);
    | right _ with returnClosest && (lowerBound =? upperBound) := {
      | true :=
          match at_index sortedSameIDMsgs lowerBound with
          | Some v =>
              Return (if SameIDMsgs.id v <=? id then lowerBound else lowerBound - 1)
          | None => Throw TypeError
          end;
      | false :=
          let i := lowerBound + (upperBound - lowerBound) / 2 in
          match at_index sortedSameIDMsgs i with
          | Some val =>
              if SameIDMsgs.id val =? id then Return i
              else if SameIDMsgs.id val <? id then
                _findMsgsForID sortedSameIDMsgs id returnClosest (i + 1) upperBound
              else
                _findMsgsForID sortedSameIDMsgs id returnClosest lowerBound (i - 1)
          | None => Throw TypeError
          end } }.
Proof.
  all: pose proof (Z.div_pos (upperBound - lowerBound) 2);
    pose proof (Z.mul_div_le (upperBound - lowerBound) 2); lia.
Qed.

(** The call with the default bounds [0] and [sortedSameIDMsgs.length - 1]. *)
Definition findMsgsForID (sortedSameIDMsgs : list SameIDMsgs.t) (id : Z)
    (returnClosest : bool) : completion Z :=
  _findMsgsForID sortedSameIDMsgs id returnClosest
    0 (Z.of_nat (length sortedSameIDMsgs) - 1).

(** [arr.splice(start, 0, item)] for [0 <= start]: a start beyond the end
    is clamped to the length. *)
Definition splice_in {A} (arr : list A) (start : Z) (item : A) : list A :=
  take (Z.to_nat start) arr ++ item :: drop (Z.to_nat start) arr.

(** [_insertMsgByID(sortedSameIDMsgs, msg)].  [fresh] is the identity that
    the object literal of the [else] branch receives.  The result is the
    array after the call and the returned wrapper [sortedSameIDMsgs[i]]. *)
Definition _insertMsgByID (sortedSameIDMsgs : list SameIDMsgs.t)
    (msg : PendingMessage.t) (fresh : nat)
  : completion (list SameIDMsgs.t * option SameIDMsgs.t) :=
  match findMsgsForID sortedSameIDMsgs (PendingMessage.id msg) true with
  | Throw e => Throw e
  | Return i =>
      let created :=
        {| SameIDMsgs.oid := fresh; SameIDMsgs.id := PendingMessage.id msg;
           SameIDMsgs.msgs := [msg]; SameIDMsgs.numRejected := 0;
           SameIDMsgs.resolve := None |} in
      if i =? -1 then
        let arr := splice_in sortedSameIDMsgs (i + 1) created in
        Return (arr, at_index arr (i + 1))
      else
        match at_index sortedSameIDMsgs i with
        | None => Throw TypeError
        | Some g =>
            if SameIDMsgs.id g =? PendingMessage.id msg then
              let arr := <[Z.to_nat i := SameIDMsgs.push_msg g msg]> sortedSameIDMsgs in
              Return (arr, at_index arr i)
            else
              let arr := splice_in sortedSameIDMsgs (i + 1) created in
              Return (arr, at_index arr (i + 1))
        end
  end.

(** The array is strictly ascending by [id]. *)
Definition ids (arr : list SameIDMsgs.t) : list Z := map SameIDMsgs.id arr.

Fixpoint strictly_ascending (l : list Z) : Prop :=
  match l with
  | [] => True
  | x :: rest =>
      match rest with
      | [] => True
      | y :: _ => x < y /\ strictly_ascending rest
      end
  end.

(** Four tracked messages, 10, 20, 30 and 40, each with one parse task, and
    a message 25 that arrives after them. *)
Module Sample.
Definition group (n : nat) (id : Z) : SameIDMsgs.t :=
  {| SameIDMsgs.oid := n; SameIDMsgs.id := id;
     SameIDMsgs.msgs := [{| PendingMessage.id := id; PendingMessage.promise := n |}];
     SameIDMsgs.numRejected := 0; SameIDMsgs.resolve := None |}.
Definition tracked : list SameIDMsgs.t :=
  [group 0 10; group 1 20; group 2 30; group 3 40].
Definition late : PendingMessage.t :=
  {| PendingMessage.id := 25; PendingMessage.promise := 4%nat |}.
End Sample.

End PendingIndex.

(** ** The page, as far as the controller reads it *)

(** An indicator element inside a message element: its node and whether its
    class list contains [MdNonDisp] at the time it is read. *)
Module Indicator.
Record t : Type := { node : nat; nonDisp : bool }.
End Indicator.

(** A node added to the message list.  [descendants] lists the indicator
    elements below it, each with the selector that finds it. *)
Module Element.
Record t : Type := {
  node : nat;
  tagName : string;
  data_local_id : option Z;
  classList : list string;
  descendants : list (string * Indicator.t);
}.

Definition querySelector (e : t) (selector : string) : option Indicator.t :=
  snd <$> List.find (fun d => String.eqb (fst d) selector) (descendants e).

Definition contains (classes : list string) (c : string) : bool :=
  existsb (String.eqb c) classes.
End Element.

(** ** Own messages: [promiseOwnMessage] and the visibility observers *)

Module OwnMessage.

(** [ownMsgPromise] resolves with a message ID and rejects with the failure
    element (its node) or with nothing. *)
Definition own_promise : Type := promise Z (option nat).

(** A timer of [setTimeout]: it fires once, at [deadline], unless cleared. *)
Record Timer : Type := { deadline : Z; armed : bool }.

(** A [MutationObserver] made by [_getOwnVisibleCallback(msgID)] and attached
    to an indicator; [callback_msgID] is the argument of the factory. *)
Record VisibleObserver : Type := {
  target : nat;
  callback_msgID : option Z;
  connected : bool;
}.

(** What the controller does to the page, in order. *)
Inductive effect : Type :=
| ClearTimeout (timer : nat)
| Disconnect (observer : nat)
| CallResolve (p : nat) (msgID : Z)
| CallReject (p : nat) (failureElement : option nat).

(** Promises, timers and observers are numbered in creation order. *)
Record Page : Type := {
  now : Z;
  promises : list own_promise;
  timers : list Timer;
  observers : list VisibleObserver;
  effects : list effect;
}.

(** The fields of [MautrixController] used for own messages.  [resolve] and
    [reject] hold the number of the promise whose functions they are. *)
Record Fields : Type := {
  promiseOwnMsgSuccessSelector : option string;
  promiseOwnMsgFailureSelector : option string;
  promiseOwnMsgResolve : option nat;
  promiseOwnMsgReject : option nat;
  promiseOwnMsgTimeoutID : option nat;
  visibleSuccessObserver : option nat;
  visibleFailureObserver : option nat;
  ownMsgPromise : nat;
}.

Definition with_effect (e : effect) (pg : Page) : Page :=
  {| now := now pg; promises := promises pg; timers := timers pg;
     observers := observers pg; effects := effects pg ++ [e] |}.

(** [observer.disconnect()] *)
Definition disconnect (o : nat) (pg : Page) : Page :=
  with_effect (Disconnect o)
    {| now := now pg; promises := promises pg; timers := timers pg;
       observers :=
         alter (fun ob => {| target := target ob;
                             callback_msgID := callback_msgID ob;
                             connected := false |}) o (observers pg);
       effects := effects pg |}.

(** [clearTimeout(id)]; [clearTimeout(null)] does nothing. *)
Definition clearTimeout (id : option nat) (pg : Page) : Page :=
  match id with
  | None => pg
  | Some t =>
      with_effect (ClearTimeout t)
        {| now := now pg; promises := promises pg;
           timers := alter (fun tm => {| deadline := deadline tm; armed := false |})
                       t (timers pg);
           observers := observers pg; effects := effects pg |}
  end.

(** Calling the [resolve] / [reject] function of promise [p]: only a pending
    promise changes state. *)
Definition settle (p : nat) (outcome : own_promise) (pg : Page) : Page :=
  {| now := now pg;
     promises :=
       match promises pg !! p with
       | Some Pending => <[p := outcome]> (promises pg)
       | _ => promises pg
       end;
     timers := timers pg; observers := observers pg; effects := effects pg |}.

Definition call_resolve (p : nat) (msgID : Z) (pg : Page) : Page :=
  settle p (Fulfilled msgID) (with_effect (CallResolve p msgID) pg).

Definition call_reject (p : nat) (failureElement : option nat) (pg : Page) : Page :=
  settle p (Rejected failureElement) (with_effect (CallReject p failureElement) pg).

(** The fields after the assignments of [_promiseOwnMsgReset()]. *)
Definition cleared (c : Fields) : Fields :=
  {| promiseOwnMsgSuccessSelector := None;
     promiseOwnMsgFailureSelector := None;
     promiseOwnMsgResolve := None;
     promiseOwnMsgReject := None;
     promiseOwnMsgTimeoutID := None;
     visibleSuccessObserver := None;
     visibleFailureObserver := None;
     ownMsgPromise := ownMsgPromise c |}.

(** [_promiseOwnMsgReset()] *)
Definition _promiseOwnMsgReset (c : Fields) (pg : Page) : Fields * Page :=
  let pg1 := match visibleSuccessObserver c with
             | Some o => disconnect o pg
             | None => pg
             end in
  let pg2 := match visibleFailureObserver c with
             | Some o => disconnect o pg1
             | None => pg1
             end in
  (cleared c, pg2).

(** Whether observer [o] is still attached. *)
Definition connected_at (pg : Page) (o : nat) : bool :=
  match observers pg !! o with
  | Some ob => connected ob
  | None => false
  end.

(** The constructor: [this.ownMsgPromise = Promise.resolve(-1)] and a reset. *)
Definition fresh_fields : Fields :=
  {| promiseOwnMsgSuccessSelector := None;
     promiseOwnMsgFailureSelector := None;
     promiseOwnMsgResolve := None;
     promiseOwnMsgReject := None;
     promiseOwnMsgTimeoutID := None;
     visibleSuccessObserver := None;
     visibleFailureObserver := None;
     ownMsgPromise := 0%nat |}.

Definition fresh_page : Page :=
  {| now := 0; promises := [Fulfilled (-1)]; timers := []; observers := [];
     effects := [] |}.

(** [promiseOwnMessage(timeoutLimitMillis, successSelector, failureSelector)].
    Selectors are non-empty strings. *)
Definition promiseOwnMessage (timeoutLimitMillis : Z) (successSelector : string)
    (failureSelector : option string) (c : Fields) (pg : Page) : Fields * Page :=
  let p := length (promises pg) in
  let t := length (timers pg) in
  ({| promiseOwnMsgSuccessSelector := Some successSelector;
      promiseOwnMsgFailureSelector := failureSelector;
      promiseOwnMsgResolve := Some p;
      promiseOwnMsgReject := Some p;
      promiseOwnMsgTimeoutID := Some t;
      visibleSuccessObserver := visibleSuccessObserver c;
      visibleFailureObserver := visibleFailureObserver c;
      ownMsgPromise := p |},
   {| now := now pg;
      promises := promises pg ++ [Pending];
      timers := timers pg ++ [{| deadline := now pg + timeoutLimitMillis; armed := true |}];
      observers := observers pg; effects := effects pg |}).

(** [_isWaitingForOwnMessage()] *)
Definition _isWaitingForOwnMessage (c : Fields) : bool :=
  bool_decide (is_Some (promiseOwnMsgResolve c)).

(** [_resolveOwnMessage(msgID)] *)
Definition _resolveOwnMessage (msgID : Z) (c : Fields) (pg : Page) : Fields * Page :=
  match promiseOwnMsgResolve c with
  | None => (c, pg)
  | Some resolve =>
      let pg1 := clearTimeout (promiseOwnMsgTimeoutID c) pg in
      let '(c2, pg2) := _promiseOwnMsgReset c pg1 in
      (c2, call_resolve resolve msgID pg2)
  end.

(** [_rejectOwnMessage(failureElement = null)] *)
Definition _rejectOwnMessage (failureElement : option nat) (c : Fields) (pg : Page)
  : Fields * Page :=
  match promiseOwnMsgReject c with
  | None => (c, pg)
  | Some reject =>
      let '(c2, pg2) := _promiseOwnMsgReset c pg in
      (c2, call_reject reject failureElement pg2)
  end.

(** The callback returned by [_getOwnVisibleCallback(msgID)], run on a batch
    of class changes; each change is given by its target as it is when the
    callback reads it.  [isSuccess = !!msgID]. *)
Definition _getOwnVisibleCallback (msgID : option Z) (changes : list Indicator.t)
    (c : Fields) (pg : Page) : Fields * Page :=
  let isSuccess := match msgID with Some n => negb (n =? 0) | None => false end in
  match List.find (fun change => negb (Indicator.nonDisp change)) changes with
  | None => (c, pg)
  | Some change =>
      if isSuccess
      then _resolveOwnMessage (default 0 msgID) c pg
      else _rejectOwnMessage (Some (Indicator.node change)) c pg
  end.

(** The callback of the timer set by [promiseOwnMessage]. *)
Definition timeout_callback (c : Fields) (pg : Page) : Fields * Page :=
  match promiseOwnMsgReject c with
  | Some _ => _rejectOwnMessage None c pg
  | None => (c, pg)
  end.

Definition observe (o : VisibleObserver) (pg : Page) : Page :=
  {| now := now pg; promises := promises pg; timers := timers pg;
     observers := observers pg ++ [o]; effects := effects pg |}.

(** [_observeOwnMessage(ownMsg)]: the new state and whether [ownMsg] was
    returned (rather than [null]).  [+ownMsg.getAttribute("data-local-id")]
    is [0] for a missing attribute. *)
Definition _observeOwnMessage (ownMsg : Element.t) (c : Fields) (pg : Page)
  : Fields * Page * bool :=
  if negb (_isWaitingForOwnMessage c) then (c, pg, false) else
  match promiseOwnMsgSuccessSelector c ≫= Element.querySelector ownMsg with
  | None => (c, pg, false)
  | Some successElement =>
      if negb (Indicator.nonDisp successElement) then (c, pg, false) else
      let failureElement :=
        promiseOwnMsgFailureSelector c ≫= Element.querySelector ownMsg in
      let proceed :=
        match promiseOwnMsgFailureSelector c, failureElement with
        | _, Some fe => Indicator.nonDisp fe
        | Some _, None => false
        | None, None => true
        end in
      if negb proceed then (c, pg, false) else
      let msgID := default 0 (Element.data_local_id ownMsg) in
      let so := length (observers pg) in
      let pg1 := observe {| target := Indicator.node successElement;
                            callback_msgID := Some msgID;
                            connected := true |} pg in
      let c1 := {| promiseOwnMsgSuccessSelector := promiseOwnMsgSuccessSelector c;
                   promiseOwnMsgFailureSelector := promiseOwnMsgFailureSelector c;
                   promiseOwnMsgResolve := promiseOwnMsgResolve c;
                   promiseOwnMsgReject := promiseOwnMsgReject c;
                   promiseOwnMsgTimeoutID := promiseOwnMsgTimeoutID c;
                   visibleSuccessObserver := Some so;
                   visibleFailureObserver := visibleFailureObserver c;
                   ownMsgPromise := ownMsgPromise c |} in
      match promiseOwnMsgFailureSelector c, failureElement with
      | Some _, Some fe =>
          let fo := length (observers pg1) in
          ({| promiseOwnMsgSuccessSelector := promiseOwnMsgSuccessSelector c1;
              promiseOwnMsgFailureSelector := promiseOwnMsgFailureSelector c1;
              promiseOwnMsgResolve := promiseOwnMsgResolve c1;
              promiseOwnMsgReject := promiseOwnMsgReject c1;
              promiseOwnMsgTimeoutID := promiseOwnMsgTimeoutID c1;
              visibleSuccessObserver := visibleSuccessObserver c1;
              visibleFailureObserver := Some fo;
              ownMsgPromise := ownMsgPromise c1 |},
           observe {| target := Indicator.node fe;
                      callback_msgID := None;
                      connected := true |} pg1,
           true)
      | _, _ => (c1, pg1, true)
      end
  end.

(** *** What the page does *)

(** Time passes. *)
Definition elapse (ms : Z) (pg : Page) : Page :=
  {| now := now pg + Z.max 0 ms; promises := promises pg; timers := timers pg;
     observers := observers pg; effects := effects pg |}.

(** Timer [t] fires: it must be armed and due; it is then spent. *)
Definition timer_fires (t : nat) (c : Fields) (pg : Page) : Fields * Page :=
  match timers pg !! t with
  | Some tm =>
      if armed tm && (deadline tm <=? now pg) then
        timeout_callback c
          {| now := now pg; promises := promises pg;
             timers := <[t := {| deadline := deadline tm; armed := false |}]> (timers pg);
             observers := observers pg; effects := effects pg |}
      else (c, pg)
  | None => (c, pg)
  end.

(** Observer [o] is delivered a batch of class changes of its target; a
    disconnected observer is delivered nothing. *)
Definition visible_changes (o : nat) (changes : list Indicator.t)
    (c : Fields) (pg : Page) : Fields * Page :=
  match observers pg !! o with
  | Some ob =>
      if connected ob then _getOwnVisibleCallback (callback_msgID ob) changes c pg
      else (c, pg)
  | None => (c, pg)
  end.

End OwnMessage.

(** ** The message list observer of [addMsgListObserver] *)

Module MsgListObserver.
Import PendingIndex OwnMessage.

(** A started [_parseMessage]: the element it parses and the wrapper
    ([oid]) that [_insertMsgByID] returned for it, as its two handlers
    capture them. *)
Record ParseTask : Type := { messageElement : nat; sameIDMsgs : nat; settled : bool }.

(** A fulfilled handler suspended at
    [await new Promise(resolve => sameIDMsgs.resolve = resolve)]. *)
Record Continuation : Type := {
  k_messageElement : nat;
  k_messageData : MessageData.t;
  k_woken : bool;
}.

(** The variables shared by the closures of one [addMsgListObserver] call.
    - [minID] is [None] once it has been assigned [undefined];
    - [detached] holds the wrappers that [shift()] removed from the array:
      the handlers of their tasks still reference them;
    - [ownThens] are the [then]/[catch] pairs registered on [ownMsgPromise]
      (promise, own message element);
    - [sent] lists the arguments of the calls of
      [window.__mautrixReceiveMessages], in call order;
    - [unacknowledged] counts the [handleMessage] activations suspended at
      [await window.__mautrixReceiveMessages(...)]. *)
Record Closure : Type := {
  minID : option Z;
  sortedSameIDMsgs : list SameIDMsgs.t;
  detached : list SameIDMsgs.t;
  pendingMsgElements : gset nat;
  tasks : list ParseTask;
  continuations : list Continuation;
  ownThens : list (nat * nat);
  sent : list (option MessageData.t);
  unacknowledged : nat;
}.

(** [addMsgListObserver(minID)]: the fresh closure variables. *)
Definition addMsgListObserver (minID : Z) : Closure :=
  {| minID := Some minID; sortedSameIDMsgs := []; detached := [];
     pendingMsgElements := ∅; tasks := []; continuations := [];
     ownThens := []; sent := []; unacknowledged := 0%nat |}.

Definition set_minID (v : option Z) (s : Closure) : Closure :=
  Build_Closure v (sortedSameIDMsgs s) (detached s) (pendingMsgElements s)
    (tasks s) (continuations s) (ownThens s) (sent s) (unacknowledged s).

Definition set_wrappers (arr gone : list SameIDMsgs.t) (s : Closure) : Closure :=
  Build_Closure (minID s) arr gone (pendingMsgElements s)
    (tasks s) (continuations s) (ownThens s) (sent s) (unacknowledged s).

Definition set_pending (els : gset nat) (s : Closure) : Closure :=
  Build_Closure (minID s) (sortedSameIDMsgs s) (detached s) els
    (tasks s) (continuations s) (ownThens s) (sent s) (unacknowledged s).

Definition set_tasks (ts : list ParseTask) (s : Closure) : Closure :=
  Build_Closure (minID s) (sortedSameIDMsgs s) (detached s) (pendingMsgElements s)
    ts (continuations s) (ownThens s) (sent s) (unacknowledged s).

Definition set_continuations (ks : list Continuation) (s : Closure) : Closure :=
  Build_Closure (minID s) (sortedSameIDMsgs s) (detached s) (pendingMsgElements s)
    (tasks s) ks (ownThens s) (sent s) (unacknowledged s).

Definition set_ownThens (l : list (nat * nat)) (s : Closure) : Closure :=
  Build_Closure (minID s) (sortedSameIDMsgs s) (detached s) (pendingMsgElements s)
    (tasks s) (continuations s) l (sent s) (unacknowledged s).

Definition set_sent (l : list (option MessageData.t)) (n : nat) (s : Closure) : Closure :=
  Build_Closure (minID s) (sortedSameIDMsgs s) (detached s) (pendingMsgElements s)
    (tasks s) (continuations s) (ownThens s) l n.

(** [pendingMsgElements.delete(element)] *)
Definition delete_pending (element : nat) (s : Closure) : Closure :=
  set_pending (pendingMsgElements s ∖ {[element]}) s.

(** Reading and writing a wrapper through a reference to it. *)
Definition deref (o : nat) (s : Closure) : option SameIDMsgs.t :=
  List.find (fun g => Nat.eqb (SameIDMsgs.oid g) o) (sortedSameIDMsgs s ++ detached s).

Definition update_wrapper (o : nat) (f : SameIDMsgs.t -> SameIDMsgs.t)
    (s : Closure) : Closure :=
  let upd := map (fun g => if Nat.eqb (SameIDMsgs.oid g) o then f g else g) in
  set_wrappers (upd (sortedSameIDMsgs s)) (upd (detached s)) s.

(** [msgID > minID] and [minID < msgID]: false when [minID] is [undefined]. *)
Definition above (msgID : Z) (minID : option Z) : bool :=
  match minID with Some m => m <? msgID | None => false end.

(** [handleMessage(messageData)], up to its [await].  [messageData] is
    [None] for a rejection reason that is not a message record (its [id] is
    [undefined]).  [shift()] removes the first wrapper of the array,
    whichever it is. *)
Definition handleMessage (messageData : option MessageData.t) (s : Closure) : Closure :=
  let s1 := set_minID (MessageData.id <$> messageData) s in
  let s2 := match sortedSameIDMsgs s1 with
            | [] => s1
            | g :: rest => set_wrappers rest (detached s1 ++ [g]) s1
            end in
  set_sent (sent s2 ++ [messageData]) (S (unacknowledged s2)) s2.

(** The rest of [handleMessage], after [__mautrixReceiveMessages] returned:
    [sortedSameIDMsgs[0].resolve()] wakes the continuation stored in the
    first wrapper, which then runs
    [pendingMsgElements.delete(messageElement); handleMessage(messageData)].
    Resolving an already resolved promise does nothing. *)
Definition receive_messages_returned (s : Closure) : Closure :=
  match unacknowledged s with
  | O => s
  | S n =>
      let s1 := set_sent (sent s) n s in
      match sortedSameIDMsgs s1 with
      | [] => s1
      | g :: _ =>
          match SameIDMsgs.resolve g with
          | None => s1
          | Some k =>
              match continuations s1 !! k with
              | Some c =>
                  if k_woken c then s1 else
                  let s2 := set_continuations
                              (<[k := {| k_messageElement := k_messageElement c;
                                         k_messageData := k_messageData c;
                                         k_woken := true |}]> (continuations s1)) s1 in
                  handleMessage (Some (k_messageData c))
                    (delete_pending (k_messageElement c) s2)
              | None => s1
              end
          end
      end
  end.

Definition settle_task (task : nat) (s : Closure) : Closure :=
  set_tasks (alter (fun t => {| messageElement := messageElement t;
                                sameIDMsgs := sameIDMsgs t;
                                settled := true |}) task (tasks s)) s.

(** The fulfilled handler of [pendingMessage.promise.then(...)]. *)
Definition on_fulfilled (task : nat) (messageData : MessageData.t) (s : Closure) : Closure :=
  match tasks s !! task with
  | Some t =>
      if settled t then s else
      let s := settle_task task s in
      match findMsgsForID (sortedSameIDMsgs s) (MessageData.id messageData) false with
      | Throw _ => s
      | Return i =>
          if i =? -1 then delete_pending (messageElement t) s
          else if negb (i =? 0) then
            let k := length (continuations s) in
            update_wrapper (sameIDMsgs t) (fun g => SameIDMsgs.set_resolve g k)
              (set_continuations
                 (continuations s ++ [{| k_messageElement := messageElement t;
                                         k_messageData := messageData;
                                         k_woken := false |}]) s)
          else handleMessage (Some messageData) (delete_pending (messageElement t) s)
      end
  | None => s
  end.

(** The rejected handler ("error case"). *)
Definition on_rejected (task : nat) (messageData : option MessageData.t) (s : Closure)
  : Closure :=
  match tasks s !! task with
  | Some t =>
      if settled t then s else
      let s := delete_pending (messageElement t) (settle_task task s) in
      let s := update_wrapper (sameIDMsgs t) SameIDMsgs.incr_numRejected s in
      match deref (sameIDMsgs t) s with
      | Some g =>
          if SameIDMsgs.numRejected g =? Z.of_nat (length (SameIDMsgs.msgs g))
          then handleMessage messageData s
          else s
      | None => s
      end
  | None => s
  end.

(** The filter on an added node, before its ID is compared with [minID]. *)
Definition is_message_element (child : Element.t) (s : Closure) : bool :=
  negb (bool_decide (Element.node child ∈ pendingMsgElements s)) &&
  String.eqb (Element.tagName child) "DIV" &&
  bool_decide (is_Some (Element.data_local_id child)) &&
  Element.contains (Element.classList child) "MdRGT07Cont".

(** The first loop of the observer callback, for one added node: the new
    controller state and the grown [remoteMsgs]. *)
Definition classify (acc : Fields * Page * Closure * list (Z * nat)) (child : Element.t)
  : Fields * Page * Closure * list (Z * nat) :=
  let '(c, pg, s, remoteMsgs) := acc in
  if negb (is_message_element child s) then acc else
  let msgID := default 0 (Element.data_local_id child) in
  if negb (above msgID (minID s)) then acc else
  let s := set_pending ({[Element.node child]} ∪ pendingMsgElements s) s in
  let '(c, pg, ownMsg) := _observeOwnMessage child c pg in
  if ownMsg
  then (c, pg, set_ownThens (ownThens s ++ [(ownMsgPromise c, Element.node child)]) s,
        remoteMsgs)
  else (c, pg, s, (remoteMsgs ++ [(msgID, Element.node child)])%list).

(** The second loop: one parse task and one [_insertMsgByID] per remote
    message.  An exception ends the callback. *)
Fixpoint track (remoteMsgs : list (Z * nat)) (s : Closure) : Closure :=
  match remoteMsgs with
  | [] => s
  | (msgID, element) :: rest =>
      let task := length (tasks s) in
      let pendingMessage := {| PendingMessage.id := msgID; PendingMessage.promise := task |} in
      let fresh := (length (sortedSameIDMsgs s) + length (detached s))%nat in
      match _insertMsgByID (sortedSameIDMsgs s) pendingMessage fresh with
      | Return (arr, Some g) =>
          track rest
            (set_tasks (tasks s ++ [{| messageElement := element;
                                       sameIDMsgs := SameIDMsgs.oid g;
                                       settled := false |}])
               (set_wrappers arr (detached s) s))
      | Return (arr, None) => set_wrappers arr (detached s) s
      | Throw _ => s
      end
  end.

(** The reactions registered with [this.ownMsgPromise.then(...).catch(...)],
    run for the promises that were pending in [before] and are settled now. *)
Definition own_reaction (before : list own_promise) (pg : Page)
    (s : Closure) (reg : nat * nat) : Closure :=
  let '(p, ownMsg) := reg in
  match before !! p, promises pg !! p with
  | Some Pending, Some (Fulfilled msgID) =>
      let s := delete_pending ownMsg s in
      if above msgID (minID s) then set_minID (Some msgID) s else s
  | Some Pending, Some (Rejected _) => delete_pending ownMsg s
  | _, _ => s
  end.

Definition own_reactions (before : list own_promise) (pg : Page) (s : Closure) : Closure :=
  foldl (own_reaction before pg) s (ownThens s).

(** *** The controller and the events it reacts to *)

Record Controller : Type := { fields : Fields; page : Page; closure : Closure }.

Inductive event : Type :=
| PromiseOwnMessage (timeoutLimitMillis : Z) (successSelector : string)
    (failureSelector : option string)
| Elapse (ms : Z)
| TimerFires (timer : nat)
| VisibleChanges (observer : nat) (changes : list Indicator.t)
| ChildrenAdded (addedNodes : list Element.t)
| ParseFulfilled (task : nat) (messageData : MessageData.t)
| ParseRejected (task : nat) (messageData : option MessageData.t)
| ReceiveMessagesReturned.

Definition after_own (before : Page) (r : Fields * Page) (s : Closure) : Controller :=
  {| fields := fst r; page := snd r;
     closure := own_reactions (promises before) (snd r) s |}.

Definition step (st : Controller) (ev : event) : Controller :=
  let c := fields st in
  let pg := page st in
  let s := closure st in
  match ev with
  | PromiseOwnMessage limit ok ko =>
      let r := promiseOwnMessage limit ok ko c pg in
      {| fields := fst r; page := snd r; closure := s |}
  | Elapse ms => {| fields := c; page := elapse ms pg; closure := s |}
  | TimerFires t => after_own pg (timer_fires t c pg) s
  | VisibleChanges o changes => after_own pg (visible_changes o changes c pg) s
  | ChildrenAdded added =>
      let '(c, pg, s, remoteMsgs) := foldl classify (c, pg, s, []) added in
      {| fields := c; page := pg; closure := track remoteMsgs s |}
  | ParseFulfilled task d =>
      {| fields := c; page := pg; closure := on_fulfilled task d s |}
  | ParseRejected task d =>
      {| fields := c; page := pg; closure := on_rejected task d s |}
  | ReceiveMessagesReturned =>
      {| fields := c; page := pg; closure := receive_messages_returned s |}
  end.

Definition run (st : Controller) (evs : list event) : Controller := foldl step st evs.

(** A controller right after its construction and [addMsgListObserver(minID)]. *)
Definition start (minID : Z) : Controller :=
  {| fields := fresh_fields; page := fresh_page;
     closure := addMsgListObserver minID |}.

(** The IDs of the records handed to [__mautrixReceiveMessages], in order. *)
Definition sent_ids (st : Controller) : list (option Z) :=
  map (fmap MessageData.id) (sent (closure st)).

(** [minID] before the first event and after each event of a run. *)
Fixpoint minID_history (st : Controller) (evs : list event) : list (option Z) :=
  match evs with
  | [] => [minID (closure st)]
  | ev :: rest => minID (closure st) :: minID_history (step st ev) rest
  end.

(** *** Concrete pages *)

Module Sample.

(** A remote message element. *)
Definition remote (node : nat) (id : Z) : Element.t :=
  {| Element.node := node; Element.tagName := "DIV";
     Element.data_local_id := Some id;
     Element.classList := ["MdRGT07Cont"]; Element.descendants := [] |}.

(** An element of a message being sent, with a hidden success indicator
    (found by selector "ok") and a hidden failure indicator ("ko"). *)
Definition own (node : nat) (id : Z) (okNode koNode : nat) : Element.t :=
  {| Element.node := node; Element.tagName := "DIV";
     Element.data_local_id := Some id;
     Element.classList := ["MdRGT07Cont"; "mdRGT07Own"];
     Element.descendants :=
       [("ok", {| Indicator.node := okNode; Indicator.nonDisp := true |});
        ("ko", {| Indicator.node := koNode; Indicator.nonDisp := true |})] |}.

(** An indicator that has lost its [MdNonDisp] class. *)
Definition shown (node : nat) : Indicator.t :=
  {| Indicator.node := node; Indicator.nonDisp := false |}.

(** The record of a fully parsed text message. *)
Definition parsed (id : Z) : MessageData.t :=
  {| MessageData.id := id; MessageData.timestamp := TsNull;
     MessageData.is_outgoing := false; MessageData.html := Some "text";
     MessageData.member_info := None; MessageData.receipt_count := None |}.

(** What [_parseMessage] throws when the wait for decryption times out: the
    record built so far, without [html]. *)
Definition partial (id : Z) : MessageData.t :=
  {| MessageData.id := id; MessageData.timestamp := TsNull;
     MessageData.is_outgoing := false; MessageData.html := None;
     MessageData.member_info := None; MessageData.receipt_count := None |}.

(** Messages 9 and 10 appear; 10 resolves while 9 is still decrypting; then
    9 resolves, and the backend returns from both calls. *)
Definition later_resolves_first : list event :=
  [ChildrenAdded [remote 1 9; remote 2 10];
   ParseFulfilled 1 (parsed 10);
   ParseFulfilled 0 (parsed 9);
   ReceiveMessagesReturned;
   ReceiveMessagesReturned].

(** Messages 10, 20, 30 and 40 appear and are being parsed when message 25
    appears. *)
Definition late_arrival : list event :=
  [ChildrenAdded [remote 1 10; remote 2 20; remote 3 30; remote 4 40];
   ChildrenAdded [remote 5 25]].

(** Messages 9, 10 and 11 appear together (tasks 0, 1, 2); 11 fails to
    decrypt while 9 and 10 are still pending; then 10 resolves. *)
Definition late_rejection : list event :=
  [ChildrenAdded [remote 1 9; remote 2 10; remote 3 11];
   ParseRejected 2 (Some (partial 11));
   ReceiveMessagesReturned;
   ParseFulfilled 1 (parsed 10)].

(** Messages 9 and 10 appear (tasks 0, 1); 10 fails to decrypt while 9 is
    pending; 9 resolves; message 11 appears (task 2) and resolves. *)
Definition abandoned_behind_head : list event :=
  [ChildrenAdded [remote 1 9; remote 2 10];
   ParseRejected 1 (Some (partial 10));
   ReceiveMessagesReturned;
   ParseFulfilled 0 (parsed 9);
   ChildrenAdded [remote 3 11];
   ParseFulfilled 2 (parsed 11)].

(** Remote message 11 appears and is still being parsed (task 0) when the
    bridge sends a message: its element 12 appears, its success indicator
    (node 20) becomes visible, and then the parse of 11 resolves. *)
Definition own_message_overtakes : list event :=
  [ChildrenAdded [remote 1 11];
   PromiseOwnMessage 10000 "ok" (Some "ko");
   ChildrenAdded [own 2 12 20 21];
   VisibleChanges 0 [shown 20];
   ParseFulfilled 0 (parsed 11)].

(** A first send (promise 1, timer 0, armed at time 0 for 10 s) fails after
    1 s: the failure indicator (node 11, observer 1) of its element 7
    becomes visible.  A second send (promise 2, timer 1) is armed at 5 s for
    10 s and its element 8 appears (observers 2 and 3). *)
Definition second_send_armed : list event :=
  [PromiseOwnMessage 10000 "ok" (Some "ko");
   ChildrenAdded [own 1 7 10 11];
   Elapse 1000;
   VisibleChanges 1 [shown 11];
   Elapse 4000;
   PromiseOwnMessage 10000 "ok" (Some "ko");
   ChildrenAdded [own 2 8 20 21]].

(** At 10 s the timer of the first send is due; at 12 s the success
    indicator (node 20, observer 2) of the second send becomes visible. *)
Definition first_timer_fires : list event := [Elapse 5000; TimerFires 0].
Definition then_success_shows : list event :=
  [Elapse 2000; VisibleChanges 2 [shown 20]].

End Sample.

End MsgListObserver.

(** ** The pending-ID index: the group an insertion creates *)

Module NewGroup.

(** The object literal of the [else] branch of [_insertMsgByID]. *)
Definition created (fresh : nat) (msg : PendingMessage.t) : SameIDMsgs.t :=
  {| SameIDMsgs.oid := fresh; SameIDMsgs.id := PendingMessage.id msg;
     SameIDMsgs.msgs := [msg]; SameIDMsgs.numRejected := 0;
     SameIDMsgs.resolve := None |}.

(** A message 35 and a message 50 for the array of [PendingIndex.Sample]. *)
Definition between : PendingMessage.t :=
  {| PendingMessage.id := 35; PendingMessage.promise := 4%nat |}.
Definition newest : PendingMessage.t :=
  {| PendingMessage.id := 50; PendingMessage.promise := 4%nat |}.
Definition again : PendingMessage.t :=
  {| PendingMessage.id := 30; PendingMessage.promise := 4%nat |}.

End NewGroup.

(** ** The receipt observers: [_observeReceiptsDirect] and [_observeReceiptsMulti] *)

Module ReceiptObservers.
Import ReceiptCount.

(** A node that a mutation record points at, as the observers read it: its
    class list, its text, and [closest(".mdRGT07Own")]: [None] when no
    ancestor is an own message, and otherwise the numeric value of the
    [data-local-id] of that message ([0] for a missing attribute). *)
Record Node : Type := {
  classList : list string;
  innerText : string;
  closestOwn : option Z;
}.

(** A mutation record: its [type], its [target] and the [parentElement]
    of the target.  The target of a [characterData] record is a text node,
    which has no [classList]; the fields of [target] describe an element and
    are read for the records of the other types only. *)
Record MutationRecord : Type := {
  type : string;
  target : Node;
  parentElement : Node;
}.

(** [classList.contains("mdRGT07Read") && !classList.contains("MdNonDisp")] *)
Definition is_visible_read (n : Node) : bool :=
  Element.contains (classList n) "mdRGT07Read" &&
  negb (Element.contains (classList n) "MdNonDisp").

(** [!receipt_id]: [undefined] and [0] are falsy. *)
Definition falsy (receipt_id : option Z) : bool :=
  match receipt_id with
  | None => true
  | Some n => n =? 0
  end.

(** Whether the target of a record is a text node. *)
Definition is_text_record (change : MutationRecord) : bool :=
  String.eqb (type change) "characterData".

(** The body of the loop of [_observeReceiptsDirect].  It reads
    [change.target.classList.contains] whatever the type of the record: on
    a text node [classList] is [undefined] and the read throws. *)
Definition direct_step (receipt_id : option Z) (change : MutationRecord)
  : completion (option Z) :=
  if is_text_record change then Throw TypeError
  else if is_visible_read (target change) then
    match closestOwn (target change) with
    | Some id =>
        Return (if falsy receipt_id || (default 0 receipt_id <? id)
                then Some id else receipt_id)
    | None => Return receipt_id
    end
  else Return receipt_id.

(** The loop [for (const change of mutations)] of [_observeReceiptsDirect]. *)
Fixpoint direct_loop (receipt_id : option Z) (mutations : list MutationRecord)
  : completion (option Z) :=
  match mutations with
  | [] => Return receipt_id
  | change :: rest =>
      match direct_step receipt_id change with
      | Throw e => Throw e
      | Return receipt_id' => direct_loop receipt_id' rest
      end
  end.

(** [_observeReceiptsDirect(mutations, chatID)]: the argument of the call of
    [__mautrixReceiveReceiptDirectLatest], or [None] when it is not called;
    nothing is called when the loop throws.  (The observer of a direct chat
    is registered without [characterData], so that it is given class
    changes only.) *)
Definition _observeReceiptsDirect (mutations : list MutationRecord)
  : completion (option Z) :=
  match direct_loop None mutations with
  | Throw e => Throw e
  | Return receipt_id => Return (if falsy receipt_id then None else receipt_id)
  end.

(** The node that [_observeReceiptsMulti] looks at:
    [change.type == "characterData" ? change.target.parentElement : change.target]. *)
Definition multi_target (change : MutationRecord) : Node :=
  if String.eqb (type change) "characterData" then parentElement change else target change.

(** The body of the loop of [_observeReceiptsMulti], on the set [ids] and
    the array [receipts]. *)
Definition multi_step (acc : gset Z * list ReceiptData.t) (change : MutationRecord)
  : gset Z * list ReceiptData.t :=
  let '(ids, receipts) := acc in
  let target := multi_target change in
  if is_visible_read target then
    match closestOwn target with
    | Some id =>
        if bool_decide (id ∈ ids) then acc
        else ({[id]} ∪ ids,
              (receipts ++ [{| ReceiptData.id := id;
                               ReceiptData.count := _getReceiptCount (innerText target) |}])%list)
    | None => acc
    end
  else acc.

(** [_observeReceiptsMulti(mutations, chatID)]: the argument of the call of
    [__mautrixReceiveReceiptMulti], or [None] when it is not called. *)
Definition _observeReceiptsMulti (mutations : list MutationRecord)
  : option (list ReceiptData.t) :=
  let receipts := snd (foldl multi_step (∅, []) mutations) in
  if (0 <? Z.of_nat (length receipts)) then Some receipts else None.

(** The IDs of the own messages whose read indicator a batch shows. *)
Definition direct_ids (mutations : list MutationRecord) : list Z :=
  omap (fun change =>
          if is_visible_read (target change) then closestOwn (target change) else None)
       mutations.

(** The receipts a batch shows, one per qualifying record. *)
Definition multi_shown (mutations : list MutationRecord) : list ReceiptData.t :=
  omap (fun change =>
          let target := multi_target change in
          if is_visible_read target
          then (fun id => {| ReceiptData.id := id;
                             ReceiptData.count := _getReceiptCount (innerText target) |})
                 <$> closestOwn target
          else None)
       mutations.

(** Class changes of the read indicators of messages 3, 7 and 9; the
    indicator of 8 is hidden; 7 changes twice. *)
Module Sample.
Definition read (id : Z) (text : string) : Node :=
  {| classList := ["mdRGT07Read"]; innerText := text; closestOwn := Some id |}.
Definition hidden (id : Z) : Node :=
  {| classList := ["mdRGT07Read"; "MdNonDisp"]; innerText := ""; closestOwn := Some id |}.
Definition text_node : Node :=
  {| classList := []; innerText := "Read 2"; closestOwn := None |}.
Definition class_change (n : Node) : MutationRecord :=
  {| type := "attributes"; target := n; parentElement := n |}.
Definition text_change (parent : Node) : MutationRecord :=
  {| type := "characterData"; target := text_node; parentElement := parent |}.
Definition batch : list MutationRecord :=
  [class_change (read 7 "Read 1"); class_change (hidden 8);
   class_change (read 3 "Read 2"); text_change (read 7 "Read 2");
   class_change (read 9 "Read")].

(** The class changes among them, as the observer of a direct chat is given. *)
Definition class_changes : list MutationRecord :=
  [class_change (read 7 "Read 1"); class_change (hidden 8);
   class_change (read 3 "Read 2"); class_change (read 9 "Read")].
End Sample.

End ReceiptObservers.

(** ** Own messages: the calls of the resolve and reject functions *)

Module OwnCalls.
Import OwnMessage.

(** The promise whose resolve or reject function an effect calls. *)
Definition settled_by (e : effect) : option nat :=
  match e with
  | CallResolve p _ => Some p
  | CallReject p _ => Some p
  | ClearTimeout _ => None
  | Disconnect _ => None
  end.

(** The promises whose functions were called, in call order. *)
Definition settle_calls (pg : Page) : list nat := omap settled_by (effects pg).

(** What an own-message operation may do to the fields and promises: leave
    them alone, or settle the promise held in the fields after clearing
    them. *)
Definition own_update (c : Fields) (pg : Page) (r : Fields * Page) : Prop :=
  (promiseOwnMsgResolve (fst r) = promiseOwnMsgResolve c /\
   promiseOwnMsgReject (fst r) = promiseOwnMsgReject c /\
   ownMsgPromise (fst r) = ownMsgPromise c /\
   promises (snd r) = promises pg /\
   settle_calls (snd r) = settle_calls pg) \/
  (exists p outcome pgm,
     (promiseOwnMsgResolve c = Some p \/ promiseOwnMsgReject c = Some p) /\
     outcome <> Pending /\
     r = (cleared c, settle p outcome pgm) /\
     promises pgm = promises pg /\
     settle_calls pgm = (settle_calls pg ++ [p])%list).

(** The state of the own-message promise that every event keeps. *)
Definition own_state_ok (c : Fields) (pg : Page) : Prop :=
  promiseOwnMsgResolve c = promiseOwnMsgReject c /\
  (forall p, promiseOwnMsgResolve c = Some p ->
             p = ownMsgPromise c /\ promises pg !! p = Some Pending) /\
  (promiseOwnMsgResolve c = None ->
   exists o, promises pg !! ownMsgPromise c = Some o /\ o <> Pending) /\
  NoDup (settle_calls pg) /\
  (forall q, q ∈ settle_calls pg -> exists o, promises pg !! q = Some o /\ o <> Pending).

(** A first send whose promise (number 1) is still pending. *)
Definition first_send : MsgListObserver.Controller :=
  MsgListObserver.run (MsgListObserver.start 0)
    [MsgListObserver.PromiseOwnMessage 10000 "ok" None].

(** After a second send is armed, 10 s pass and both timers fire. *)
Definition both_timers : list MsgListObserver.event :=
  [MsgListObserver.Elapse 10000; MsgListObserver.TimerFires 0;
   MsgListObserver.TimerFires 1].

End OwnCalls.

(** ** Runs in which messages arrive in ID order and every parse succeeds *)

Module InOrder.
Import PendingIndex OwnMessage MsgListObserver.

(** The remote messages ([remoteMsgs]) that the first loop of the observer
    callback collects from the added nodes. *)
Definition remote_of (st : Controller) (added : list Element.t) : list (Z * nat) :=
  snd (foldl classify (fields st, page st, closure st, []) added).

(** Every ID of the list is at or above [lo] and above or equal to the ID
    before it. *)
Fixpoint ascending_from (lo : option Z) (l : list Z) : bool :=
  match l with
  | [] => true
  | x :: rest =>
      match lo with Some b => b <=? x | None => true end && ascending_from (Some x) rest
  end.

(** The record that a parse resolves with carries the ID that the element
    had when it was tracked. *)
Definition parse_matches (s : Closure) (task : nat) (d : MessageData.t) : bool :=
  match tasks s !! task with
  | Some t =>
      match deref (sameIDMsgs t) s with
      | Some g => MessageData.id d =? SameIDMsgs.id g
      | None => true
      end
  | None => true
  end.

(** An event of an orderly run: the remote messages of a batch arrive in
    the order of their IDs, after the messages tracked so far; no parse
    rejects. *)
Definition event_ok (st : Controller) (ev : event) : bool :=
  match ev with
  | ChildrenAdded added =>
      ascending_from (SameIDMsgs.id <$> last (sortedSameIDMsgs (closure st)))
        (map fst (remote_of st added))
  | ParseFulfilled task d => parse_matches (closure st) task d
  | ParseRejected _ _ => false
  | _ => true
  end.

Fixpoint orderly (st : Controller) (evs : list event) : bool :=
  match evs with
  | [] => true
  | ev :: rest => event_ok st ev && orderly (step st ev) rest
  end.

(** What the closure variables of [addMsgListObserver(m0)] satisfy during
    an orderly run. *)
Definition in_order_vars (m0 : Z) (minID : option Z) (arr det : list SameIDMsgs.t)
    (conts : list Continuation) (sent : list (option MessageData.t)) : Prop :=
  StronglySorted Z.lt (ids arr) /\
  (exists ds m,
     sent = Some <$> ds /\ minID = Some m /\ m0 <= m /\
     StronglySorted Z.lt (MessageData.id <$> ds) /\
     Forall (fun d => m0 < MessageData.id d <= m /\
                      Forall (fun x => MessageData.id d < x) (ids arr)) ds) /\
  Forall (fun x => m0 < x) (ids arr) /\
  NoDup (SameIDMsgs.oid <$> (arr ++ det)%list) /\
  Forall (fun o => (o < length arr + length det)%nat)
    (SameIDMsgs.oid <$> (arr ++ det)%list) /\
  Forall (fun g => forall k, SameIDMsgs.resolve g = Some k ->
                   exists c, conts !! k = Some c /\
                             MessageData.id (k_messageData c) = SameIDMsgs.id g) arr.

Definition in_order (m0 : Z) (s : Closure) : Prop :=
  in_order_vars m0 (minID s) (sortedSameIDMsgs s) (detached s) (continuations s) (sent s).

End InOrder.

(** ** [waitForMessageListStability] *)

Module MessageListStability.

(** [const delayMillis = 500] *)
Definition delayMillis : Z := 500.

(** The variables of one call: the clock and the timers of the page, the
    variable [timeoutID] ([None] is [undefined]), whether [observer] is
    still connected, and, for the record, the times at which the observer
    callback ran and at which [myResolve] was called. *)
Record State : Type := {
  now : Z;
  timers : list OwnMessage.Timer;
  timeoutID : option nat;
  connected : bool;
  observed : list Z;
  resolved : list Z;
}.

(** [startTimer()]: [timeoutID = setTimeout(onTimeout, delayMillis)] *)
Definition startTimer (st : State) : State :=
  {| now := now st;
     timers := timers st ++ [{| OwnMessage.deadline := now st + delayMillis;
                                OwnMessage.armed := true |}];
     timeoutID := Some (length (timers st));
     connected := connected st; observed := observed st; resolved := resolved st |}.

(** [clearTimeout(timeoutID)] *)
Definition clearTimeout (st : State) : State :=
  {| now := now st;
     timers :=
       match timeoutID st with
       | Some t =>
           alter (fun tm => {| OwnMessage.deadline := OwnMessage.deadline tm;
                               OwnMessage.armed := false |}) t (timers st)
       | None => timers st
       end;
     timeoutID := timeoutID st;
     connected := connected st; observed := observed st; resolved := resolved st |}.

(** The observer callback: [clearTimeout(timeoutID); startTimer()]. *)
Definition on_changes (st : State) : State :=
  let st1 := clearTimeout st in
  startTimer
    {| now := now st1; timers := timers st1; timeoutID := timeoutID st1;
       connected := connected st1; observed := observed st1 ++ [now st1];
       resolved := resolved st1 |}.

(** [onTimeout]: [observer.disconnect(); myResolve()]. *)
Definition onTimeout (st : State) : State :=
  {| now := now st; timers := timers st; timeoutID := timeoutID st;
     connected := false; observed := observed st;
     resolved := resolved st ++ [now st] |}.

(** The call itself, at time [t0]: the observer starts observing and the
    first timer is started. *)
Definition waitForMessageListStability (t0 : Z) : State :=
  startTimer {| now := t0; timers := []; timeoutID := None; connected := true;
                observed := []; resolved := [] |}.

(** What happens afterwards: time passes, the message area changes, a timer
    that is armed and due fires. *)
Inductive event : Type :=
| Elapse (ms : Z)
| Changes
| TimerFires (t : nat).

Definition step (st : State) (ev : event) : State :=
  match ev with
  | Elapse ms =>
      {| now := now st + Z.max 0 ms; timers := timers st; timeoutID := timeoutID st;
         connected := connected st; observed := observed st; resolved := resolved st |}
  | Changes => if connected st then on_changes st else st
  | TimerFires t =>
      match timers st !! t with
      | Some tm =>
          if OwnMessage.armed tm && (OwnMessage.deadline tm <=? now st) then
            onTimeout
              {| now := now st;
                 timers := <[t := {| OwnMessage.deadline := OwnMessage.deadline tm;
                                     OwnMessage.armed := false |}]> (timers st);
                 timeoutID := timeoutID st; connected := connected st;
                 observed := observed st; resolved := resolved st |}
          else st
      | None => st
      end
  end.

Definition run (st : State) (evs : list event) : State := foldl step st evs.

(** What every reachable state satisfies, for a call at time [t0]: either
    the call is waiting, with exactly one armed timer, the one of
    [timeoutID], set [delayMillis] after the call or the last change; or it
    is done. *)
Definition disarmed_but (keep : option nat) (l : list OwnMessage.Timer) : Prop :=
  forall t tm, l !! t = Some tm -> OwnMessage.armed tm = true -> keep = Some t.

Definition waiting (t0 : Z) (st : State) : Prop :=
  connected st = true /\ resolved st = [] /\
  exists t tm,
    timeoutID st = Some t /\ timers st !! t = Some tm /\
    OwnMessage.armed tm = true /\
    t0 + delayMillis <= OwnMessage.deadline tm <= now st + delayMillis /\
    Forall (fun x => x + delayMillis <= OwnMessage.deadline tm) (observed st) /\
    disarmed_but (Some t) (timers st).

Definition done (t0 : Z) (st : State) : Prop :=
  connected st = false /\
  disarmed_but None (timers st) /\
  exists T, resolved st = [T] /\ t0 + delayMillis <= T /\
            Forall (fun x => x + delayMillis <= T) (observed st).

Definition stable_ok (t0 : Z) (st : State) : Prop :=
  t0 <= now st /\ Forall (fun x => x <= now st) (observed st) /\
  (waiting t0 st \/ done t0 st).

(** The area changes 200 ms and 600 ms after the call; the first timer
    (cleared meanwhile) cannot fire at 500 ms; the third one fires at
    1100 ms. *)
Definition sample : list event :=
  [Elapse 200; Changes; Elapse 300; TimerFires 0; Elapse 100; Changes;
   Elapse 500; TimerFires 2; Changes].

End MessageListStability.

(** ** The chat list observer: [_observeChatListMutations] *)

Module ChatList.

(** What the function may throw: a [TypeError] (a property read on [null]
    or [undefined]) or a [ReferenceError] (an identifier that is not
    declared). *)
Inductive exn : Type :=
| TypeErr
| ReferenceError (identifier : string).

(** The image found by the icon selector: its [src] and its
    [data-picture-path] attribute. *)
Record Img : Type := { src : string; data_picture_path : option string }.

(** [PathImage] *)
Record PathImage : Type := { path : option string; url : string }.

(** [_getPathImage(img)] *)
Definition _getPathImage (img : option Img) : option PathImage :=
  match img with
  | Some i =>
      if String.prefix "blob:" (src i)
      then Some {| path := data_picture_path i; url := src i |}
      else None
  | None => None
  end.

(** An element of the chat list, as the getters read it: each field is the
    text of the descendant that the getter selects, [None] when
    [querySelector] finds none ([null]). *)
Record Item : Type := {
  classList : list string;
  data_chatid : option string;
  title : option string;      (* [.mdCMN04Ttl], [innerText] *)
  icon_img : option Img;      (* [.mdCMN04Img > :not(.mdCMN04ImgInner) > img[src]] *)
  description : option string;  (* [.mdCMN04Desc], [innerHTML] *)
  time : option string;       (* [time], [innerText] *)
  badge : option string;      (* [.MdIcoBadge01:not(.MdNonDisp)], [innerText] *)
}.

(** An added node: a text node has no [classList]. *)
Inductive Node : Type :=
| TextNode
| ElementNode (e : Item).

(** [ChatListInfo] *)
Record ChatListInfo : Type := {
  id : option string;
  name : string;
  icon : option PathImage;
  lastMsg : string;
  lastMsgDate : string;
  notificationCount : Z;
}.

(** A mutation record of the chat list. *)
Record MutationRecord : Type := {
  target_id : string;
  target_tagName : string;
  target_classList : list string;
  addedNodes : list Node;
}.

Section Parsing.

(** [Number.parseInt] on a string: [None] is [NaN]. *)
Variable parseInt : string -> option Z.

(** [getChatListItemNotificationCount(element)]:
    [Number.parseInt(badge?.innerText) || 0]; [parseInt(undefined)] is [NaN]. *)
Definition getChatListItemNotificationCount (e : Item) : Z :=
  match badge e with
  | Some text => default 0 (parseInt text)
  | None => 0
  end.

(** [parseChatListItem(element, knownID)]: the fields of the object literal
    are evaluated in order; reading [innerText] of a missing descendant
    throws. *)
Definition parseChatListItem (element : Node) (knownID : option string)
  : exn + option ChatListInfo :=
  match element with
  | TextNode => inl TypeErr
  | ElementNode e =>
      if negb (Element.contains (classList e) "chatList") then inr None else
      match title e, description e, time e with
      | Some ttl, Some desc, Some tm =>
          inr (Some {| id := match knownID with
                             | Some known => Some known
                             | None => data_chatid e
                             end;
                       name := ttl;
                       icon := _getPathImage (icon_img e);
                       lastMsg := desc;
                       lastMsgDate := tm;
                       notificationCount := getChatListItemNotificationCount e |})
      | _, _, _ => inl TypeErr
      end
  end.

(** The loop of [_observeChatListMutations], on the set [changedChats].
    Every parsed chat is a new object, so the set keeps all of them, in
    insertion order.  The [else] branch of [if (chat)] logs the undeclared
    identifier [node]. *)
Fixpoint collect (mutations : list MutationRecord) (changedChats : list ChatListInfo)
  : exn + list ChatListInfo :=
  match mutations with
  | [] => inr changedChats
  | change :: rest =>
      if String.eqb (target_id change) "_chat_list_body" then collect rest changedChats
      else if String.eqb (target_tagName change) "LI"
              && (Z.of_nat (length (addedNodes change)) =? 1) then
        if Element.contains (target_classList change) "ExSelected"
        then collect rest changedChats
        else
          match addedNodes change with
          | node0 :: _ =>
              match parseChatListItem node0 None with
              | inl e => inl e
              | inr (Some chat) => collect rest (changedChats ++ [chat])
              | inr None => inl (ReferenceError "node")
              end
          | [] => inl TypeErr
          end
      else collect rest changedChats
  end.

(** [_observeChatListMutations(mutations)]: the argument of the call of
    [__mautrixReceiveChanges], [None] when it is not called. *)
Definition _observeChatListMutations (mutations : list MutationRecord)
  : exn + option (list ChatListInfo) :=
  match collect mutations [] with
  | inl e => inl e
  | inr changedChats =>
      inr (if 0 <? Z.of_nat (length changedChats) then Some changedChats else None)
  end.

(** The records that the loop hands to [parseChatListItem]: one node added
    to an [LI] other than the selected chat. *)
Definition considered (change : MutationRecord) : bool :=
  negb (String.eqb (target_id change) "_chat_list_body")
  && String.eqb (target_tagName change) "LI"
  && (Z.of_nat (length (addedNodes change)) =? 1)
  && negb (Element.contains (target_classList change) "ExSelected").

(** The result of [parseChatListItem] on the first added node. *)
Definition parsed (change : MutationRecord) : exn + option ChatListInfo :=
  match addedNodes change with
  | node0 :: _ => parseChatListItem node0 None
  | [] => inl TypeErr
  end.

End Parsing.

(** A chat list item of chat [chatid] and a node that is not one. *)
Definition item (chatid : string) : Node :=
  ElementNode {| classList := ["chatList"]; data_chatid := Some chatid;
                 title := Some "name"; icon_img := None;
                 description := Some "hello"; time := Some "7:16 PM";
                 badge := Some "2" |}.
Definition spacer : Node :=
  ElementNode {| classList := []; data_chatid := None; title := None;
                 icon_img := None; description := None; time := None;
                 badge := None |}.
Definition under_li (n : Node) : MutationRecord :=
  {| target_id := ""; target_tagName := "LI"; target_classList := [];
     addedNodes := [n] |}.

End ChatList.

(** ** The socket client: [Client] of [client.js] *)

Module Client.

(** A request, as [handleLine] reads it after [JSON.parse]: [command] and
    [user_id] are strings ([None] when absent or empty, which is falsy) and
    [id] is a number ([None] when absent or [null]). *)
Record Request : Type := {
  command : option string;
  id : option Z;
  user_id : option string;
}.

(** A line of the socket: not JSON; the JSON [null]; another JSON value
    that is not an object (its properties are all [undefined]); an object. *)
Inductive Line : Type :=
| NotJSON
| JSONNull
| JSONScalar
| JSONObject (req : Request).

(** The notifications of [sendMessage], [sendReceipt], [sendQRCode],
    [sendPIN], [sendLoginSuccess], [sendLoginFailure] and [sendLoggedOut]. *)
Inductive Notice : Type :=
| Message | Receipt | QR | PIN | LoginSuccess | LoginFailure | LoggedOut.

(** What [_write] sends: the [id] of the object and its [command]. *)
Inductive Frame : Type :=
| Quit (id : Z) (error : option string)
| Notification (id : Z) (what : Notice)
| Response (id : Z)
| ErrorResponse (id : Z).

Definition frame_id (f : Frame) : Z :=
  match f with
  | Quit i _ => i
  | Notification i _ => i
  | Response i => i
  | ErrorResponse i => i
  end.

(** The fields of a [Client] that [handleLine] reads or writes, the frames
    written to the socket so far, and the requests whose handler has been
    called and has not settled yet. *)
Record State : Type := {
  stopped : bool;
  userID : option string;
  notificationID : Z;
  maxCommandID : Z;
  written : list Frame;
  handling : list Z;
}.

(** [new Client(manager, socket, connID, userID)] *)
Definition new (userID : option string) : State :=
  {| stopped := false; userID := userID; notificationID := 0; maxCommandID := 0;
     written := []; handling := [] |}.

(** [stop(error)], up to its first [await]: the [quit] frame is written
    with [--this.notificationID]. *)
Definition stop (error : option string) (st : State) : State :=
  if stopped st then st else
  {| stopped := true; userID := userID st;
     notificationID := notificationID st - 1; maxCommandID := maxCommandID st;
     written := written st ++ [Quit (notificationID st - 1) error];
     handling := handling st |}.

(** [handleEnd] *)
Definition handleEnd (st : State) : State :=
  {| stopped := true; userID := userID st; notificationID := notificationID st;
     maxCommandID := maxCommandID st; written := written st;
     handling := handling st |}.

(** [sendMessage(message)] and its siblings. *)
Definition send (what : Notice) (st : State) : State :=
  {| stopped := stopped st; userID := userID st;
     notificationID := notificationID st - 1; maxCommandID := maxCommandID st;
     written := written st ++ [Notification (notificationID st - 1) what];
     handling := handling st |}.

(** How [handleLine] ends, as far as its caller and its log can tell. *)
Inductive Handled : Type :=
| IgnoredStopped
| NonJSONRequest
| Threw                 (* [req.command] on [null] *)
| InvalidRequest
| OldRequest
| Terminated (error : string)
| Called.               (* the handler was called *)

(** [handleLine(line)], up to the call of the handler.  [handleRegister]
    starts with [this.set_userID(req.user_id)]; the handler of
    [disconnect] is [() => this.stop()]; the other handlers do not touch the
    fields modelled here. *)
Definition handleLine (line : Line) (st : State) : State * Handled :=
  if stopped st then (st, IgnoredStopped) else
  match line with
  | NotJSON => (st, NonJSONRequest)
  | JSONNull => (st, Threw)
  | JSONScalar => (st, InvalidRequest)
  | JSONObject req =>
      match command req, id req with
      | Some cmd, Some i =>
          if i =? 0 then (st, InvalidRequest)
          else if i <=? maxCommandID st then (st, OldRequest)
          else
            let st1 := {| stopped := stopped st; userID := userID st;
                          notificationID := notificationID st; maxCommandID := i;
                          written := written st; handling := handling st |} in
            match userID st1 with
            | None =>
                if negb (String.eqb cmd "register")
                then (stop (Some "Invalid first request") st1,
                      Terminated "Invalid first request")
                else
                  match user_id req with
                  | None => (stop (Some "Invalid register request") st1,
                             Terminated "Invalid register request")
                  | Some uid =>
                      ({| stopped := stopped st1; userID := Some uid;
                          notificationID := notificationID st1;
                          maxCommandID := maxCommandID st1; written := written st1;
                          handling := handling st1 ++ [i] |}, Called)
                  end
            | Some _ =>
                let st2 := {| stopped := stopped st1; userID := userID st1;
                              notificationID := notificationID st1;
                              maxCommandID := maxCommandID st1; written := written st1;
                              handling := handling st1 ++ [i] |} in
                (if String.eqb cmd "disconnect" then stop None st2 else st2, Called)
            end
      | _, _ => (st, InvalidRequest)
      end
  end.

(** The end of [handleLine] for request [i]: its handler has returned
    ([ok]) or thrown, and the response is written. *)
Definition respond (i : Z) (ok : bool) (st : State) : State :=
  if bool_decide (i ∈ handling st) then
    {| stopped := stopped st; userID := userID st;
       notificationID := notificationID st; maxCommandID := maxCommandID st;
       written := written st ++ [if ok then Response i else ErrorResponse i];
       handling := filter (fun j => j <> i) (handling st) |}
  else st.

(** What happens to a client: a line arrives; a handler settles; the
    puppet sends a notification; [stop] is called (by the registration
    timeout of [start], which checks [!this.userID && !this.stopped], or by
    a newer client for the same user); the socket ends. *)
Inductive event : Type :=
| LineArrives (line : Line)
| HandlerSettles (i : Z) (ok : bool)
| Sends (what : Notice)
| RegisterTimeout
| StopCalled (error : option string)
| SocketEnds.

Definition step (st : State) (ev : event) : State :=
  match ev with
  | LineArrives line => fst (handleLine line st)
  | HandlerSettles i ok => respond i ok st
  | Sends what => send what st
  | RegisterTimeout =>
      match userID st with
      | None => if stopped st then st else stop (Some "Register request timeout") st
      | Some _ => st
      end
  | StopCalled error => stop error st
  | SocketEnds => handleEnd st
  end.

Definition run (st : State) (evs : list event) : State := foldl step st evs.

(** The IDs of the notifications (and [quit]) and of the responses written
    so far, in write order. *)
Definition notification_ids (st : State) : list Z :=
  omap (fun f => match f with
                 | Quit i _ => Some i
                 | Notification i _ => Some i
                 | _ => None
                 end) (written st).

Definition response_ids (st : State) : list Z :=
  omap (fun f => match f with
                 | Response i => Some i
                 | ErrorResponse i => Some i
                 | _ => None
                 end) (written st).

(** The numbers [-1, -2, ..., -n]. *)
Definition countdown (n : nat) : list Z := map (fun k => - Z.of_nat (S k)) (seq 0 n).

(** What every reachable state satisfies. *)
Definition client_ok (st : State) : Prop :=
  0 <= maxCommandID st /\
  notification_ids st = countdown (Z.to_nat (- notificationID st)) /\
  notificationID st <= 0 /\
  NoDup (response_ids st ++ handling st) /\
  Forall (fun i => 0 < i <= maxCommandID st) (response_ids st ++ handling st) /\
  (userID st = None -> response_ids st = [] /\ handling st = []).

(** A request with the given command and ID. *)
Definition request (cmd : string) (i : Z) (uid : option string) : Line :=
  JSONObject {| command := Some cmd; id := Some i; user_id := uid |}.

(** A session: registration, two requests (the second one settles first),
    a notification, a replayed request, a disconnect. *)
Definition session : list event :=
  [LineArrives (request "register" 1 (Some "@user"));
   HandlerSettles 1 true;
   LineArrives (request "get_chats" 2 None);
   LineArrives (request "send" 5 None);
   Sends Message;
   HandlerSettles 5 true;
   LineArrives (request "get_chat" 4 None);
   HandlerSettles 2 false;
   LineArrives (request "disconnect" 6 None);
   LineArrives (request "send" 7 None);
   HandlerSettles 6 true].

End Client.

(** ** Full refresh of the message list: the scan of [parseMessageList] *)

Module MessageListScan.

(** The variable [refDate] of [parseMessageList]: [undefined], [null], a
    date, or the promise that [_getNearestRefDate(child)] returned (the
    call is not awaited), named by the node of [child]. *)
Inductive RefDate : Type :=
| RefUndefined
| RefNull
| RefValue (ms : Z)
| RefPromise (child : nat).

(** A child element of [#_chat_room_msg_list], as the scan reads it:
    - [separator] is the result of awaiting
      [_tryParseDateSeparator(child.firstElementChild.innerText)] (a
      [TypeError] without a first child);
    - [time] is [None] when [querySelector("time")] finds nothing, and
      otherwise the result of awaiting [_tryParseDate(innerText, refDate)];
    - [member_event] is the result of [_tryParseMemberEvent(child)];
    - [parse] is the promise that
      [_parseMessage(child, chatType, refDate)] returns. *)
Record Child : Type := {
  node : nat;
  is_div : bool;
  data_local_id : option Z;
  classList : list string;
  separator : completion (option Z);
  time : option (RefDate -> completion (option Z));
  member_event : completion (option MessageData.t);
  parse : ChatType.ChatTypeEnum -> RefDate
          -> promise MessageData.t (option MessageData.t);
}.

(** [querySelectorAll("#_chat_room_msg_list > div[data-local-id]")]
    filtered by [msg.getAttribute("data-local-id") > minID]. *)
Definition selected (minID : Z) (c : Child) : bool :=
  is_div c && match data_local_id c with Some i => minID <? i | None => false end.

(** The condition that ends the backward walk over the previous siblings:
    the element has an ID and contains a [time] element. *)
Definition timed (e : Child) : bool :=
  bool_decide (is_Some (data_local_id e)) && bool_decide (is_Some (time e)).

(** [(await ...)?.getTime()] *)
Definition millis (d : option Z) : timestamp_value :=
  match d with Some ms => TsMillis ms | None => TsUndefined end.

(** The loop over [msgList], walking all children so that the previous
    siblings of [child] ([before], nearest first) are at hand; [ps] is
    [messagePromises].  A member event that is the first record looks for
    the nearest earlier element with an ID and a time and, when [refDate] is
    still [undefined], calls [this._tryFindNearestRefDate], which is not a
    method of the class. *)
Fixpoint scan (minID : Z) (chatType : ChatType.ChatTypeEnum) (children before : list Child)
    (refDate : RefDate) (ps : list (promise MessageData.t (option MessageData.t)))
  : completion (list (promise MessageData.t (option MessageData.t))) :=
  match children with
  | [] => Return ps
  | child :: rest =>
      if negb (selected minID child)
      then scan minID chatType rest (child :: before) refDate ps
      else if Element.contains (classList child) "mdRGT10Date" then
        match separator child with
        | Throw e => Throw e
        | Return d =>
            scan minID chatType rest (child :: before)
              (match d with Some ms => RefValue ms | None => RefNull end) ps
        end
      else if Element.contains (classList child) "MdRGT07Cont" then
        let refDate :=
          match refDate with
          | RefUndefined => RefPromise (node child)
          | _ => refDate
          end in
        scan minID chatType rest (child :: before) refDate
          (ps ++ [parse child chatType refDate])
      else if Element.contains (classList child) "MdRGT10Notice" then
        match member_event child with
        | Throw e => Throw e
        | Return None => scan minID chatType rest (child :: before) refDate ps
        | Return (Some memberEventMessage) =>
            if Z.of_nat (length ps) =? 0 then
              match List.find timed before ≫= time with
              | Some timeElement =>
                  match refDate with
                  | RefUndefined => Throw TypeError
                  | _ =>
                      match timeElement refDate with
                      | Throw e => Throw e
                      | Return d =>
                          scan minID chatType rest (child :: before) refDate
                            (ps ++ [Fulfilled (MessageData.set_timestamp
                                                 memberEventMessage (millis d))])
                      end
                  end
              | None =>
                  scan minID chatType rest (child :: before) refDate
                    (ps ++ [Fulfilled memberEventMessage])
              end
            else
              scan minID chatType rest (child :: before) refDate
                (ps ++ [Fulfilled memberEventMessage])
        end
      else scan minID chatType rest (child :: before) refDate ps
  end.

(** [parseMessageList(minID)], for the chat ID that [getCurrentChatID()]
    returns ([None] is [null]): the result is [None] while the function is
    suspended at [Promise.allSettled]. *)
Definition parseMessageList (minID : Z) (chatID : option string) (children : list Child)
  : completion (option (list MessageData.t)) :=
  if Z.of_nat (length (List.filter (selected minID) children)) =? 0 then Return (Some [])
  else
    match chatID with
    | None => Throw TypeError
    | Some id =>
        match ChatType.getChatType id with
        | Throw e => Throw e
        | Return chatType =>
            match scan minID chatType children [] RefUndefined [] with
            | Throw e => Throw e
            | Return ps => Return (ParseMessageList.parseMessageList ps)
            end
        end
    end.

(** A child that the loop passes over without touching [refDate] or
    [messagePromises]. *)
Definition passed_over (minID : Z) (c : Child) : bool :=
  negb (selected minID c) ||
  (negb (Element.contains (classList c) "mdRGT10Date") &&
   negb (Element.contains (classList c) "MdRGT07Cont") &&
   (negb (Element.contains (classList c) "MdRGT10Notice") ||
    match member_event c with Return None => true | _ => false end)).

(** A member event notice that the scan parses. *)
Definition member_notice (minID : Z) (c : Child) : bool :=
  selected minID c &&
  negb (Element.contains (classList c) "mdRGT10Date") &&
  negb (Element.contains (classList c) "MdRGT07Cont") &&
  Element.contains (classList c) "MdRGT10Notice" &&
  match member_event c with Return (Some _) => true | _ => false end.

(** A text message 5 with a time, and the notice 6 that someone joined. *)
Definition message5 : Child :=
  {| node := 1; is_div := true; data_local_id := Some 5;
     classList := ["MdRGT07Cont"]; separator := Throw TypeError;
     time := Some (fun _ => Return (Some 1000));
     member_event := Return None;
     parse := fun _ _ => Fulfilled (ParseMessageList.Sample.text 5 1000) |}.
Definition notice6 : Child :=
  {| node := 2; is_div := true; data_local_id := Some 6;
     classList := ["MdRGT10Notice"]; separator := Throw TypeError;
     time := None;
     member_event := Return (Some (ParseMessageList.Sample.joined 6));
     parse := fun _ _ => Rejected None |}.

End MessageListScan.

(** ** The message list observer after a rejection that is not a record *)

Module Deaf.
Import MsgListObserver.

(** [minID] is [undefined], every parse has settled and every suspended
    handler has been woken. *)
Definition deaf (s : Closure) : Prop :=
  minID s = None /\
  Forall (fun t => settled t = true) (tasks s) /\
  Forall (fun k => k_woken k = true) (continuations s).

(** Message 9 appears and its only parse rejects with an exception (a
    [TypeError], say) instead of a record. *)
Definition exception_thrown : list event :=
  [ChildrenAdded [Sample.remote 1 9]; ParseRejected 0 None].

(** Afterwards messages 10 and 11 appear, the backend returns, and an own
    message is sent and shown. *)
Definition later : list event :=
  [ReceiveMessagesReturned;
   ChildrenAdded [Sample.remote 2 10; Sample.remote 3 11];
   PromiseOwnMessage 10000 "ok" (Some "ko");
   ChildrenAdded [Sample.own 4 12 20 21];
   ParseFulfilled 1 (Sample.parsed 10)].

End Deaf.

(** ** Matching a sender against the friends list and the participant list *)

Module SenderMatch.
Import ReceiptCount.

(** The rest of [s] after its longest prefix of digits. *)
Fixpoint drop_digits (s : string) : string :=
  match s with
  | EmptyString => EmptyString
  | String c rest => if is_digit c then drop_digits rest else s
  end.

(** [src.replace(/\d+x\d+/, "-x-")]: the leftmost match is replaced.  A
    match starts at a digit; the greedy [\d+] takes the whole run of digits,
    which must be followed by [x] and at least one digit, and the second
    [\d+] takes the whole second run. *)
Fixpoint replace_dimensions (s : string) : string :=
  match s with
  | EmptyString => EmptyString
  | String c rest =>
      if is_digit c then
        match drop_digits rest with
        | String x after =>
            if Ascii.eqb x "x" then
              match take_digits after with
              | EmptyString => String c (replace_dimensions rest)
              | String _ _ => "-x-" ++ drop_digits after
              end
            else String c (replace_dimensions rest)
        | EmptyString => String c (replace_dimensions rest)
        end
      else String c (replace_dimensions rest)
  end.

(** [Participant]: [avatar] and [id] may be missing. *)
Record Participant : Type := {
  name : string;
  avatar : option ChatList.PathImage;
  id : option string;
}.

(** An item of the friends list: its [title], the image found by
    [.mdCMN04Img > img[src]] and its [data-mid]. *)
Record FriendItem : Type := {
  title : string;
  friend_img : option ChatList.Img;
  friend_mid : option string;
}.

(** An item of the participant list: the text of its [.mdRGT13Ttl], the
    image found by [.mdRGT13Img > img[src]] and its [data-mid]. *)
Record ParticipantItem : Type := {
  ttl : string;
  participant_img : option ChatList.Img;
  participant_mid : option string;
}.

(** Whether a string property is truthy: set and not empty. *)
Definition truthy (s : option string) : bool :=
  match s with Some v => negb (String.eqb v "") | None => false end.

(** The end of both functions:
    [if (!participant.avatar) participant.avatar = ...;
     if (!participant.id) participant.id = ...]. *)
Definition fill (participant : Participant) (a : option ChatList.PathImage)
    (i : option string) : Participant :=
  {| name := name participant;
     avatar := match avatar participant with Some v => Some v | None => a end;
     id := if truthy (id participant) then id participant else i |}.

(** The characters that do not stand for themselves between the quotes of
    [li[title='NAME']]: the apostrophe ends the string, the backslash starts
    an escape, a line feed, a form feed or a carriage return breaks the
    string, and NUL is replaced. *)
Definition selector_special (c : ascii) : bool :=
  existsb (Nat.eqb (nat_of_ascii c)) [39; 92; 10; 12; 13; 0]%nat.

(** A name that the selector holds as it is. *)
Definition selector_safe (name : string) : bool :=
  forallb (fun c => negb (selector_special c)) (list_ascii_of_string name).

(** The selector that [_updateSenderFromFriendsList] builds from a name. *)
Definition friends_selector (name : string) : string :=
  "#contact_wrap_friends > ul > li[title='" ++ name ++ "']".

Section Origin.

(** [document.location.origin] *)
Variable origin : string.

(** [_isLoadedImageURL(src)], as a truth value. *)
Definition _isLoadedImageURL (src : string) : bool :=
  negb (String.eqb src "") &&
  (String.prefix "blob:" src ||
   String.prefix (origin ++ "/res/") src &&
   negb (String.prefix (origin ++ "/res/img/noimg/") src)).

(** [_getComparableImageURL(src)] *)
Definition _getComparableImageURL (src : string) : string :=
  if _isLoadedImageURL src then src else replace_dimensions src.

(** [document.querySelectorAll(selector)] on the items of the friends
    list, for a selector built from a name that is not [selector_safe]:
    what the browser selects, or what it throws (a [SyntaxError] for a
    selector that does not parse). *)
Variable querySelectorAll : string -> list FriendItem -> completion (list FriendItem).

(** [document.querySelectorAll(`#contact_wrap_friends > ul > li[title='${name}']`)],
    [friends] being the items of [#contact_wrap_friends > ul]: for a
    [selector_safe] name the selector holds the name as it is, and selects
    the items whose title is the name. *)
Definition select_friends (name : string) (friends : list FriendItem)
  : completion (list FriendItem) :=
  if selector_safe name
  then Return (List.filter (fun e => String.eqb (title e) name) friends)
  else querySelectorAll (friends_selector name) friends.

(** [_updateSenderFromFriendsList(participant)]: the result and the
    participant after the call.  [elements] is a [NodeList], which has
    neither [filter] nor [find]. *)
Definition _updateSenderFromFriendsList (participant : Participant)
    (friends : list FriendItem) : completion (bool * Participant) :=
  match select_friends (name participant) friends with
  | Throw e => Throw e
  | Return elements =>
      match elements with
      | [] => Return (false, participant)
      | first :: others =>
          let after_avatar : completion (option FriendItem) :=
            match others with
            | [] => Return (Some first)
            | _ :: _ =>
                match avatar participant with
                | Some _ => Throw TypeError       (* [elements.filter(...)] *)
                | None => Return None
                end
            end in
          match after_avatar with
          | Throw e => Throw e
          | Return targetElement =>
              match targetElement with
              | None =>
                  if truthy (id participant)
                  then Throw TypeError   (* [elements.find(...)] *)
                  else
                    Return (true, fill participant
                                    (ChatList._getPathImage (friend_img first))
                                    (friend_mid first))
              | Some target =>
                  Return (true, fill participant
                                  (ChatList._getPathImage (friend_img target))
                                  (friend_mid target))
              end
          end
      end
  end.

(** The filter on avatars of [_updateSenderFromParticipantList]. *)
Definition same_avatar (url : string) (e : ParticipantItem) : bool :=
  match ChatList._getPathImage (participant_img e) with
  | Some pathImg => String.eqb (_getComparableImageURL (ChatList.url pathImg)) url
  | None => false
  end.

(** [_updateSenderFromParticipantList(participant)].  [participantsList]
    is [None] when [SEL_PARTICIPANTS_LIST] selects nothing; [elements] is an
    array here, declared with [const], so that
    [elements = filteredElements] throws. *)
Definition _updateSenderFromParticipantList (participant : Participant)
    (participantsList : option (list ParticipantItem))
  : completion (bool * Participant) :=
  match participantsList with
  | None => Throw TypeError
  | Some items =>
      let elements := List.filter (fun e => String.eqb (ttl e) (name participant)) items in
      match elements with
      | [] => Return (false, participant)
      | first :: others =>
          let after_avatar : completion (option ParticipantItem) :=
            match others with
            | [] => Return (Some first)
            | _ :: _ =>
                match avatar participant with
                | Some a =>
                    let url := _getComparableImageURL (ChatList.url a) in
                    match List.filter (same_avatar url) elements with
                    | [] => Return None
                    | [only] => Return (Some only)
                    | _ :: _ :: _ => Throw TypeError   (* [elements = filteredElements] *)
                    end
                | None => Return None
                end
            end in
          match after_avatar with
          | Throw e => Throw e
          | Return targetElement =>
              let targetElement :=
                match targetElement with
                | Some target => Some target
                | None =>
                    if truthy (id participant)
                    then List.find (fun e => bool_decide (participant_mid e = id participant))
                           elements
                    else None
                end in
              let target := default first targetElement in
              Return (true, fill participant
                              (ChatList._getPathImage (participant_img target))
                              (participant_mid target))
          end
      end
  end.

(** [_updateSenderFromMatch(participant)]: the participant after the call. *)
Definition _updateSenderFromMatch (participant : Participant)
    (friends : list FriendItem) (participantsList : option (list ParticipantItem))
  : completion Participant :=
  match _updateSenderFromFriendsList participant friends with
  | Throw e => Throw e
  | Return (true, p) => Return p
  | Return (false, p) =>
      match _updateSenderFromParticipantList p participantsList with
      | Throw e => Throw e
      | Return (_, p') => Return p'
      end
  end.

End Origin.

(** The friends with a given name. *)
Definition namesakes (n : string) (friends : list FriendItem) : list FriendItem :=
  List.filter (fun e => String.eqb (title e) n) friends.

(** What a successful match leaves alone. *)
Definition keeps (p p' : Participant) : Prop :=
  name p' = name p /\
  (forall a, avatar p = Some a -> avatar p' = Some a) /\
  (truthy (id p) = true -> id p' = id p).

(** Two friends called Alex, and the sender of a message, of whom the
    message shows the name and the avatar. *)
Definition alex (mid : string) : FriendItem :=
  {| title := "Alex"; friend_img := None; friend_mid := Some mid |}.
Definition sender : Participant :=
  {| name := "Alex";
     avatar := Some {| ChatList.path := None; ChatList.url := "blob:1" |};
     id := None |}.

(** For the samples, whose names are all [selector_safe]: a browser that
    rejects the selector of every other name. *)
Definition rejects_selector (selector : string) (friends : list FriendItem)
  : completion (list FriendItem) := Throw SyntaxError.

(** A participant called Alex who shows the avatar of [sender]. *)
Definition alex_in_chat : ParticipantItem :=
  {| ttl := "Alex";
     participant_img :=
       Some {| ChatList.src := "blob:1"; ChatList.data_picture_path := None |};
     participant_mid := None |}.

End SenderMatch.

(** ** Orderly runs: every tracked message is delivered *)

Module Delivery.
Import PendingIndex OwnMessage MsgListObserver InOrder.

(** A parse of an element of the group is still pending. *)
Definition awaited (s : Closure) (g : SameIDMsgs.t) : Prop :=
  exists j t, tasks s !! j = Some t /\ settled t = false /\
              sameIDMsgs t = SameIDMsgs.oid g.

(** The identities of the wrappers, in the array and removed from it. *)
Definition oids (s : Closure) : list nat :=
  SameIDMsgs.oid <$> (sortedSameIDMsgs s ++ detached s)%list.

(** What the closure variables satisfy during an orderly run, on top of
    [in_order]: every group of the array has a pending parse or a resolved
    record waiting for its turn; a waiting record has not been sent; when
    the first group has a waiting record, a backend call is outstanding (its
    return lets the record through); the groups removed from the array are
    those whose records were sent; every parse belongs to a group. *)
Definition alive (m0 : Z) (s : Closure) : Prop :=
  in_order m0 s /\
  Forall (fun g => awaited s g \/ is_Some (SameIDMsgs.resolve g)) (sortedSameIDMsgs s) /\
  Forall (fun g => forall k, SameIDMsgs.resolve g = Some k ->
                   exists c, continuations s !! k = Some c /\ k_woken c = false)
    (sortedSameIDMsgs s) /\
  (forall g, sortedSameIDMsgs s !! 0%nat = Some g -> is_Some (SameIDMsgs.resolve g) ->
             (0 < unacknowledged s)%nat) /\
  map (fun g => Some (SameIDMsgs.id g)) (detached s)
  = map (fmap MessageData.id) (sent s) /\
  Forall (fun t => sameIDMsgs t ∈ oids s) (tasks s).

(** Two closures with the same wrappers, continuations, sent records, parse
    tasks and outstanding backend calls. *)
Definition same_core (s s' : Closure) : Prop :=
  sortedSameIDMsgs s' = sortedSameIDMsgs s /\ detached s' = detached s /\
  continuations s' = continuations s /\ sent s' = sent s /\
  tasks s' = tasks s /\ unacknowledged s' = unacknowledged s.

End Delivery.

(** ** [_waitForLoadedImage] *)

Module WaitForLoadedImage.

(** The calls of the [resolve] and [reject] functions of the promise, with
    the time of the call; [resolve] is passed the changed element, of which
    [src] is recorded. *)
Inductive Call : Type :=
| Resolve (src : string) (at_time : Z)
| Reject (at_time : Z).

(** The variables of one call: the clock, the deadline of the timer and
    whether it has fired, the variable [observer] ([None] once it has been
    set to [null], and otherwise whether the observer is still connected),
    and the calls made so far. *)
Record State : Type := {
  now : Z;
  deadline : Z;
  fired : bool;
  observer : option bool;
  calls : list Call;
}.

(** [_waitForLoadedImage(img, timeoutLimitMillis)], called at time [t0]. *)
Definition _waitForLoadedImage (t0 timeoutLimitMillis : Z) : State :=
  {| now := t0; deadline := t0 + timeoutLimitMillis; fired := false;
     observer := Some true; calls := [] |}.

(** What happens afterwards: time passes; the [src] attribute changes (a
    batch of records, each given by the [src] of its target when the
    callback reads it; the observer watches [img] alone, so in the browser
    the values of one batch are equal, which the model does not rely on);
    the timer fires. *)
Inductive event : Type :=
| Elapse (ms : Z)
| SrcChanges (srcs : list string)
| TimerFires.

Section Origin.
Variable origin : string.

(** The observer callback: the first record whose target is loaded
    resolves the promise, after [observer.disconnect(); observer = null]. *)
Definition on_changes (srcs : list string) (st : State) : State :=
  match List.find (SenderMatch._isLoadedImageURL origin) srcs with
  | Some src =>
      {| now := now st; deadline := deadline st; fired := fired st;
         observer := None; calls := calls st ++ [Resolve src (now st)] |}
  | None => st
  end.

(** The timer callback: [if (observer) { observer.disconnect(); reject() }]. *)
Definition on_timeout (st : State) : State :=
  match observer st with
  | Some _ =>
      {| now := now st; deadline := deadline st; fired := true;
         observer := Some false; calls := calls st ++ [Reject (now st)] |}
  | None =>
      {| now := now st; deadline := deadline st; fired := true;
         observer := None; calls := calls st |}
  end.

Definition step (st : State) (ev : event) : State :=
  match ev with
  | Elapse ms =>
      {| now := now st + Z.max 0 ms; deadline := deadline st; fired := fired st;
         observer := observer st; calls := calls st |}
  | SrcChanges srcs =>
      match observer st with
      | Some true => on_changes srcs st
      | _ => st
      end
  | TimerFires =>
      if negb (fired st) && (deadline st <=? now st) then on_timeout st else st
  end.

Definition run (st : State) (evs : list event) : State := foldl step st evs.

(** What every reachable state satisfies, for a call at [t0] with limit
    [limit]: it is waiting, resolved or rejected. *)
Definition settled_once (t0 limit : Z) (st : State) : Prop :=
  deadline st = t0 + limit /\ t0 <= now st /\
  ((observer st = Some true /\ fired st = false /\ calls st = []) \/
   (observer st = None /\
    exists src T, calls st = [Resolve src T] /\
                  SenderMatch._isLoadedImageURL origin src = true /\ t0 <= T) \/
   (observer st = Some false /\ fired st = true /\
    exists T, calls st = [Reject T] /\ t0 + limit <= T)).

End Origin.

(** A sticker whose image loads 3 s after the call, with a 10 s limit. *)
Definition loads_in_time : list event :=
  [Elapse 1000; SrcChanges ["https://obs.line/s/1"]; Elapse 2000;
   SrcChanges ["blob:7"]; Elapse 7000; TimerFires; SrcChanges ["blob:8"]].

End WaitForLoadedImage.

(** * Properties *)

(** ** Chat types *)

Section ChatTypeFacts.
Import ChatType.

Lemma getChatType_cons (c : ascii) (rest : string) :
  getChatType (String c rest) =
    if Ascii.eqb c "u" then Return DIRECT
    else if Ascii.eqb c "c" then Return GROUP
    else if Ascii.eqb c "r" then Return ROOM
    else Throw (ThrownString ("Invalid chat ID: " ++ String c rest)).
Proof.
  unfold getChatType, charAt0. cbn [String.eqb].
  destruct (Ascii.eqb c "u"), (Ascii.eqb c "c"), (Ascii.eqb c "r"); reflexivity.
Qed.

(** C9. [getChatType] returns DIRECT exactly for the IDs that start with
    'u', GROUP exactly for 'c', ROOM exactly for 'r', and for every other
    ID (the empty one included) it throws "Invalid chat ID: <id>": no value
    is ever returned for an unknown prefix. *)
Theorem getChatType_by_prefix (id : string) :
  (first_char id = Some "u"%char <-> getChatType id = Return DIRECT) /\
  (first_char id = Some "c"%char <-> getChatType id = Return GROUP) /\
  (first_char id = Some "r"%char <-> getChatType id = Return ROOM) /\
  (~ known_prefix id <->
   getChatType id = Throw (ThrownString ("Invalid chat ID: " ++ id))).
Proof.
  unfold known_prefix, first_char.
  destruct id as [|c rest].
  - cbn. repeat split; intros; try discriminate; intuition discriminate.
  - rewrite getChatType_cons. cbn [String.get].
    destruct (Ascii.eqb_spec c "u") as [->|Hu]; [cbn; intuition congruence|].
    destruct (Ascii.eqb_spec c "c") as [->|Hc]; [cbn; intuition congruence|].
    destruct (Ascii.eqb_spec c "r") as [->|Hr]; [cbn; intuition congruence|].
    repeat split; intros; try congruence; intuition congruence.
Qed.

Example getChatType_samples :
  getChatType "u4f2a" = Return DIRECT /\ getChatType "c91d0" = Return GROUP /\
  getChatType "r0007" = Return ROOM /\
  getChatType "x12" = Throw (ThrownString "Invalid chat ID: x12") /\
  getChatType "" = Throw (ThrownString "Invalid chat ID: ").
Proof. repeat split. Qed.

End ChatTypeFacts.

(** ** Receipt counts *)

Section ReceiptCountFacts.
Import ReceiptCount.

Lemma digit_value_nonneg (c : ascii) : 0 <= digit_value c.
Proof. unfold digit_value. lia. Qed.

Lemma digits_value_nonneg (s : string) : forall acc, 0 <= acc -> 0 <= digits_value acc s.
Proof.
  induction s as [|c rest IH]; intros acc Hacc; cbn [digits_value]; [assumption|].
  apply IH. pose proof (digit_value_nonneg c). lia.
Qed.

Lemma parseInt_nonneg (s : string) (n : Z) : parseInt s = Some n -> 0 <= n.
Proof.
  unfold parseInt. destruct (take_digits s) as [|c ds]; [discriminate|].
  intros [= <-]. exact (digits_value_nonneg (String c ds) 0 (Z.le_refl 0)).
Qed.

Lemma or_null_positive (x : option Z) (n : Z) :
  (forall m, x = Some m -> 0 <= m) -> or_null x = Some n -> 0 < n.
Proof.
  intros Hx. unfold or_null. destruct x as [m|]; [|discriminate].
  destruct (Z.eqb_spec m 0); [discriminate|].
  intros [= <-]. specialize (Hx m eq_refl). lia.
Qed.

Lemma match_digits_no_digit (s : string) : no_digit s -> match_digits s = None.
Proof.
  induction s as [|c rest IH]; cbn; [reflexivity|].
  intros [-> Hrest]. auto.
Qed.

(** A run of digits of at most 15 digits has a value below [10^15]. *)
Lemma digits_value_bound (s : string) :
  forall acc, 0 <= acc ->
    digits_value acc (take_digits s)
    < (acc + 1) * 10 ^ Z.of_nat (String.length (take_digits s)).
Proof.
  induction s as [|c rest IH]; intros acc Hacc; cbn [take_digits].
  - cbn. lia.
  - destruct (is_digit c) eqn:Hc; [|cbn; lia].
    cbn [digits_value String.length]. rewrite Nat2Z.inj_succ, Z.pow_succ_r by lia.
    assert (Hd : 0 <= digit_value c <= 9).
    { unfold is_digit in Hc. apply andb_true_iff in Hc as [H1 H2].
      apply Nat.leb_le in H1, H2. unfold digit_value. lia. }
    specialize (IH (10 * acc + digit_value c) ltac:(lia)).
    pose proof (Z.pow_pos_nonneg 10 (Z.of_nat (String.length (take_digits rest)))
                  ltac:(lia) ltac:(lia)).
    nia.
Qed.

Lemma match_digits_run (s digits : string) :
  match_digits s = Some digits -> take_digits digits = digits /\ digits <> "".
Proof.
  induction s as [|c rest IH]; cbn [match_digits]; [discriminate|].
  destruct (is_digit c) eqn:Hc; [|exact IH].
  intros [= <-]. split; [|discriminate]. cbn [take_digits]. rewrite Hc. f_equal.
  clear. induction rest as [|d rest IH]; [reflexivity|]. cbn [take_digits].
  destruct (is_digit d) eqn:Hd; [|reflexivity]. cbn [take_digits]. rewrite Hd, IH. reflexivity.
Qed.

(** A first run of at most 15 digits is read exactly. *)
Lemma short_run_exact (innerText digits : string) :
  match_digits innerText = Some digits -> (String.length digits <= 15)%nat ->
  exact_count innerText = true.
Proof.
  intros Hm Hlen. unfold exact_count. rewrite Hm. apply Z.leb_le.
  destruct (match_digits_run _ _ Hm) as [Hrun _].
  pose proof (digits_value_bound digits 0 (Z.le_refl 0)) as Hb. rewrite Hrun in Hb.
  assert (10 ^ Z.of_nat (String.length digits) <= 10 ^ 15)
    by (apply Z.pow_le_mono_r; lia).
  unfold max_exact. change (2 ^ 53) with 9007199254740992.
  change (10 ^ 15) with 1000000000000000 in *. lia.
Qed.

(** C10. The result of [_getReceiptCount] is never 0: a text without
    digits gives [null], and so does a text whose first run of digits
    parses to 0.  When the first run of digits of the text has a value of at
    most [2^53], so that [Number.parseInt] returns it as it is, the result
    is [null] or a positive integer.  The count of a group/room
    [ReceiptData] is such a result. *)
Theorem getReceiptCount_null_or_positive (innerText : string) :
  (exact_count innerText = true ->
   _getReceiptCount innerText = None \/
   exists n, _getReceiptCount innerText = Some n /\ 0 < n <= max_exact) /\
  (no_digit innerText -> _getReceiptCount innerText = None) /\
  (forall digits, match_digits innerText = Some digits ->
     parseInt digits = Some 0 -> _getReceiptCount innerText = None) /\
  (forall id, ReceiptData.count
                (ParseReceiptList.receipt_of false
                   {| ParseReceiptList.local_id := id;
                      ParseReceiptList.innerText := innerText |}) <> Some 0).
Proof.
  assert (Hpos : forall n, _getReceiptCount innerText = Some n -> 0 < n).
  { intros n. unfold _getReceiptCount. apply or_null_positive.
    intros m. apply parseInt_nonneg. }
  repeat split.
  - intros Hexact.
    destruct (_getReceiptCount innerText) as [n|] eqn:Hn; [right|left; reflexivity].
    exists n. split; [reflexivity|]. split; [apply Hpos; reflexivity|].
    unfold exact_count in Hexact. unfold _getReceiptCount in Hn.
    destruct (match_digits innerText) as [digits|] eqn:Hm; [|discriminate Hn].
    apply Z.leb_le in Hexact.
    destruct (match_digits_run _ _ Hm) as [Hrun Hne].
    unfold parseInt in Hn. rewrite Hrun in Hn.
    destruct digits as [|c ds]; [contradiction|].
    unfold or_null in Hn. destruct (digits_value 0 (String c ds) =? 0); [discriminate|].
    injection Hn as <-. exact Hexact.
  - intros Hnd. unfold _getReceiptCount.
    rewrite (match_digits_no_digit _ Hnd). reflexivity.
  - intros digits Hm Hp. unfold _getReceiptCount. rewrite Hm, Hp. reflexivity.
  - intros id. cbn. intros H0. apply Hpos in H0. lia.
Qed.

(** C10 on the text of a receipt read by twelve. *)
Lemma getReceiptCount_null_or_positive_witness :
  exact_count "Read 12" = true /\
  (_getReceiptCount "Read 12" = None \/
   exists n, _getReceiptCount "Read 12" = Some n /\ 0 < n <= max_exact).
Proof.
  split; [reflexivity|].
  apply (proj1 (getReceiptCount_null_or_positive "Read 12")). reflexivity.
Defined.

Example getReceiptCount_samples :
  _getReceiptCount "Read 12" = Some 12 /\ _getReceiptCount "Read" = None /\
  _getReceiptCount "Read 0" = None /\ _getReceiptCount "007 of 9" = Some 7 /\
  _getReceiptCount "" = None.
Proof. repeat split. Qed.

End ReceiptCountFacts.

(** ** Full refresh of the message list *)

Section ParseMessageListFacts.
Import ParseMessageList.

Lemma same_but_timestamp_refl (a : MessageData.t) : same_but_timestamp a a.
Proof. destruct a; reflexivity. Qed.

Lemma same_but_timestamp_set (a b : MessageData.t) (ts : timestamp_value) :
  same_but_timestamp a b -> same_but_timestamp a (MessageData.set_timestamp b ts).
Proof. unfold same_but_timestamp. intros <-. destruct a; reflexivity. Qed.

Lemma same_but_timestamp_member_info (a b : MessageData.t) :
  same_but_timestamp a b -> MessageData.member_info a = MessageData.member_info b.
Proof. unfold same_but_timestamp. intros <-. reflexivity. Qed.

Lemma backfill_at_length (l : list MessageData.t) (i : nat) :
  length (backfill_at l i) = length l.
Proof.
  unfold backfill_at.
  destruct (l !! i) as [m|]; [|reflexivity].
  destruct (l !! (i - 1)%nat) as [prev|]; [|reflexivity].
  destruct (MessageData.member_info m); [apply length_insert|reflexivity].
Qed.

Lemma backfill_at_other (l : list MessageData.t) (i j : nat) :
  j <> i -> backfill_at l i !! j = l !! j.
Proof.
  intros Hne. unfold backfill_at.
  destruct (l !! i) as [m|]; [|reflexivity].
  destruct (l !! (i - 1)%nat) as [prev|]; [|reflexivity].
  destruct (MessageData.member_info m); [|reflexivity].
  apply list_lookup_insert_ne. congruence.
Qed.

(** What the loop body leaves at its own index. *)
Lemma backfill_at_self (l : list MessageData.t) (i : nat) (m0 prev : MessageData.t) :
  l !! i = Some m0 -> l !! (i - 1)%nat = Some prev ->
  backfill_at l i !! i =
    Some (match MessageData.member_info m0 with
          | Some _ => MessageData.set_timestamp m0 (MessageData.timestamp prev)
          | None => m0
          end).
Proof.
  intros Hi Hp. unfold backfill_at. rewrite Hi, Hp.
  destruct (MessageData.member_info m0); [|assumption].
  apply list_lookup_insert_eq. eapply lookup_lt_Some, Hi.
Qed.

Lemma backfill_upto_S (k : nat) (l : list MessageData.t) :
  backfill_upto (S k) l = backfill_at (backfill_upto k l) (S k).
Proof. unfold backfill_upto. rewrite seq_S, foldl_app. reflexivity. Qed.

Lemma backfill_upto_length (k : nat) (l : list MessageData.t) :
  length (backfill_upto k l) = length l.
Proof.
  induction k as [|k IH]; [reflexivity|].
  rewrite backfill_upto_S, backfill_at_length. exact IH.
Qed.

Lemma backfill_upto_beyond (k : nat) (l : list MessageData.t) (j : nat) :
  (k < j)%nat -> backfill_upto k l !! j = l !! j.
Proof.
  induction k as [|k IH]; intros Hlt; [reflexivity|].
  rewrite backfill_upto_S, backfill_at_other by lia. apply IH. lia.
Qed.

Lemma backfill_upto_first (k : nat) (l : list MessageData.t) :
  backfill_upto k l !! 0%nat = l !! 0%nat.
Proof.
  induction k as [|k IH]; [reflexivity|].
  rewrite backfill_upto_S, backfill_at_other by lia. exact IH.
Qed.

(** Every record keeps its fields, the timestamp apart, and a record that
    is not a member event is not touched at all. *)
Lemma backfill_upto_same (k : nat) (l : list MessageData.t) (j : nat) (m : MessageData.t) :
  backfill_upto k l !! j = Some m ->
  exists m0, l !! j = Some m0 /\ same_but_timestamp m0 m /\
             (MessageData.member_info m0 = None -> m = m0).
Proof.
  revert j m. induction k as [|k IH]; intros j m Hj.
  - exists m. split; [exact Hj|]. split; [apply same_but_timestamp_refl|reflexivity].
  - rewrite backfill_upto_S in Hj.
    destruct (decide (j = S k)) as [->|Hne].
    + assert (Hlen : (S k < length (backfill_upto k l))%nat).
      { rewrite <- (backfill_at_length _ (S k)). eapply lookup_lt_Some, Hj. }
      destruct (lookup_lt_is_Some_2 (backfill_upto k l) (S k) Hlen) as [m1 Hm1].
      destruct (lookup_lt_is_Some_2 (backfill_upto k l) k ltac:(lia)) as [prev Hprev].
      rewrite (backfill_at_self _ _ m1 prev) in Hj
        by (try assumption; replace (S k - 1)%nat with k by lia; assumption).
      injection Hj as <-.
      destruct (IH _ _ Hm1) as (m0 & Hm0 & Hsame & Hkeep).
      exists m0. split; [exact Hm0|].
      rewrite <- (same_but_timestamp_member_info _ _ Hsame).
      destruct (MessageData.member_info m0) eqn:Emi.
      * split; [apply same_but_timestamp_set, Hsame|discriminate].
      * split; [exact Hsame|exact Hkeep].
    + rewrite backfill_at_other in Hj by assumption. apply IH, Hj.
Qed.

(** After [k] iterations every member event at an index [1 .. k] carries the
    timestamp of the record before it. *)
Lemma backfill_upto_member (k : nat) (l : list MessageData.t) (j : nat)
    (m prev : MessageData.t) :
  (j < k)%nat ->
  backfill_upto k l !! S j = Some m -> backfill_upto k l !! j = Some prev ->
  is_Some (MessageData.member_info m) ->
  MessageData.timestamp m = MessageData.timestamp prev.
Proof.
  revert j m prev. induction k as [|k IH]; intros j m prev Hlt Hm Hprev Hmem; [lia|].
  rewrite backfill_upto_S in Hm, Hprev.
  rewrite backfill_at_other in Hprev by lia.
  destruct (decide (j = k)) as [->|Hne].
  - assert (Hlen : (S k < length (backfill_upto k l))%nat).
    { rewrite <- (backfill_at_length _ (S k)). eapply lookup_lt_Some, Hm. }
    destruct (lookup_lt_is_Some_2 (backfill_upto k l) (S k) Hlen) as [m1 Hm1].
    rewrite (backfill_at_self _ _ m1 prev) in Hm
      by (try assumption; replace (S k - 1)%nat with k by lia; assumption).
    injection Hm as <-.
    destruct (MessageData.member_info m1) eqn:Emi; [reflexivity|].
    rewrite Emi in Hmem. destruct Hmem as [? ?]. discriminate.
  - rewrite backfill_at_other in Hm by lia.
    apply (IH j); [lia|assumption..].
Qed.

Lemma allSettled_pending {A R} (ps : list (promise A R)) :
  Exists is_pending ps <-> allSettled ps = None.
Proof.
  induction ps as [|p rest IH]; cbn [allSettled].
  - split; [intros H; inversion H|discriminate].
  - rewrite Exists_cons, IH.
    destruct p; cbn [is_pending]; destruct (allSettled rest); intuition discriminate.
Qed.

(** C8. [parseMessageList] returns nothing while a message promise is
    pending, and once all have settled it returns the fulfilled records, in
    order, changed in their timestamps only and only where [member_info] is
    set: every member event that is not the first returned record carries
    the timestamp of the record returned just before it. *)
Theorem parseMessageList_member_timestamps {R}
    (messagePromises : list (promise MessageData.t R)) :
  (Exists is_pending messagePromises <-> parseMessageList messagePromises = None) /\
  (forall out, parseMessageList messagePromises = Some out ->
     (exists settled,
        allSettled messagePromises = Some settled /\
        length out = length (fulfilled_values settled) /\
        out !! 0%nat = fulfilled_values settled !! 0%nat /\
        forall j m, out !! j = Some m ->
          exists m0, fulfilled_values settled !! j = Some m0 /\
                     same_but_timestamp m0 m /\
                     (MessageData.member_info m0 = None -> m = m0)) /\
     (forall i m prev,
        out !! S i = Some m -> out !! i = Some prev ->
        is_Some (MessageData.member_info m) ->
        MessageData.timestamp m = MessageData.timestamp prev)).
Proof.
  split.
  - rewrite allSettled_pending. unfold parseMessageList.
    destruct (allSettled messagePromises); intuition discriminate.
  - intros out. unfold parseMessageList.
    destruct (allSettled messagePromises) as [settled|]; [|discriminate].
    intros [= <-]. unfold backfill.
    fold (backfill_upto (length (fulfilled_values settled) - 1) (fulfilled_values settled)).
    split.
    + exists settled. split; [reflexivity|].
      split; [apply backfill_upto_length|].
      split; [apply backfill_upto_first|].
      intros j m. apply backfill_upto_same.
    + intros i m prev Hm Hprev Hmem.
      eapply backfill_upto_member; [|exact Hm|exact Hprev|exact Hmem].
      apply lookup_lt_Some in Hm. rewrite backfill_upto_length in Hm. lia.
Qed.

Example parseMessageList_samples :
  parseMessageList (R := unit)
    [Fulfilled (Sample.text 1 100); Rejected tt; Fulfilled (Sample.joined 2);
     Fulfilled (Sample.joined 3); Fulfilled (Sample.text 4 200)]
    = Some [Sample.text 1 100;
            MessageData.set_timestamp (Sample.joined 2) (TsMillis 100);
            MessageData.set_timestamp (Sample.joined 3) (TsMillis 100);
            Sample.text 4 200] /\
  parseMessageList (R := unit)
    [Fulfilled (Sample.joined 2); Fulfilled (Sample.text 4 200)]
    = Some [Sample.joined 2; Sample.text 4 200] /\
  parseMessageList (R := unit)
    [Fulfilled (Sample.text 1 100); Pending; Fulfilled (Sample.joined 2)] = None.
Proof. repeat split. Qed.

End ParseMessageListFacts.

(** ** Full refresh of the receipts *)

Section ParseReceiptListFacts.
Import ChatType ParseReceiptList.

Lemma scan_newer (rctIDs : gmap (option Z) Z) (others : Z) (visited : list ReceiptData.t) :
  forall minCountToFind r,
    r ∈ scan rctIDs others minCountToFind visited ->
    r ∈ visited /\ watermark rctIDs (ReceiptData.count r) < ReceiptData.id r.
Proof.
  induction visited as [|receipt rest IH]; intros m r; cbn [scan].
  - intros H. inversion H.
  - destruct (is_new rctIDs m receipt) eqn:Enew.
    + rewrite elem_of_cons. intros [->|Hin].
      * split; [left|]. unfold is_new in Enew.
        apply andb_true_iff in Enew as [_ Hw]. lia.
      * destruct (num (ReceiptData.count receipt) <? others); [|inversion Hin].
        destruct (IH _ _ Hin). split; [right|]; assumption.
    + destruct (ReceiptData.id receipt <=? prevFullyReadID rctIDs others);
        [intros H; inversion H|].
      intros Hin. destruct (IH _ _ Hin). split; [right|]; assumption.
Qed.

(** The scan of a list in two parts: the second part is visited only when
    the first was left without a [break]. *)
Lemma scan_app (rctIDs : gmap (option Z) Z) (others : Z) (l1 l2 : list ReceiptData.t) :
  forall m,
    scan rctIDs others m (l1 ++ l2)%list =
    (scan rctIDs others m l1 ++
     match scan_through rctIDs others m l1 with
     | Some m' => scan rctIDs others m' l2
     | None => []
     end)%list.
Proof.
  induction l1 as [|receipt rest IH]; intros m; cbn [scan scan_through app].
  - reflexivity.
  - destruct (is_new rctIDs m receipt).
    + destruct (num (ReceiptData.count receipt) <? others).
      * rewrite IH. reflexivity.
      * reflexivity.
    + destruct (ReceiptData.id receipt <=? prevFullyReadID rctIDs others).
      * reflexivity.
      * apply IH.
Qed.

(** A receipt at or below the fully-read watermark that is not reported
    ends the scan: what precedes it in the document is not visited. *)
Lemma newReceipts_early_exit (rctIDs : gmap (option Z) Z) (others : Z)
    (pre post : list ReceiptData.t) (r : ReceiptData.t) :
  ReceiptData.id r <= prevFullyReadID rctIDs others ->
  r ∉ newReceipts rctIDs others (pre ++ r :: post) ->
  newReceipts rctIDs others (r :: post) = newReceipts rctIDs others (pre ++ r :: post).
Proof.
  intros Hle Hnot. unfold newReceipts in *.
  rewrite rev_app_distr in *. cbn [rev] in *.
  rewrite <- app_assoc in *. cbn [app] in *.
  rewrite scan_app in Hnot. rewrite !scan_app.
  destruct (scan_through rctIDs others 1 (rev post)) as [m'|]; [|reflexivity].
  f_equal. cbn [scan] in *.
  destruct (is_new rctIDs m' r).
  - exfalso. apply Hnot. apply elem_of_app. right. left.
  - apply Z.leb_le in Hle. rewrite Hle. reflexivity.
Qed.

(** C6, as amended. [parseReceiptList] returns receipts of visible read
    indicators whose ID is strictly greater than the watermark of their own
    count tier (0 for a missing tier), and the backward scan ends at a
    receipt at or below the fully-read watermark that is not itself
    reported: the result is that of the scan of the document from that
    receipt on. *)
Theorem parseReceiptList_newer_and_early_exit (chatID : string)
    (chatType : ChatTypeEnum) (childElementCount : Z)
    (reads : list ReadElement) (rctIDs : gmap (option Z) Z) :
  getChatType chatID = Return chatType ->
  let isDirect := is_direct chatType in
  let fullyRead := prevFullyReadID rctIDs (numOthers isDirect childElementCount) in
  exists out,
    parseReceiptList chatID childElementCount reads rctIDs = Return out /\
    (forall r, r ∈ out ->
       r ∈ map (receipt_of isDirect) reads /\
       watermark rctIDs (ReceiptData.count r) < ReceiptData.id r) /\
    (forall pre e post,
       reads = (pre ++ e :: post)%list ->
       local_id e <= fullyRead ->
       receipt_of isDirect e ∉ out ->
       parseReceiptList chatID childElementCount (e :: post) rctIDs = Return out).
Proof.
  intros Htype isDirect fullyRead. unfold parseReceiptList. rewrite Htype.
  fold isDirect. eexists. split; [reflexivity|]. split.
  - intros r Hin. unfold newReceipts in Hin.
    apply scan_newer in Hin as [Hin Hw]. split; [|exact Hw].
    apply list_elem_of_In. apply list_elem_of_In, in_rev in Hin. exact Hin.
  - intros pre e post -> Hle Hnot. f_equal.
    rewrite map_app in *. cbn [map] in *.
    apply newReceipts_early_exit; [|exact Hnot].
    destruct isDirect; exact Hle.
Qed.

(** The amended C6 on the group chat of [Sample], with tier 1 reported up
    to message 20: the receipt of message 30 is new; the scan then meets the
    receipt of message 5, which is not new and lies below the fully-read
    watermark 10, and ends there, so that the receipt of message 4 (new for
    tier 2) is not visited. *)
Lemma parseReceiptList_newer_and_early_exit_witness :
  exists out,
    parseReceiptList "c0" 4 [Sample.older; Sample.newer; Sample.newest]
      Sample.rctIDs_tier1 = Return out /\
    out = [Sample.receipt 30 1] /\
    (forall r, r ∈ out ->
       r ∈ map (receipt_of false) [Sample.older; Sample.newer; Sample.newest] /\
       watermark Sample.rctIDs_tier1 (ReceiptData.count r) < ReceiptData.id r) /\
    parseReceiptList "c0" 4 [Sample.newer; Sample.newest] Sample.rctIDs_tier1
      = Return out.
Proof.
  destruct (parseReceiptList_newer_and_early_exit "c0" GROUP 4
              [Sample.older; Sample.newer; Sample.newest] Sample.rctIDs_tier1 eq_refl)
    as (out & Hout & Hnew & Hexit).
  assert (Hval : out = [Sample.receipt 30 1]).
  { vm_compute in Hout. injection Hout as <-. reflexivity. }
  exists out. split; [exact Hout|]. split; [exact Hval|]. split; [exact Hnew|].
  apply (Hexit [Sample.older] Sample.newer [Sample.newest]).
  - reflexivity.
  - vm_compute. discriminate.
  - rewrite Hval. intros Hin. apply list_elem_of_In in Hin.
    destruct Hin as [Heq|[]]. vm_compute in Heq. discriminate.
Defined.

(** C6, as stated, fails: in a group chat with three others and the
    fully-read watermark 10, the scan visits the receipt of message 5
    (count 1), which is below that watermark, reports it, and goes on to
    report the receipt of message 4: the result is not that of the scan
    from message 5 on. *)
Lemma parseReceiptList_scans_past_fully_read :
  parseReceiptList "c0" 4 [Sample.older; Sample.newer] Sample.rctIDs
    = Return [Sample.receipt 5 1; Sample.receipt 4 2] /\
  local_id Sample.newer <= prevFullyReadID Sample.rctIDs 3 /\
  parseReceiptList "c0" 4 [Sample.newer] Sample.rctIDs
    = Return [Sample.receipt 5 1] /\
  parseReceiptList "c0" 4 [Sample.newer] Sample.rctIDs
    <> parseReceiptList "c0" 4 [Sample.older; Sample.newer] Sample.rctIDs.
Proof.
  split; [vm_compute; reflexivity|].
  split; [vm_compute; discriminate|].
  split; [vm_compute; reflexivity|].
  vm_compute. discriminate.
Qed.

End ParseReceiptListFacts.

(** ** The pending-ID index *)

Section PendingIndexFacts.
Import PendingIndex.

(** One unfolding of the recursive function. *)
Lemma _findMsgsForID_step (arr : list SameIDMsgs.t) (id : Z) (rc : bool) (lb ub : Z) :
  _findMsgsForID arr id rc lb ub =
    if ub <? lb then Return (-1)
    else if rc && (lb =? ub) then
      match at_index arr lb with
      | Some v => Return (if SameIDMsgs.id v <=? id then lb else lb - 1)
      | None => Throw TypeError
      end
    else
      let i := lb + (ub - lb) / 2 in
      match at_index arr i with
      | Some val =>
          if SameIDMsgs.id val =? id then Return i
          else if SameIDMsgs.id val <? id then _findMsgsForID arr id rc (i + 1) ub
          else _findMsgsForID arr id rc lb (i - 1)
      | None => Throw TypeError
      end.
Proof.
  simp _findMsgsForID.
  destruct (Z_lt_dec ub lb) as [Hlt|Hge]; cbn.
  - replace (ub <? lb) with true by lia. reflexivity.
  - replace (ub <? lb) with false by lia.
    destruct (rc && (lb =? ub)); cbn; reflexivity.
Qed.

Lemma at_index_Some {A} (arr : list A) (i : Z) (x : A) :
  at_index arr i = Some x <-> 0 <= i /\ arr !! Z.to_nat i = Some x.
Proof.
  unfold at_index. destruct (Z.ltb_spec i 0); split.
  - discriminate.
  - intros [? _]. lia.
  - intros H0. split; [lia|exact H0].
  - intros [_ H0]. exact H0.
Qed.

Lemma at_index_in_range {A} (arr : list A) (i : Z) :
  0 <= i < Z.of_nat (length arr) -> exists x, at_index arr i = Some x.
Proof.
  intros Hi. destruct (lookup_lt_is_Some_2 arr (Z.to_nat i) ltac:(lia)) as [x Hx].
  exists x. apply at_index_Some. split; [lia|exact Hx].
Qed.

Lemma strictly_ascending_tail (x : Z) (l : list Z) :
  strictly_ascending (x :: l) -> strictly_ascending l.
Proof. destruct l as [|y l]; cbn; [trivial|intros [_ H]; exact H]. Qed.

Lemma strictly_ascending_head (l : list Z) :
  forall x y, strictly_ascending (x :: l) -> y ∈ l -> x < y.
Proof.
  induction l as [|z l IH]; intros x y Hs Hin; [inversion Hin|].
  destruct Hs as [Hxz Hs]. apply elem_of_cons in Hin as [->|Hin]; [exact Hxz|].
  specialize (IH z y Hs Hin). lia.
Qed.

Lemma strictly_ascending_lookup (l : list Z) :
  strictly_ascending l ->
  forall i j x y, (i < j)%nat -> l !! i = Some x -> l !! j = Some y -> x < y.
Proof.
  induction l as [|z l IH]; intros Hs i j x y Hlt Hi Hj; [discriminate|].
  destruct j as [|j]; [lia|]. cbn in Hj.
  destruct i as [|i]; cbn in Hi.
  - injection Hi as ->. eapply strictly_ascending_head; [exact Hs|].
    eapply list_elem_of_lookup_2, Hj.
  - eapply (IH (strictly_ascending_tail _ _ Hs) i j); [lia|assumption..].
Qed.

(** In an ascending array the IDs grow with the index. *)
Lemma ascending_at_index (arr : list SameIDMsgs.t) (i j : Z) (gi gj : SameIDMsgs.t) :
  strictly_ascending (ids arr) -> i < j ->
  at_index arr i = Some gi -> at_index arr j = Some gj ->
  SameIDMsgs.id gi < SameIDMsgs.id gj.
Proof.
  intros Hs Hlt Hi Hj.
  apply at_index_Some in Hi as [Hi0 Hi]. apply at_index_Some in Hj as [Hj0 Hj].
  apply (strictly_ascending_lookup _ Hs (Z.to_nat i) (Z.to_nat j)); [lia| |];
    unfold ids; rewrite list_lookup_fmap; [rewrite Hi|rewrite Hj]; reflexivity.
Qed.

(** The exact search between two bounds inside the array: it returns an
    index of the range that holds [id], or -1 when the range has none. *)
Lemma _findMsgsForID_exact_range (arr : list SameIDMsgs.t) (id : Z) :
  strictly_ascending (ids arr) ->
  forall (n : nat) (lb ub : Z),
    ub - lb + 1 <= Z.of_nat n -> 0 <= lb -> ub < Z.of_nat (length arr) ->
    (exists i g, _findMsgsForID arr id false lb ub = Return i /\ lb <= i <= ub /\
                 at_index arr i = Some g /\ SameIDMsgs.id g = id) \/
    (_findMsgsForID arr id false lb ub = Return (-1) /\
     forall j g, lb <= j <= ub -> at_index arr j = Some g -> SameIDMsgs.id g <> id).
Proof.
  intros Hs. induction n as [|n IH]; intros lb ub Hn Hlb Hub;
    rewrite _findMsgsForID_step.
  - replace (ub <? lb) with true by lia. right. split; [reflexivity|]. intros; lia.
  - destruct (Z.ltb_spec ub lb) as [Hlt|Hle].
    { right. split; [reflexivity|]. intros; lia. }
    cbn [andb]. cbv zeta.
    set (i := lb + (ub - lb) / 2).
    assert (Hi : lb <= i <= ub).
    { subst i. pose proof (Z.div_pos (ub - lb) 2).
      pose proof (Z.mul_div_le (ub - lb) 2). lia. }
    destruct (at_index_in_range arr i ltac:(lia)) as [val Hval]. rewrite Hval.
    destruct (Z.eqb_spec (SameIDMsgs.id val) id) as [Heq|Hne].
    { left. exists i, val. auto. }
    destruct (Z.ltb_spec (SameIDMsgs.id val) id) as [Hless|Hmore].
    + destruct (IH (i + 1) ub ltac:(lia) ltac:(lia) Hub)
        as [(r & g & Hr & Hrange & Hg & Hid)|[Hr Hnone]].
      * left. exists r, g. repeat split; try assumption; lia.
      * right. split; [exact Hr|]. intros j g Hj Hg.
        destruct (Z_le_gt_dec j i) as [Hji|Hji]; [|apply (Hnone j); [lia|exact Hg]].
        destruct (Z.eq_dec j i) as [->|Hjne]; [congruence|].
        pose proof (ascending_at_index arr j i g val Hs ltac:(lia) Hg Hval). lia.
    + destruct (IH lb (i - 1) ltac:(lia) Hlb ltac:(lia))
        as [(r & g & Hr & Hrange & Hg & Hid)|[Hr Hnone]].
      * left. exists r, g. repeat split; try assumption; lia.
      * right. split; [exact Hr|]. intros j g Hj Hg.
        destruct (Z_lt_ge_dec j i) as [Hji|Hji]; [apply (Hnone j); [lia|exact Hg]|].
        destruct (Z.eq_dec j i) as [->|Hjne]; [congruence|].
        pose proof (ascending_at_index arr i j val g Hs ltac:(lia) Hval Hg). lia.
Qed.

(** C5. On an array strictly ascending by [id], [_findMsgsForID] with
    [returnClosest = false] (and the default bounds) returns: it yields the
    index of the group that has the ID when there is one, and -1 when no
    group has it. *)
Theorem findMsgsForID_exact (sortedSameIDMsgs : list SameIDMsgs.t) (id : Z) :
  strictly_ascending (ids sortedSameIDMsgs) ->
  (exists i, findMsgsForID sortedSameIDMsgs id false = Return i) /\
  (forall g, g ∈ sortedSameIDMsgs -> SameIDMsgs.id g = id ->
     exists i, findMsgsForID sortedSameIDMsgs id false = Return i /\
               at_index sortedSameIDMsgs i = Some g) /\
  ((forall g, g ∈ sortedSameIDMsgs -> SameIDMsgs.id g <> id) ->
     findMsgsForID sortedSameIDMsgs id false = Return (-1)).
Proof.
  intros Hs. unfold findMsgsForID.
  set (len := Z.of_nat (length sortedSameIDMsgs)).
  pose proof (_findMsgsForID_exact_range sortedSameIDMsgs id Hs
                (length sortedSameIDMsgs) 0 (len - 1)
                ltac:(lia) ltac:(lia) ltac:(lia)) as Hfind.
  split; [|split].
  - destruct Hfind as [(i & g & Hr & _)|[Hr _]]; eauto.
  - intros g Hin Hid.
    apply list_elem_of_lookup in Hin as [j Hj].
    assert (Hgj : at_index sortedSameIDMsgs (Z.of_nat j) = Some g).
    { apply at_index_Some. split; [lia|]. rewrite Nat2Z.id. exact Hj. }
    apply lookup_lt_Some in Hj as Hlt.
    destruct Hfind as [(i & g' & Hr & Hrange & Hg' & Hid')|[_ Hnone]].
    + exists i. split; [exact Hr|].
      destruct (Z.lt_trichotomy i (Z.of_nat j)) as [Hc|[->|Hc]].
      * pose proof (ascending_at_index _ _ _ _ _ Hs Hc Hg' Hgj). lia.
      * exact Hgj.
      * pose proof (ascending_at_index _ _ _ _ _ Hs Hc Hgj Hg'). lia.
    + exfalso. apply (Hnone (Z.of_nat j) g); [lia|exact Hgj|exact Hid].
  - intros Hnone.
    destruct Hfind as [(i & g & Hr & Hrange & Hg & Hid)|[Hr _]]; [|exact Hr].
    exfalso. apply (Hnone g); [|exact Hid].
    apply at_index_Some in Hg as [_ Hg]. eapply list_elem_of_lookup_2, Hg.
Qed.

(** C5 on the array 10, 20, 30, 40 and the ID 30. *)
Lemma findMsgsForID_exact_witness :
  strictly_ascending (ids Sample.tracked) /\
  (exists i, findMsgsForID Sample.tracked 30 false = Return i) /\
  (forall g, g ∈ Sample.tracked -> SameIDMsgs.id g = 30 ->
     exists i, findMsgsForID Sample.tracked 30 false = Return i /\
               at_index Sample.tracked i = Some g) /\
  ((forall g, g ∈ Sample.tracked -> SameIDMsgs.id g <> 30) ->
     findMsgsForID Sample.tracked 30 false = Return (-1)).
Proof.
  assert (Hs : strictly_ascending (ids Sample.tracked)) by (cbn; lia).
  split; [exact Hs|].
  exact (findMsgsForID_exact Sample.tracked 30 Hs).
Defined.

(** On an ascending array the closest-match search between two bounds
    returns the index that holds [id], when the range has one. *)
Lemma _findMsgsForID_closest_present (arr : list SameIDMsgs.t) (id : Z) :
  strictly_ascending (ids arr) ->
  forall (n : nat) (lb ub j : Z) (g : SameIDMsgs.t),
    ub - lb + 1 <= Z.of_nat n -> 0 <= lb -> ub < Z.of_nat (length arr) ->
    lb <= j <= ub -> at_index arr j = Some g -> SameIDMsgs.id g = id ->
    _findMsgsForID arr id true lb ub = Return j.
Proof.
  intros Hs. induction n as [|n IH]; intros lb ub j g Hn Hlb Hub Hj Hg Hid; [lia|].
  rewrite _findMsgsForID_step.
  replace (ub <? lb) with false by lia. cbn [andb].
  destruct (Z.eqb_spec lb ub) as [->|Hne].
  - assert (j = ub) as -> by lia. rewrite Hg.
    replace (SameIDMsgs.id g <=? id) with true by lia. reflexivity.
  - cbv zeta. set (i := lb + (ub - lb) / 2).
    assert (Hi : lb <= i <= ub).
    { subst i. pose proof (Z.div_pos (ub - lb) 2).
      pose proof (Z.mul_div_le (ub - lb) 2). lia. }
    destruct (at_index_in_range arr i ltac:(lia)) as [val Hval]. rewrite Hval.
    destruct (Z.lt_trichotomy i j) as [Hc|[Hc|Hc]].
    + pose proof (ascending_at_index _ _ _ _ _ Hs Hc Hval Hg).
      replace (SameIDMsgs.id val =? id) with false by lia.
      replace (SameIDMsgs.id val <? id) with true by lia.
      apply (IH (i + 1) ub j g); (lia || assumption).
    + subst j. assert (val = g) as -> by congruence.
      replace (SameIDMsgs.id g =? id) with true by lia. reflexivity.
    + pose proof (ascending_at_index _ _ _ _ _ Hs Hc Hg Hval).
      replace (SameIDMsgs.id val =? id) with false by lia.
      replace (SameIDMsgs.id val <? id) with false by lia.
      apply (IH lb (i - 1) j g); (lia || assumption).
Qed.

(** A message whose ID has a group already is appended to that group, and
    the IDs of the array do not change. *)
Lemma _insertMsgByID_present (arr : list SameIDMsgs.t) (msg : PendingMessage.t)
    (fresh j : nat) (g : SameIDMsgs.t) :
  strictly_ascending (ids arr) ->
  arr !! j = Some g -> SameIDMsgs.id g = PendingMessage.id msg ->
  _insertMsgByID arr msg fresh
    = Return (<[j := SameIDMsgs.push_msg g msg]> arr, Some (SameIDMsgs.push_msg g msg)) /\
  ids (<[j := SameIDMsgs.push_msg g msg]> arr) = ids arr.
Proof.
  intros Hs Hj Hid.
  assert (Hlt : (j < length arr)%nat) by (eapply lookup_lt_Some, Hj).
  assert (Hg : at_index arr (Z.of_nat j) = Some g).
  { apply at_index_Some. split; [lia|]. rewrite Nat2Z.id. exact Hj. }
  split.
  - unfold _insertMsgByID, findMsgsForID.
    rewrite (_findMsgsForID_closest_present arr _ Hs (length arr) 0 _ (Z.of_nat j) g)
      by (lia || assumption).
    replace (Z.of_nat j =? -1) with false by lia.
    rewrite Hg. replace (SameIDMsgs.id g =? PendingMessage.id msg) with true by lia.
    rewrite Nat2Z.id. do 2 f_equal.
    apply at_index_Some. split; [lia|]. rewrite Nat2Z.id.
    apply list_lookup_insert_eq. exact Hlt.
  - unfold ids. rewrite list_fmap_insert. apply list_insert_id.
    rewrite list_lookup_fmap, Hj. reflexivity.
Qed.

(** Whatever the array, no group is left without a pending message. *)
Lemma _insertMsgByID_msgs_nonempty (arr arr' : list SameIDMsgs.t)
    (msg : PendingMessage.t) (fresh : nat) (r : option SameIDMsgs.t) :
  Forall (fun g => SameIDMsgs.msgs g <> []) arr ->
  _insertMsgByID arr msg fresh = Return (arr', r) ->
  Forall (fun g => SameIDMsgs.msgs g <> []) arr'.
Proof.
  intros Hall. unfold _insertMsgByID.
  assert (Hsplice : forall start created,
             SameIDMsgs.msgs created <> [] ->
             Forall (fun g => SameIDMsgs.msgs g <> []) (splice_in arr start created)).
  { intros start created Hc. unfold splice_in. apply Forall_app. split.
    - apply Forall_take, Hall.
    - constructor; [exact Hc|apply Forall_drop, Hall]. }
  destruct (findMsgsForID arr (PendingMessage.id msg) true) as [i|e]; [|discriminate].
  destruct (i =? -1).
  - intros [= <- _]. apply Hsplice. discriminate.
  - destruct (at_index arr i) as [g|]; [|discriminate].
    destruct (SameIDMsgs.id g =? PendingMessage.id msg).
    + intros [= <- _]. apply Forall_insert; [exact Hall|].
      cbn. destruct (SameIDMsgs.msgs g); discriminate.
    + intros [= <- _]. apply Hsplice. discriminate.
Qed.


(** C4 fails on the code. The four groups 10, 20, 30, 40 are strictly
    ascending; the closest-match search for 25 ends in the empty range
    [2, 1] and answers -1, so [_insertMsgByID] splices the new group in at
    index 0: the array becomes 25, 10, 20, 30, 40, which is not ascending.
    Inserting 25 once more then creates a second group for the same ID.
    The observer reaches this array when message 25 appears while 10, 20,
    30 and 40 are being parsed. *)
Theorem insertMsgByID_breaks_order :
  strictly_ascending (ids Sample.tracked) /\
  findMsgsForID Sample.tracked 25 true = Return (-1) /\
  (exists arr g,
     _insertMsgByID Sample.tracked Sample.late 4 = Return (arr, Some g) /\
     ids arr = [25; 10; 20; 30; 40] /\
     ~ strictly_ascending (ids arr) /\
     exists arr' g',
       _insertMsgByID arr Sample.late 5 = Return (arr', Some g') /\
       ids arr' = [25; 25; 10; 20; 30; 40]) /\
  ids (MsgListObserver.sortedSameIDMsgs
         (MsgListObserver.closure
            (MsgListObserver.run (MsgListObserver.start 0)
               MsgListObserver.Sample.late_arrival)))
    = [25; 10; 20; 30; 40].
Proof.
  split; [cbn; lia|].
  split; [vm_compute; reflexivity|].
  split.
  - eexists _, _. split; [vm_compute; reflexivity|].
    split; [reflexivity|]. split; [cbn; lia|].
    eexists _, _. split; [vm_compute; reflexivity|]. reflexivity.
  - vm_compute. reflexivity.
Qed.

End PendingIndexFacts.

(** ** Own messages: one send on its own *)

Section OwnMessageFacts.
Import OwnMessage.

Lemma connected_at_disconnect (o : nat) (pg : Page) :
  connected_at (disconnect o pg) o = false.
Proof.
  unfold connected_at, disconnect. cbn.
  rewrite list_lookup_alter_eq. destruct (observers pg !! o); reflexivity.
Qed.

Lemma connected_at_disconnect_other (o o' : nat) (pg : Page) :
  connected_at pg o' = false -> connected_at (disconnect o pg) o' = false.
Proof.
  intros H. destruct (decide (o = o')) as [->|Hne]; [apply connected_at_disconnect|].
  unfold connected_at, disconnect in *. cbn.
  rewrite list_lookup_alter_ne by assumption. exact H.
Qed.

Lemma settle_pending (p : nat) (outcome : own_promise) (pg : Page) :
  promises pg !! p = Some Pending -> promises (settle p outcome pg) !! p = Some outcome.
Proof.
  intros Hp. unfold settle. cbn. rewrite Hp.
  apply list_lookup_insert_eq. eapply lookup_lt_Some, Hp.
Qed.

(** The page after [_promiseOwnMsgReset()]: the observers kept in the two
    fields are disconnected, in this order, and nothing else changes. *)
Lemma _promiseOwnMsgReset_page (c : Fields) (pg : Page) (so : nat) (fo : option nat) :
  visibleSuccessObserver c = Some so -> visibleFailureObserver c = fo ->
  let pg2 := snd (_promiseOwnMsgReset c pg) in
  fst (_promiseOwnMsgReset c pg) = cleared c /\
  effects pg2 =
    (effects pg ++ Disconnect so ::
       match fo with Some f => [Disconnect f] | None => [] end)%list /\
  promises pg2 = promises pg /\
  connected_at pg2 so = false /\
  (forall f, fo = Some f -> connected_at pg2 f = false).
Proof.
  intros Hso Hfo. unfold _promiseOwnMsgReset. rewrite Hso, Hfo. cbn [fst snd].
  split; [reflexivity|]. destruct fo as [f|].
  - split; [cbn; rewrite <- app_assoc; reflexivity|].
    split; [reflexivity|].
    split; [apply connected_at_disconnect_other, connected_at_disconnect|].
    intros f' [= <-]. apply connected_at_disconnect.
  - split; [reflexivity|]. split; [reflexivity|].
    split; [apply connected_at_disconnect|]. intros f' [=].
Qed.

(** X12. A send is armed (promise [p], timer [t]) and its element has been
    matched (observers [so] and, with a failure selector, [fo]).  Then
    - a visible change under the success observer resolves [p] with the
      element's ID, provided the ID is not 0 (the callback reads the ID as
      its success flag);
    - a visible change under the failure observer rejects [p] with the
      indicator;
    - the timer of the send, when due, rejects [p] with nothing;
    and in each case the timer is cleared (on success), the observers are
    disconnected and the fields are reset on the page [pg2] on which the
    resolve / reject function is then called. *)
Lemma own_message_settles_after_cleanup (c : Fields) (pg : Page) (p t so : nat)
    (fo : option nat) (msgID : Z) (changes : list Indicator.t) (shown : Indicator.t) :
  promiseOwnMsgResolve c = Some p -> promiseOwnMsgReject c = Some p ->
  promiseOwnMsgTimeoutID c = Some t ->
  visibleSuccessObserver c = Some so -> visibleFailureObserver c = fo ->
  promises pg !! p = Some Pending ->
  List.find (fun change => negb (Indicator.nonDisp change)) changes = Some shown ->
  msgID <> 0 ->
  let cleanup := Disconnect so :: match fo with Some f => [Disconnect f] | None => [] end in
  let clean pg2 :=
    connected_at pg2 so = false /\ (forall f, fo = Some f -> connected_at pg2 f = false) in
  (forall tg,
     observers pg !! so
       = Some {| target := tg; callback_msgID := Some msgID; connected := true |} ->
     exists pg2,
       visible_changes so changes c pg = (cleared c, call_resolve p msgID pg2) /\
       effects pg2 = (effects pg ++ ClearTimeout t :: cleanup)%list /\ clean pg2 /\
       promises (call_resolve p msgID pg2) !! p = Some (Fulfilled msgID)) /\
  (forall f tg,
     fo = Some f ->
     observers pg !! f
       = Some {| target := tg; callback_msgID := None; connected := true |} ->
     exists pg2,
       visible_changes f changes c pg
         = (cleared c, call_reject p (Some (Indicator.node shown)) pg2) /\
       effects pg2 = (effects pg ++ cleanup)%list /\ clean pg2 /\
       promises (call_reject p (Some (Indicator.node shown)) pg2) !! p
         = Some (Rejected (Some (Indicator.node shown)))) /\
  (forall d,
     timers pg !! t = Some {| deadline := d; armed := true |} -> d <= now pg ->
     exists pg2,
       timer_fires t c pg = (cleared c, call_reject p None pg2) /\
       effects pg2 = (effects pg ++ cleanup)%list /\ clean pg2 /\
       promises (call_reject p None pg2) !! p = Some (Rejected None)).
Proof.
  intros Hres Hrej Htid Hso Hfo Hp Hshown Hid cleanup clean.
  split; [|split].
  - intros tg Hobs. unfold visible_changes. rewrite Hobs. cbn [connected callback_msgID].
    unfold _getOwnVisibleCallback. rewrite Hshown.
    replace (negb (msgID =? 0)) with true by lia.
    unfold _resolveOwnMessage. rewrite Hres, Htid. cbn [default].
    set (pg1 := clearTimeout (Some t) pg).
    destruct (_promiseOwnMsgReset_page c pg1 so fo Hso Hfo)
      as (Hc & Heff & Hprom & Hclean_so & Hclean_fo).
    destruct (_promiseOwnMsgReset c pg1) as [c2 pg2]. cbn [fst snd] in *. subst c2.
    exists pg2. split; [reflexivity|].
    split; [rewrite Heff; subst pg1; cbn; rewrite <- app_assoc; reflexivity|].
    split; [split; assumption|].
    unfold call_resolve. apply settle_pending. cbn. rewrite Hprom. exact Hp.
  - intros f tg -> Hobs. unfold visible_changes. rewrite Hobs. cbn [connected callback_msgID].
    unfold _getOwnVisibleCallback. rewrite Hshown.
    unfold _rejectOwnMessage. rewrite Hrej.
    destruct (_promiseOwnMsgReset_page c pg so (Some f) Hso Hfo)
      as (Hc & Heff & Hprom & Hclean_so & Hclean_fo).
    destruct (_promiseOwnMsgReset c pg) as [c2 pg2]. cbn [fst snd] in *. subst c2.
    exists pg2. split; [reflexivity|]. split; [exact Heff|].
    split; [split; assumption|].
    unfold call_reject. apply settle_pending. cbn. rewrite Hprom. exact Hp.
  - intros d Htimer Hdue. unfold timer_fires. rewrite Htimer. cbn [armed deadline andb].
    replace (d <=? now pg) with true by lia.
    unfold timeout_callback, _rejectOwnMessage. rewrite Hrej.
    set (pg1 := {| now := now pg; promises := promises pg;
                   timers := <[t:={| deadline := d; armed := false |}]> (timers pg);
                   observers := observers pg; effects := effects pg |}).
    destruct (_promiseOwnMsgReset_page c pg1 so fo Hso Hfo)
      as (Hc & Heff & Hprom & Hclean_so & Hclean_fo).
    destruct (_promiseOwnMsgReset c pg1) as [c2 pg2]. cbn [fst snd] in *. subst c2.
    exists pg2. split; [reflexivity|]. split; [exact Heff|].
    split; [split; assumption|].
    unfold call_reject. apply settle_pending. cbn. rewrite Hprom. exact Hp.
Qed.

(** The lemma applies to a first send: armed at time 0 (promise 1, timer
    0), element 7 matched (observers 0 and 1), success shown. *)
Lemma own_message_settles_sample :
  let st := MsgListObserver.run (MsgListObserver.start 0)
              (take 2 MsgListObserver.Sample.second_send_armed) in
  exists pg2,
    visible_changes 0 [MsgListObserver.Sample.shown 10]
      (MsgListObserver.fields st) (MsgListObserver.page st)
      = (cleared (MsgListObserver.fields st), call_resolve 1 7 pg2) /\
    effects pg2 = [ClearTimeout 0; Disconnect 0; Disconnect 1] /\
    promises (call_resolve 1 7 pg2) !! 1%nat = Some (Fulfilled 7).
Proof.
  cbv zeta.
  set (st := MsgListObserver.run (MsgListObserver.start 0)
               (take 2 MsgListObserver.Sample.second_send_armed)).
  destruct (own_message_settles_after_cleanup
              (MsgListObserver.fields st) (MsgListObserver.page st)
              1 0 0 (Some 1%nat) 7 [MsgListObserver.Sample.shown 10]
              (MsgListObserver.Sample.shown 10)
              eq_refl eq_refl eq_refl eq_refl eq_refl eq_refl eq_refl ltac:(lia))
    as [Hok _].
  destruct (Hok 10%nat eq_refl) as (pg2 & Hrun & Heff & _ & Hp).
  exists pg2. split; [exact Hrun|]. split; [exact Heff|exact Hp].
Defined.

End OwnMessageFacts.

(** ** The message list observer *)

Section MsgListObserverFacts.
Import PendingIndex OwnMessage MsgListObserver.

(** The model on the scenario of the design: 10 resolves before 9 and is
    held back; once 9 is sent and the backend has returned, 10 is sent. *)
Example later_resolves_first_in_order :
  sent_ids (run (start 0) (take 2 Sample.later_resolves_first)) = [] /\
  sent_ids (run (start 0) (take 3 Sample.later_resolves_first)) = [Some 9] /\
  sent_ids (run (start 0) Sample.later_resolves_first) = [Some 9; Some 10] /\
  minID_history (start 0) Sample.later_resolves_first
    = [Some 0; Some 0; Some 0; Some 9; Some 10; Some 10] /\
  sortedSameIDMsgs (closure (run (start 0) Sample.later_resolves_first)) = [].
Proof. repeat split; vm_compute; reflexivity. Qed.

(** C1 fails on the code. Messages 9, 10 and 11 are tracked; the parse of
    11 is rejected first: the rejected handler calls [handleMessage] at
    once, which sends 11 and shifts group 9 out of the array; when 10 then
    resolves it is found at index 0 and sent.  The backend receives 11
    before 10. *)
Theorem rejection_delivers_out_of_order :
  ids (sortedSameIDMsgs (closure (run (start 0) (take 1 Sample.late_rejection))))
    = [9; 10; 11] /\
  sent_ids (run (start 0) (take 2 Sample.late_rejection)) = [Some 11] /\
  ids (sortedSameIDMsgs (closure (run (start 0) (take 2 Sample.late_rejection))))
    = [10; 11] /\
  sent_ids (run (start 0) Sample.late_rejection) = [Some 11; Some 10] /\
  ~ strictly_ascending [11; 10].
Proof.
  split; [vm_compute; reflexivity|].
  split; [vm_compute; reflexivity|].
  split; [vm_compute; reflexivity|].
  split; [vm_compute; reflexivity|].
  cbn. lia.
Qed.

(** C2 fails on the code. Messages 9 and 10 are tracked; the only attempt
    of 10 is rejected while 9 is pending: its record is sent at once, not
    at its turn, and it is group 9 that leaves the array.  The attempt of
    9 then resolves and is dropped as already handled, so group 9 delivers
    nothing.  Group 10 stays first in the array with nothing left to settle:
    message 11 resolves behind it, is suspended, and is not sent although
    every call of the backend has returned. *)
Theorem rejection_removes_another_group :
  let st2 := run (start 0) (take 2 Sample.abandoned_behind_head) in
  let st4 := run (start 0) (take 4 Sample.abandoned_behind_head) in
  let st := run (start 0) Sample.abandoned_behind_head in
  sent (closure st2) = [Some (Sample.partial 10)] /\
  ids (sortedSameIDMsgs (closure st2)) = [10] /\
  sent (closure st4) = [Some (Sample.partial 10)] /\
  sent (closure st) = [Some (Sample.partial 10)] /\
  ids (sortedSameIDMsgs (closure st)) = [10; 11] /\
  map settled (tasks (closure st)) = [true; true; true] /\
  map k_woken (continuations (closure st)) = [false] /\
  unacknowledged (closure st) = 0%nat /\
  run st [ReceiveMessagesReturned] = st.
Proof.
  cbv zeta.
  split; [vm_compute; reflexivity|].
  split; [vm_compute; reflexivity|].
  split; [vm_compute; reflexivity|].
  split; [vm_compute; reflexivity|].
  split; [vm_compute; reflexivity|].
  split; [vm_compute; reflexivity|].
  split; [vm_compute; reflexivity|].
  split; [vm_compute; reflexivity|].
  vm_compute. reflexivity.
Qed.

(** C3 fails on the code. With remote message 11 still being parsed, the
    bridge's own message 12 resolves and raises [minID] from 0 to 12 (the
    guarded assignment of the own-message reaction); when 11 resolves,
    [handleMessage] assigns [minID = 11].  The run of C1 lowers it as well,
    from 11 to 10. *)
Theorem watermark_regresses :
  minID_history (start 0) Sample.own_message_overtakes
    = [Some 0; Some 0; Some 0; Some 0; Some 12; Some 11] /\
  sent_ids (run (start 0) Sample.own_message_overtakes) = [Some 11] /\
  minID_history (start 0) Sample.late_rejection
    = [Some 0; Some 0; Some 11; Some 11; Some 10].
Proof.
  split; [vm_compute; reflexivity|].
  split; vm_compute; reflexivity.
Qed.

(** C7 fails on the code. [_rejectOwnMessage] does not clear the timer that
    [promiseOwnMessage] set (as [_resolveOwnMessage] does), so the timer of
    a send that failed stays armed.  Here a second send is armed at 5 s with
    a limit of 10 s; at 10 s the timer of the first send fires and rejects
    the second one, 5 s before its own limit; its success indicator becomes
    visible at 12 s, and the promise stays rejected. *)
Theorem stale_timer_rejects_next_send :
  let armed2 := run (start 0) Sample.second_send_armed in
  let fired := run armed2 Sample.first_timer_fires in
  let final := run fired Sample.then_success_shows in
  promises (page armed2) = [Fulfilled (-1); Rejected (Some 11%nat); Pending] /\
  timers (page armed2)
    = [{| deadline := 10000; armed := true |}; {| deadline := 15000; armed := true |}] /\
  promiseOwnMsgReject (fields armed2) = Some 2%nat /\
  visibleSuccessObserver (fields armed2) = Some 2%nat /\
  now (page fired) = 10000 /\
  promises (page fired) = [Fulfilled (-1); Rejected (Some 11%nat); Rejected None] /\
  now (page final) = 12000 /\
  promises (page final) = [Fulfilled (-1); Rejected (Some 11%nat); Rejected None] /\
  effects (page final)
    = [Disconnect 0; Disconnect 1; CallReject 1 (Some 11%nat);
       Disconnect 2; Disconnect 3; CallReject 2 None].
Proof.
  cbv zeta.
  split; [vm_compute; reflexivity|].
  split; [vm_compute; reflexivity|].
  split; [vm_compute; reflexivity|].
  split; [vm_compute; reflexivity|].
  split; [vm_compute; reflexivity|].
  split; [vm_compute; reflexivity|].
  split; [vm_compute; reflexivity|].
  split; vm_compute; reflexivity.
Qed.

End MsgListObserverFacts.

(** ** The pending-ID index on any array, and where it keeps its order *)

Section IndexFacts.
Import PendingIndex NewGroup.

Lemma strictly_ascending_StronglySorted (l : list Z) :
  strictly_ascending l <-> StronglySorted Z.lt l.
Proof.
  induction l as [|x l IH]; [split; [constructor|intros _; exact I]|].
  rewrite StronglySorted_cons, <- IH. split.
  - intros Hs. split; [|exact (strictly_ascending_tail _ _ Hs)].
    apply Forall_forall. intros y Hy. exact (strictly_ascending_head _ _ _ Hs Hy).
  - intros [Hall Hs]. destruct l as [|y l]; [exact I|].
    split; [|exact Hs]. apply (Forall_inv Hall).
Qed.

(** The search between two bounds inside any array: it returns, the result
    is -1 or an index of the range (in closest mode possibly the index just
    below it), and what the index holds is as the mode says, given that in
    closest mode the element left of the range, if any, is below [id]. *)
Lemma _findMsgsForID_any_range (arr : list SameIDMsgs.t) (id : Z) (rc : bool) :
  forall (n : nat) (lb ub : Z),
    ub - lb + 1 <= Z.of_nat n -> 0 <= lb -> ub < Z.of_nat (length arr) ->
    (forall g, 0 < lb -> at_index arr (lb - 1) = Some g -> SameIDMsgs.id g < id) ->
    exists r, _findMsgsForID arr id rc lb ub = Return r /\
      (r = -1 \/
       (0 <= r <= ub /\
        exists g, at_index arr r = Some g /\
                  if rc then SameIDMsgs.id g <= id else SameIDMsgs.id g = id)).
Proof.
  induction n as [|n IH]; intros lb ub Hn Hlb Hub Hleft;
    rewrite _findMsgsForID_step.
  - replace (ub <? lb) with true by lia. eauto.
  - destruct (Z.ltb_spec ub lb) as [Hlt|Hle]; [eauto|].
    destruct (rc && (lb =? ub)) eqn:Eclosest.
    + apply andb_true_iff in Eclosest as [-> Heq]. apply Z.eqb_eq in Heq. subst ub.
      destruct (at_index_in_range arr lb ltac:(lia)) as [v Hv]. rewrite Hv.
      destruct (Z.leb_spec (SameIDMsgs.id v) id) as [Hvle|Hvgt].
      * eexists. split; [reflexivity|]. right. split; [lia|]. eauto.
      * eexists. split; [reflexivity|].
        destruct (Z.eq_dec lb 0) as [->|Hnz]; [left; reflexivity|right].
        split; [lia|].
        destruct (at_index_in_range arr (lb - 1) ltac:(lia)) as [g Hg].
        exists g. split; [exact Hg|]. specialize (Hleft g ltac:(lia) Hg). lia.
    + cbv zeta. set (i := lb + (ub - lb) / 2).
      assert (Hi : lb <= i <= ub).
      { subst i. pose proof (Z.div_pos (ub - lb) 2).
        pose proof (Z.mul_div_le (ub - lb) 2). lia. }
      destruct (at_index_in_range arr i ltac:(lia)) as [val Hval]. rewrite Hval.
      destruct (Z.eqb_spec (SameIDMsgs.id val) id) as [Heq|Hne].
      { eexists. split; [reflexivity|]. right. split; [lia|].
        exists val. split; [exact Hval|]. destruct rc; lia. }
      destruct (Z.ltb_spec (SameIDMsgs.id val) id) as [Hless|Hmore].
      * destruct (IH (i + 1) ub ltac:(lia) ltac:(lia) Hub) as (r & Hr & Hres).
        { intros g _ Hg. replace (i + 1 - 1) with i in Hg by lia. congruence. }
        exists r. split; [exact Hr|exact Hres].
      * destruct (IH lb (i - 1) ltac:(lia) Hlb ltac:(lia) Hleft) as (r & Hr & Hres).
        exists r. split; [exact Hr|].
        destruct Hres as [->|[Hrange Hg]]; [left; reflexivity|right].
        split; [lia|exact Hg].
Qed.

(** X1. Whatever the array (ascending or not), the ID and the mode,
    [_findMsgsForID] with its default bounds does not throw: it returns -1
    or an index of the array.  In exact mode a returned index holds the
    ID; in closest mode it holds an ID that is not above the one searched. *)
Theorem findMsgsForID_returns_index (sortedSameIDMsgs : list SameIDMsgs.t) (id : Z)
    (returnClosest : bool) :
  exists r, findMsgsForID sortedSameIDMsgs id returnClosest = Return r /\
    -1 <= r < Z.of_nat (length sortedSameIDMsgs) /\
    (r <> -1 ->
     exists g, at_index sortedSameIDMsgs r = Some g /\
               if returnClosest then SameIDMsgs.id g <= id else SameIDMsgs.id g = id).
Proof.
  unfold findMsgsForID.
  destruct (_findMsgsForID_any_range sortedSameIDMsgs id returnClosest
              (length sortedSameIDMsgs) 0 (Z.of_nat (length sortedSameIDMsgs) - 1)
              ltac:(lia) ltac:(lia) ltac:(lia) ltac:(intros; lia))
    as (r & Hr & Hres).
  exists r. split; [exact Hr|].
  destruct Hres as [->|[Hrange Hg]]; [split; [lia|congruence]|].
  split; [lia|]. intros _. exact Hg.
Qed.

End IndexFacts.

Section IndexOrderFacts.
Import PendingIndex NewGroup.

(** On an ascending array the exact search returns the index of a group
    of the array, when asked for the ID of that group. *)
Lemma findMsgsForID_finds_member (arr : list SameIDMsgs.t) (j : nat) (g : SameIDMsgs.t) :
  strictly_ascending (ids arr) -> arr !! j = Some g ->
  findMsgsForID arr (SameIDMsgs.id g) false = Return (Z.of_nat j).
Proof.
  intros Hs Hj. unfold findMsgsForID.
  assert (Hgj : at_index arr (Z.of_nat j) = Some g).
  { apply at_index_Some. split; [lia|]. rewrite Nat2Z.id. exact Hj. }
  apply lookup_lt_Some in Hj as Hlt.
  destruct (_findMsgsForID_exact_range arr (SameIDMsgs.id g) Hs (length arr) 0
              (Z.of_nat (length arr) - 1) ltac:(lia) ltac:(lia) ltac:(lia))
    as [(i & g' & Hr & Hrange & Hg' & Hid')|[_ Hnone]].
  - rewrite Hr. f_equal.
    destruct (Z.lt_trichotomy i (Z.of_nat j)) as [Hc|[->|Hc]]; [|reflexivity|].
    + pose proof (ascending_at_index _ _ _ _ _ Hs Hc Hg' Hgj). lia.
    + pose proof (ascending_at_index _ _ _ _ _ Hs Hc Hgj Hg'). lia.
  - exfalso. apply (Hnone (Z.of_nat j) g); [lia|exact Hgj|reflexivity].
Qed.

(** The closest-match search between two bounds of an ascending array,
    when the element left of the range is below [id] and the element right
    of it is above: a result other than -1 is the index of the greatest ID
    that is not above [id]. *)
Lemma _findMsgsForID_closest_range (arr : list SameIDMsgs.t) (id : Z) :
  strictly_ascending (ids arr) ->
  forall (n : nat) (lb ub : Z),
    ub - lb + 1 <= Z.of_nat n -> 0 <= lb -> ub < Z.of_nat (length arr) ->
    (forall g, at_index arr (lb - 1) = Some g -> SameIDMsgs.id g < id) ->
    (forall g, at_index arr (ub + 1) = Some g -> id < SameIDMsgs.id g) ->
    exists r, _findMsgsForID arr id true lb ub = Return r /\
      (r = -1 \/
       exists g, at_index arr r = Some g /\ SameIDMsgs.id g <= id /\
                 forall g', at_index arr (r + 1) = Some g' -> id < SameIDMsgs.id g').
Proof.
  intros Hs. induction n as [|n IH]; intros lb ub Hn Hlb Hub Hleft Hright;
    rewrite _findMsgsForID_step.
  - replace (ub <? lb) with true by lia. eauto.
  - destruct (Z.ltb_spec ub lb) as [Hlt|Hle]; [eauto|]. cbn [andb].
    destruct (Z.eqb_spec lb ub) as [->|Hne].
    + destruct (at_index_in_range arr ub ltac:(lia)) as [v Hv]. rewrite Hv.
      eexists. split; [reflexivity|].
      destruct (Z.leb_spec (SameIDMsgs.id v) id) as [Hvle|Hvgt].
      * right. exists v. auto.
      * destruct (Z.eq_dec ub 0) as [->|Hnz]; [left; reflexivity|right].
        destruct (at_index_in_range arr (ub - 1) ltac:(lia)) as [g Hg].
        exists g. split; [exact Hg|]. split; [specialize (Hleft g Hg); lia|].
        intros g'. replace (ub - 1 + 1) with ub by lia. rewrite Hv.
        intros [= <-]. lia.
    + cbv zeta. set (i := lb + (ub - lb) / 2).
      assert (Hi : lb <= i <= ub).
      { subst i. pose proof (Z.div_pos (ub - lb) 2).
        pose proof (Z.mul_div_le (ub - lb) 2). lia. }
      destruct (at_index_in_range arr i ltac:(lia)) as [val Hval]. rewrite Hval.
      destruct (Z.eqb_spec (SameIDMsgs.id val) id) as [Heq|Hneq].
      { eexists. split; [reflexivity|]. right. exists val.
        split; [exact Hval|]. split; [lia|]. intros g' Hg'.
        pose proof (ascending_at_index arr i (i + 1) val g' Hs ltac:(lia) Hval Hg'). lia. }
      destruct (Z.ltb_spec (SameIDMsgs.id val) id) as [Hless|Hmore].
      * apply (IH (i + 1) ub); [lia|lia|exact Hub| |exact Hright].
        intros g. replace (i + 1 - 1) with i by lia. rewrite Hval. intros [= <-]. exact Hless.
      * apply (IH lb (i - 1)); [lia|exact Hlb|lia|exact Hleft|].
        intros g. replace (i - 1 + 1) with i by lia. rewrite Hval. intros [= <-]. lia.
Qed.

Lemma at_index_below {A} (arr : list A) (i : Z) : i < 0 -> at_index arr i = None.
Proof. intros Hi. unfold at_index. replace (i <? 0) with true by lia. reflexivity. Qed.

Lemma at_index_beyond {A} (arr : list A) (i : Z) :
  Z.of_nat (length arr) <= i -> at_index arr i = None.
Proof.
  intros Hi. unfold at_index. replace (i <? 0) with false by lia.
  apply lookup_ge_None. lia.
Qed.

Lemma findMsgsForID_closest_sound (arr : list SameIDMsgs.t) (id : Z) :
  strictly_ascending (ids arr) ->
  exists r, findMsgsForID arr id true = Return r /\
    (r = -1 \/
     exists g, at_index arr r = Some g /\ SameIDMsgs.id g <= id /\
               forall g', at_index arr (r + 1) = Some g' -> id < SameIDMsgs.id g').
Proof.
  intros Hs. unfold findMsgsForID.
  apply (_findMsgsForID_closest_range arr id Hs (length arr)); [lia..| |].
  - intros g. rewrite at_index_below by lia. discriminate.
  - intros g. rewrite at_index_beyond by lia. discriminate.
Qed.

(** X2. On an array strictly ascending by [id], a result of the
    closest-match search other than -1 is the index of the nearest group
    from below: its ID is not above the one searched, and the ID of the
    next group, if there is one, is above it. *)
Theorem findMsgsForID_closest_is_predecessor (sortedSameIDMsgs : list SameIDMsgs.t)
    (id r : Z) :
  strictly_ascending (ids sortedSameIDMsgs) ->
  findMsgsForID sortedSameIDMsgs id true = Return r -> r <> -1 ->
  exists g, at_index sortedSameIDMsgs r = Some g /\ SameIDMsgs.id g <= id /\
            forall g', at_index sortedSameIDMsgs (r + 1) = Some g' -> id < SameIDMsgs.id g'.
Proof.
  intros Hs Hr Hnot.
  destruct (findMsgsForID_closest_sound sortedSameIDMsgs id Hs) as (r' & Hr' & Hres).
  assert (r' = r) as -> by congruence.
  destruct Hres as [->|Hg]; [congruence|exact Hg].
Qed.

(** X2 on the array 10, 20, 30, 40: the search for 35 answers index 2. *)
Lemma findMsgsForID_closest_is_predecessor_witness :
  exists g, at_index Sample.tracked 2 = Some g /\ SameIDMsgs.id g <= 35 /\
            forall g', at_index Sample.tracked (2 + 1) = Some g' -> 35 < SameIDMsgs.id g'.
Proof.
  apply (findMsgsForID_closest_is_predecessor Sample.tracked 35 2).
  - cbn. lia.
  - vm_compute. reflexivity.
  - lia.
Defined.

End IndexOrderFacts.

Section InsertOrderFacts.
Import PendingIndex NewGroup.

Lemma ids_fmap (arr : list SameIDMsgs.t) : ids arr = SameIDMsgs.id <$> arr.
Proof. reflexivity. Qed.

Lemma ids_lookup (arr : list SameIDMsgs.t) (i : nat) :
  ids arr !! i = SameIDMsgs.id <$> arr !! i.
Proof. rewrite ids_fmap. apply list_lookup_fmap. Qed.

Lemma ids_splice_in (arr : list SameIDMsgs.t) (k : Z) (c : SameIDMsgs.t) :
  ids (splice_in arr k c)
  = (take (Z.to_nat k) (ids arr) ++ SameIDMsgs.id c :: drop (Z.to_nat k) (ids arr))%list.
Proof.
  rewrite !ids_fmap. unfold splice_in.
  rewrite fmap_app, fmap_cons, fmap_take, fmap_drop. reflexivity.
Qed.

(** A value put between the part of an ascending list that is below it
    and the part that is above it. *)
Lemma StronglySorted_splice (l : list Z) (k : nat) (v : Z) :
  StronglySorted Z.lt l ->
  (forall x, x ∈ take k l -> x < v) -> (forall y, y ∈ drop k l -> v < y) ->
  StronglySorted Z.lt (take k l ++ v :: drop k l).
Proof.
  intros Hs Hbelow Habove. rewrite <- (take_drop k l) in Hs.
  apply StronglySorted_app in Hs as (Hcross & Htake & Hdrop).
  apply StronglySorted_app_2; [|exact Htake|].
  - intros x1 x2 Hx1 Hx2. apply elem_of_cons in Hx2 as [->|Hx2]; [auto|].
    specialize (Hbelow x1 Hx1). specialize (Habove x2 Hx2). lia.
  - apply StronglySorted_cons. split; [|exact Hdrop].
    apply Forall_forall. exact Habove.
Qed.

(** The three ways [_insertMsgByID] can go once the search has answered. *)
Lemma _insertMsgByID_cases (arr : list SameIDMsgs.t) (msg : PendingMessage.t)
    (fresh : nat) (r : Z) :
  findMsgsForID arr (PendingMessage.id msg) true = Return r ->
  -1 <= r < Z.of_nat (length arr) ->
  let k := Z.to_nat (r + 1) in
  (exists g0, arr !! Z.to_nat r = Some g0 /\ r <> -1 /\
              SameIDMsgs.id g0 = PendingMessage.id msg /\
              _insertMsgByID arr msg fresh
              = Return (<[Z.to_nat r := SameIDMsgs.push_msg g0 msg]> arr,
                        Some (SameIDMsgs.push_msg g0 msg))) \/
  ((r = -1 \/ exists g0, arr !! Z.to_nat r = Some g0 /\
                         SameIDMsgs.id g0 <> PendingMessage.id msg) /\
   _insertMsgByID arr msg fresh
   = Return (take k arr ++ created fresh msg :: drop k arr, Some (created fresh msg)))%list.
Proof.
  intros Hr Hrange k. unfold _insertMsgByID. rewrite Hr.
  fold (created fresh msg).
  assert (Hsplice : at_index (splice_in arr (r + 1) (created fresh msg)) (r + 1)
                    = Some (created fresh msg)).
  { apply at_index_Some. split; [lia|]. unfold splice_in.
    apply list_lookup_middle. rewrite length_take. lia. }
  destruct (Z.eqb_spec r (-1)) as [->|Hnot].
  - right. split; [left; reflexivity|]. rewrite Hsplice. reflexivity.
  - destruct (at_index_in_range arr r ltac:(lia)) as [g0 Hg0]. rewrite Hg0.
    apply at_index_Some in Hg0 as [_ Hg0].
    destruct (Z.eqb_spec (SameIDMsgs.id g0) (PendingMessage.id msg)) as [Heq|Hneq].
    + left. exists g0. repeat split; try assumption. do 2 f_equal.
      apply at_index_Some. split; [lia|].
      apply list_lookup_insert_eq. eapply lookup_lt_Some, Hg0.
    + right. split; [right; eauto|]. rewrite Hsplice. reflexivity.
Qed.

(** X3. On an array strictly ascending by [id], whenever the closest-match
    search answers an index, or answers -1 for an ID below every ID of the
    array, [_insertMsgByID] returns a group with the ID of the message that
    holds the message, the array is still strictly ascending, a group that
    had the ID is extended in place (no group is added), and the exact
    search for the ID then finds the returned group. *)
Theorem insertMsgByID_keeps_order (sortedSameIDMsgs : list SameIDMsgs.t)
    (msg : PendingMessage.t) (fresh : nat) :
  strictly_ascending (ids sortedSameIDMsgs) ->
  (findMsgsForID sortedSameIDMsgs (PendingMessage.id msg) true <> Return (-1) \/
   forall g, g ∈ sortedSameIDMsgs -> PendingMessage.id msg < SameIDMsgs.id g) ->
  exists arr g,
    _insertMsgByID sortedSameIDMsgs msg fresh = Return (arr, Some g) /\
    strictly_ascending (ids arr) /\
    SameIDMsgs.id g = PendingMessage.id msg /\ msg ∈ SameIDMsgs.msgs g /\
    (forall j g0, sortedSameIDMsgs !! j = Some g0 ->
                  SameIDMsgs.id g0 = PendingMessage.id msg ->
                  g = SameIDMsgs.push_msg g0 msg /\ arr = <[j := g]> sortedSameIDMsgs) /\
    ((forall g0, g0 ∈ sortedSameIDMsgs -> SameIDMsgs.id g0 <> PendingMessage.id msg) ->
     g = created fresh msg /\ length arr = S (length sortedSameIDMsgs)) /\
    exists i, findMsgsForID arr (PendingMessage.id msg) false = Return i /\
              at_index arr i = Some g.
Proof.
  intros Hs Hok. set (arr0 := sortedSameIDMsgs) in *.
  destruct (findMsgsForID_closest_sound arr0 (PendingMessage.id msg) Hs)
    as (r & Hr & Hres).
  assert (Hrange : -1 <= r < Z.of_nat (length arr0)).
  { destruct Hres as [->|(g & Hg & _)]; [lia|].
    apply at_index_Some in Hg as [? Hg]. apply lookup_lt_Some in Hg. lia. }
  destruct (_insertMsgByID_cases arr0 msg fresh r Hr Hrange)
    as [(g0 & Hg0 & Hnot & Hid & Hins)|[Hwhy Hins]].
  - (* the ID has a group: the message is pushed onto it *)
    set (g := SameIDMsgs.push_msg g0 msg) in *.
    assert (Hids : ids (<[Z.to_nat r := g]> arr0) = ids arr0).
    { unfold ids. rewrite list_fmap_insert. apply list_insert_id.
      rewrite list_lookup_fmap, Hg0. subst g. reflexivity. }
    assert (Hlt : (Z.to_nat r < length arr0)%nat) by (eapply lookup_lt_Some, Hg0).
    exists (<[Z.to_nat r := g]> arr0), g. split; [exact Hins|].
    split; [rewrite Hids; exact Hs|]. split; [exact Hid|].
    split; [subst g; cbn; apply elem_of_app; right; left|].
    split; [|split].
    + intros j g1 Hj Hid1.
      assert (j = Z.to_nat r) as ->.
      { destruct (Nat.lt_trichotomy j (Z.to_nat r)) as [Hc|[->|Hc]]; [|reflexivity|].
        - pose proof (strictly_ascending_lookup _ Hs j (Z.to_nat r)
                        (SameIDMsgs.id g1) (SameIDMsgs.id g0) Hc) as Hlt'.
          rewrite !ids_lookup, Hj, Hg0 in Hlt'.
          specialize (Hlt' eq_refl eq_refl). lia.
        - pose proof (strictly_ascending_lookup _ Hs (Z.to_nat r) j
                        (SameIDMsgs.id g0) (SameIDMsgs.id g1) Hc) as Hlt'.
          rewrite !ids_lookup, Hj, Hg0 in Hlt'.
          specialize (Hlt' eq_refl eq_refl). lia. }
      assert (g1 = g0) as -> by congruence. split; reflexivity.
    + intros Hnone. exfalso. apply (Hnone g0); [|exact Hid].
      eapply list_elem_of_lookup_2, Hg0.
    + exists r. split.
      * replace (PendingMessage.id msg) with (SameIDMsgs.id g) by exact Hid.
        replace r with (Z.of_nat (Z.to_nat r)) at 2 by lia.
        apply findMsgsForID_finds_member; [rewrite Hids; exact Hs|].
        apply list_lookup_insert_eq. exact Hlt.
      * apply at_index_Some. split; [lia|]. apply list_lookup_insert_eq. exact Hlt.
  - (* no group has the ID: a new group is spliced in after index r *)
    cbv zeta in Hins. set (k := Z.to_nat (r + 1)) in *.
    set (c := created fresh msg) in *.
    set (arr := (take k arr0 ++ c :: drop k arr0)%list) in *.
    assert (Hbelow : forall x, x ∈ take k (ids arr0) -> x < PendingMessage.id msg).
    { intros x Hx. apply elem_of_take in Hx as (i & Hi & Hik).
      destruct Hres as [->|(g & Hg & Hle & _)]; [subst k; cbn in Hik; lia|].
      apply at_index_Some in Hg as [Hr0 Hg].
      assert (Hne : SameIDMsgs.id g <> PendingMessage.id msg).
      { destruct Hwhy as [->|(g0 & Hg0 & Hne)]; [lia|]. congruence. }
      assert (Hgi : ids arr0 !! Z.to_nat r = Some (SameIDMsgs.id g)).
      { rewrite ids_lookup, Hg. reflexivity. }
      destruct (decide (i = Z.to_nat r)) as [->|Hir]; [rewrite Hgi in Hi; injection Hi as <-; lia|].
      pose proof (strictly_ascending_lookup _ Hs i (Z.to_nat r) x (SameIDMsgs.id g)
                    ltac:(subst k; lia) Hi Hgi). lia. }
    assert (Habove : forall y, y ∈ drop k (ids arr0) -> PendingMessage.id msg < y).
    { intros y Hy. apply list_elem_of_lookup in Hy as [i Hi]. rewrite lookup_drop in Hi.
      destruct Hres as [->|(g & Hg & Hle & Hnext)].
      - destruct Hok as [Hok|Hok]; [congruence|].
        rewrite ids_lookup in Hi.
        destruct (arr0 !! (k + i)%nat) as [gy|] eqn:Egy; [|discriminate].
        injection Hi as <-. apply Hok. eapply list_elem_of_lookup_2, Egy.
      - rewrite ids_lookup in Hi.
        destruct (arr0 !! (k + i)%nat) as [gy|] eqn:Egy; [|discriminate].
        injection Hi as <-.
        apply at_index_Some in Hg as [Hr0 Hg].
        destruct (lookup_lt_is_Some_2 arr0 k) as [gk Hgk].
        { apply lookup_lt_Some in Egy. lia. }
        assert (Hk : PendingMessage.id msg < SameIDMsgs.id gk).
        { apply Hnext. apply at_index_Some. split; [lia|]. exact Hgk. }
        destruct (decide (i = 0%nat)) as [->|Hi0].
        + rewrite Nat.add_0_r in Egy. congruence.
        + pose proof (strictly_ascending_lookup _ Hs k (k + i)
                        (SameIDMsgs.id gk) (SameIDMsgs.id gy) ltac:(lia)) as Hlt'.
          rewrite !ids_lookup, Hgk, Egy in Hlt'.
          specialize (Hlt' eq_refl eq_refl). lia. }
    assert (Hsorted : strictly_ascending (ids arr)).
    { subst arr.
      replace (take k arr0 ++ c :: drop k arr0)%list
        with (splice_in arr0 (Z.of_nat k) c)
        by (unfold splice_in; rewrite Nat2Z.id; reflexivity).
      rewrite ids_splice_in, Nat2Z.id. apply strictly_ascending_StronglySorted.
      apply StronglySorted_splice;
        [apply strictly_ascending_StronglySorted, Hs|exact Hbelow|exact Habove]. }
    assert (Hk : (k <= length arr0)%nat) by (subst k; lia).
    assert (Hc : arr !! k = Some c).
    { subst arr. apply list_lookup_middle. rewrite length_take. lia. }
    exists arr, c. split; [exact Hins|]. split; [exact Hsorted|].
    split; [reflexivity|]. split; [subst c; cbn; left|].
    split; [|split].
    + intros j g0 Hj Hid. exfalso.
      assert (Hin : SameIDMsgs.id g0 ∈ ids arr0).
      { rewrite ids_fmap. apply list_elem_of_fmap.
        exists g0. split; [reflexivity|]. eapply list_elem_of_lookup_2, Hj. }
      rewrite <- (take_drop k (ids arr0)) in Hin.
      apply elem_of_app in Hin as [Hin|Hin].
      * specialize (Hbelow _ Hin). lia.
      * specialize (Habove _ Hin). lia.
    + intros _. split; [reflexivity|]. subst arr.
      rewrite length_app, length_take. cbn [length]. rewrite length_drop. lia.
    + exists (Z.of_nat k). split.
      * change (PendingMessage.id msg) with (SameIDMsgs.id c).
        apply findMsgsForID_finds_member; assumption.
      * apply at_index_Some. split; [lia|]. rewrite Nat2Z.id. exact Hc.
Qed.

(** X3 on the array 10, 20, 30, 40 and a message 35. *)
Lemma insertMsgByID_keeps_order_witness :
  exists arr g,
    _insertMsgByID Sample.tracked between 4 = Return (arr, Some g) /\
    strictly_ascending (ids arr) /\
    SameIDMsgs.id g = 35 /\ between ∈ SameIDMsgs.msgs g /\
    (forall j g0, Sample.tracked !! j = Some g0 -> SameIDMsgs.id g0 = 35 ->
                  g = SameIDMsgs.push_msg g0 between /\ arr = <[j := g]> Sample.tracked) /\
    ((forall g0, g0 ∈ Sample.tracked -> SameIDMsgs.id g0 <> 35) ->
     g = created 4 between /\ length arr = 5%nat) /\
    exists i, findMsgsForID arr 35 false = Return i /\ at_index arr i = Some g.
Proof.
  apply (insertMsgByID_keeps_order Sample.tracked between 4).
  - cbn. lia.
  - left. vm_compute. discriminate.
Defined.

End InsertOrderFacts.

Section AppendFacts.
Import PendingIndex NewGroup.

(** When every ID of the range is below [id], the closest-match search
    answers the upper bound: it only ever moves right. *)
Lemma _findMsgsForID_closest_all_below (arr : list SameIDMsgs.t) (id : Z) :
  forall (n : nat) (lb ub : Z),
    ub - lb + 1 <= Z.of_nat n -> 0 <= lb <= ub -> ub < Z.of_nat (length arr) ->
    (forall j g, lb <= j <= ub -> at_index arr j = Some g -> SameIDMsgs.id g < id) ->
    _findMsgsForID arr id true lb ub = Return ub.
Proof.
  induction n as [|n IH]; intros lb ub Hn Hlb Hub Hall; [lia|].
  rewrite _findMsgsForID_step. replace (ub <? lb) with false by lia. cbn [andb].
  destruct (Z.eqb_spec lb ub) as [->|Hne].
  - destruct (at_index_in_range arr ub ltac:(lia)) as [v Hv]. rewrite Hv.
    specialize (Hall ub v ltac:(lia) Hv).
    replace (SameIDMsgs.id v <=? id) with true by lia. reflexivity.
  - cbv zeta. set (i := lb + (ub - lb) / 2).
    assert (Hi : lb <= i < ub).
    { subst i. pose proof (Z.div_pos (ub - lb) 2).
      pose proof (Z.div_lt_upper_bound (ub - lb) 2 (ub - lb)). lia. }
    destruct (at_index_in_range arr i ltac:(lia)) as [val Hval]. rewrite Hval.
    pose proof (Hall i val ltac:(lia) Hval).
    replace (SameIDMsgs.id val =? id) with false by lia.
    replace (SameIDMsgs.id val <? id) with true by lia.
    apply IH; [lia|lia|exact Hub|]. intros j g Hj. apply Hall. lia.
Qed.

(** X4. A message whose ID is above every ID of the array (messages that
    arrive in the order of their IDs) gets a new group at the end of the
    array, whatever the array; an array that was strictly ascending stays
    so. *)
Theorem insertMsgByID_appends_newest (sortedSameIDMsgs : list SameIDMsgs.t)
    (msg : PendingMessage.t) (fresh : nat) :
  (forall g, g ∈ sortedSameIDMsgs -> SameIDMsgs.id g < PendingMessage.id msg) ->
  _insertMsgByID sortedSameIDMsgs msg fresh
    = Return ((sortedSameIDMsgs ++ [created fresh msg])%list, Some (created fresh msg)) /\
  (strictly_ascending (ids sortedSameIDMsgs) ->
   strictly_ascending (ids (sortedSameIDMsgs ++ [created fresh msg]))).
Proof.
  intros Hall. pose (arr := sortedSameIDMsgs). fold arr in Hall |- *. split.
  - assert (Hr : findMsgsForID arr (PendingMessage.id msg) true
                 = Return (Z.of_nat (length arr) - 1)).
    { unfold findMsgsForID. destruct (Nat.eq_dec (length arr) 0%nat) as [Hlen|Hlen].
      - rewrite _findMsgsForID_step.
        replace (Z.of_nat (length arr) - 1 <? 0) with true by lia. f_equal. lia.
      - apply (_findMsgsForID_closest_all_below arr _ (length arr)); [lia..|].
        intros j g _ Hg. apply Hall. apply at_index_Some in Hg as [_ Hg].
        eapply list_elem_of_lookup_2, Hg. }
    destruct (_insertMsgByID_cases arr msg fresh _ Hr ltac:(lia))
      as [(g0 & Hg0 & _ & Hid & _)|[_ Hins]].
    + exfalso. assert (Hin : g0 ∈ arr) by (eapply list_elem_of_lookup_2, Hg0).
      specialize (Hall g0 Hin). lia.
    + cbv zeta in Hins. rewrite Hins.
      replace (Z.to_nat (Z.of_nat (length arr) - 1 + 1)) with (length arr) by lia.
      rewrite take_ge, drop_ge by lia. reflexivity.
  - intros Hs. rewrite ids_fmap, fmap_app, <- ids_fmap. cbn [fmap list_fmap].
    apply strictly_ascending_StronglySorted. apply StronglySorted_app_2.
    + intros x1 x2 Hx1 Hx2. apply list_elem_of_singleton in Hx2 as ->.
      rewrite ids_fmap in Hx1. apply list_elem_of_fmap in Hx1 as (g & -> & Hg).
      apply Hall, Hg.
    + apply strictly_ascending_StronglySorted, Hs.
    + apply strictly_ascending_StronglySorted. exact I.
Qed.

(** X4 on the array 10, 20, 30, 40 and a message 50. *)
Lemma insertMsgByID_appends_newest_witness :
  _insertMsgByID Sample.tracked newest 4
    = Return ((Sample.tracked ++ [created 4 newest])%list, Some (created 4 newest)) /\
  (strictly_ascending (ids Sample.tracked) ->
   strictly_ascending (ids (Sample.tracked ++ [created 4 newest]))).
Proof.
  apply (insertMsgByID_appends_newest Sample.tracked newest 4).
  intros g Hg. apply list_elem_of_In in Hg. cbn in Hg.
  destruct Hg as [<-|[<-|[<-|[<-|[]]]]]; cbn; lia.
Defined.

End AppendFacts.

(** ** Receipts: what a full refresh and the observers report *)

Section ReceiptFacts.
Import ChatType ParseReceiptList.

(** The counts of the receipts that the scan reports from [minCountToFind]
    on: none is below [minCountToFind], they grow strictly, and every
    receipt with a successor has a count below [others]. *)
Lemma scan_counts (rctIDs : gmap (option Z) Z) (others : Z) (visited : list ReceiptData.t) :
  forall m,
    Forall (fun r => m <= num (ReceiptData.count r)) (scan rctIDs others m visited) /\
    StronglySorted Z.lt
      (map (fun r => num (ReceiptData.count r)) (scan rctIDs others m visited)) /\
    (forall i r, scan rctIDs others m visited !! i = Some r ->
                 (S i < length (scan rctIDs others m visited))%nat ->
                 num (ReceiptData.count r) < others).
Proof.
  induction visited as [|receipt rest IH]; intros m; cbn [scan].
  - split; [constructor|]. split; [constructor|]. intros i r Hi. discriminate.
  - destruct (is_new rctIDs m receipt) eqn:Enew.
    + unfold is_new in Enew. apply andb_true_iff in Enew as [Hm _].
      apply Z.leb_le in Hm.
      destruct (Z.ltb_spec (num (ReceiptData.count receipt)) others) as [Hlt|Hge].
      * destruct (IH (num (ReceiptData.count receipt) + 1)) as (Hall & Hsorted & Hlast).
        split; [|split].
        -- constructor; [exact Hm|]. eapply Forall_impl; [exact Hall|].
           cbn. intros r Hr. lia.
        -- cbn [map]. apply StronglySorted_cons. split; [|exact Hsorted].
           apply Forall_forall. intros c Hc.
           apply list_elem_of_In, in_map_iff in Hc as (r & <- & Hr).
           apply list_elem_of_In in Hr.
           rewrite Forall_forall in Hall. specialize (Hall r Hr). cbn in Hall. lia.
        -- intros [|i] r Hi Hlen; cbn in Hi.
           ++ injection Hi as <-. exact Hlt.
           ++ apply (Hlast i r Hi). cbn [length] in Hlen. lia.
      * split; [constructor; [exact Hm|constructor]|].
        split; [cbn; repeat constructor|].
        intros [|i] r Hi Hlen; cbn in Hi, Hlen; [lia|discriminate].
    + destruct (ReceiptData.id receipt <=? prevFullyReadID rctIDs others).
      * split; [constructor|]. split; [constructor|]. intros i r Hi. discriminate.
      * apply IH.
Qed.

(** X5. [parseReceiptList] reports each count tier at most once: the
    counts of the returned receipts are numbers (never [null]), at least
    1, strictly increasing along the list, and all but the last returned
    receipt have a count below the number of other participants. *)
Theorem parseReceiptList_one_receipt_per_tier (chatID : string)
    (chatType : ChatTypeEnum) (childElementCount : Z)
    (reads : list ReadElement) (rctIDs : gmap (option Z) Z) :
  getChatType chatID = Return chatType ->
  exists out,
    parseReceiptList chatID childElementCount reads rctIDs = Return out /\
    Forall (fun r => exists c, ReceiptData.count r = Some c /\ 1 <= c) out /\
    PendingIndex.strictly_ascending (map (fun r => num (ReceiptData.count r)) out) /\
    (forall i r, out !! i = Some r -> (S i < length out)%nat ->
                 num (ReceiptData.count r)
                 < numOthers (is_direct chatType) childElementCount).
Proof.
  intros Htype. unfold parseReceiptList. rewrite Htype.
  eexists. split; [reflexivity|]. unfold newReceipts.
  destruct (scan_counts rctIDs (numOthers (is_direct chatType) childElementCount)
              (rev (map (receipt_of (is_direct chatType)) reads)) 1)
    as (Hall & Hsorted & Hlast).
  split; [|split].
  - eapply Forall_impl; [exact Hall|]. cbn. intros r Hr.
    destruct (ReceiptData.count r) as [c|]; cbn in Hr; [eauto|lia].
  - apply strictly_ascending_StronglySorted, Hsorted.
  - exact Hlast.
Qed.

(** X5 on the group chat of [Sample]. *)
Lemma parseReceiptList_one_receipt_per_tier_witness :
  exists out,
    parseReceiptList "c0" 4 [Sample.older; Sample.newer] Sample.rctIDs = Return out /\
    Forall (fun r => exists c, ReceiptData.count r = Some c /\ 1 <= c) out /\
    PendingIndex.strictly_ascending (map (fun r => num (ReceiptData.count r)) out) /\
    (forall i r, out !! i = Some r -> (S i < length out)%nat ->
                 num (ReceiptData.count r) < numOthers false 4).
Proof.
  exact (parseReceiptList_one_receipt_per_tier "c0" GROUP 4
           [Sample.older; Sample.newer] Sample.rctIDs eq_refl).
Defined.

(** X6. In a direct chat [parseReceiptList] looks at the last visible read
    indicator only: it returns the receipt of that message, with count 1,
    when its ID is above the watermark of tier 1, and nothing otherwise. *)
Theorem parseReceiptList_direct_latest (chatID : string) (childElementCount : Z)
    (reads : list ReadElement) (rctIDs : gmap (option Z) Z) :
  getChatType chatID = Return DIRECT ->
  parseReceiptList chatID childElementCount reads rctIDs =
    Return (match last reads with
            | Some e =>
                if watermark rctIDs (Some 1) <? local_id e
                then [{| ReceiptData.id := local_id e; ReceiptData.count := Some 1 |}]
                else []
            | None => []
            end).
Proof.
  intros Htype. unfold parseReceiptList. rewrite Htype. f_equal.
  unfold newReceipts. cbn [is_direct value numOthers Z.eqb Pos.eqb].
  destruct reads as [|e0 reads0] using rev_ind; [reflexivity|].
  rewrite last_snoc, map_app, rev_app_distr. cbn [map rev app scan receipt_of].
  unfold is_new, prevFullyReadID. cbn [ReceiptData.count ReceiptData.id num default].
  destruct (Z.ltb_spec (watermark rctIDs (Some 1)) (local_id e0)) as [Hnew|Hold];
    cbn [andb Z.leb Z.compare Pos.compare Pos.compare_cont Z.ltb].
  - reflexivity.
  - replace (local_id e0 <=? watermark rctIDs (Some 1)) with true by lia. reflexivity.
Qed.

(** X6 on a direct chat with read indicators on 3, 7 and 9. *)
Lemma parseReceiptList_direct_latest_witness :
  parseReceiptList "u0" 2
    [{| local_id := 3; innerText := "Read" |}; {| local_id := 7; innerText := "Read" |};
     {| local_id := 9; innerText := "Read" |}] {[ Some 1 := 5 ]}
  = Return [{| ReceiptData.id := 9; ReceiptData.count := Some 1 |}].
Proof.
  exact (parseReceiptList_direct_latest "u0" 2
           [{| local_id := 3; innerText := "Read" |}; {| local_id := 7; innerText := "Read" |};
            {| local_id := 9; innerText := "Read" |}] {[ Some 1 := 5 ]} eq_refl).
Defined.

End ReceiptFacts.

Section ReceiptObserverFacts.
Import ReceiptObservers.

(** The choice that [_observeReceiptsDirect] makes for one qualifying ID,
    on records whose targets are elements. *)
Lemma direct_loop_ids (mutations : list MutationRecord) :
  Forall (fun change => is_text_record change = false) mutations ->
  forall acc,
    direct_loop acc mutations
    = Return (foldl (fun receipt_id id =>
                       if falsy receipt_id || (default 0 receipt_id <? id)
                       then Some id else receipt_id)
                    acc (direct_ids mutations)).
Proof.
  induction 1 as [|change rest Hchange _ IH]; intros acc; [reflexivity|].
  cbn [direct_loop direct_ids omap list_omap]. fold (direct_ids rest).
  unfold direct_step. rewrite Hchange.
  destruct (is_visible_read (target change)); [|apply IH].
  destruct (closestOwn (target change)); apply IH.
Qed.

(** A record of a text node makes the function throw, wherever it stands
    in the batch: nothing is reported then. *)
Lemma observeReceiptsDirect_text_record_throws (mutations : list MutationRecord) :
  Exists (fun change => is_text_record change = true) mutations ->
  _observeReceiptsDirect mutations = Throw TypeError.
Proof.
  intros Hex. unfold _observeReceiptsDirect.
  assert (Hloop : forall acc, direct_loop acc mutations = Throw TypeError).
  { induction Hex as [change rest Hchange|change rest _ IH]; intros acc;
      cbn [direct_loop]; unfold direct_step.
    - rewrite Hchange. reflexivity.
    - destruct (is_text_record change); [reflexivity|].
      destruct (is_visible_read (target change)); [|apply IH].
      destruct (closestOwn (target change)); apply IH. }
  rewrite Hloop. reflexivity.
Qed.

Lemma direct_pick_max (l : list Z) :
  forall acc : option Z,
    0 ∉ l -> acc <> Some 0 ->
    match foldl (fun receipt_id id =>
                   if falsy receipt_id || (default 0 receipt_id <? id)
                   then Some id else receipt_id) acc l with
    | Some m => m <> 0 /\ (m ∈ l \/ acc = Some m) /\
                (forall x, x ∈ l -> x <= m) /\ (forall a, acc = Some a -> a <= m)
    | None => acc = None /\ l = []
    end.
Proof.
  induction l as [|id rest IH]; intros acc H0 Hacc; cbn [foldl].
  - destruct acc as [a|]; [|split; reflexivity].
    split; [congruence|]. split; [right; reflexivity|].
    split; [intros x Hx; inversion Hx|]. intros a' [= <-]. lia.
  - assert (Hid : id <> 0) by (intros ->; apply H0; left).
    assert (Hrest : 0 ∉ rest) by (intros Hin; apply H0; right; exact Hin).
    set (next := if falsy acc || (default 0 acc <? id) then Some id else acc).
    assert (Hnext : next <> Some 0).
    { subst next. destruct (falsy acc || (default 0 acc <? id)); congruence. }
    specialize (IH next Hrest Hnext).
    destruct (foldl _ next rest) as [m|].
    + destruct IH as (Hm & Hin & Hmax & Hge). split; [exact Hm|].
      assert (Hcase : (next = Some id /\ forall a, acc = Some a -> a <= id) \/
                      (next = acc /\ exists a, acc = Some a /\ id <= a)).
      { subst next. destruct acc as [a|].
        - change (default 0 (Some a)) with a. cbn [falsy].
          destruct (Z.eqb_spec a 0); [congruence|]. cbn [orb].
          destruct (Z.ltb_spec a id).
          + left. split; [reflexivity|]. intros a' [= <-]. lia.
          + right. split; [reflexivity|]. exists a. split; [reflexivity|lia].
        - cbn [falsy orb]. left. split; [reflexivity|]. intros a' [=]. }
      destruct Hcase as [[Hn Hacc_le]|[Hn (a & Ha & Hle)]].
      * specialize (Hge id Hn). split; [|split].
        -- destruct Hin as [Hin|Hin]; [left; right; exact Hin|].
           left. rewrite Hn in Hin. injection Hin as ->. left.
        -- intros x Hx. apply elem_of_cons in Hx as [->|Hx]; [exact Hge|auto].
        -- intros a Ha. specialize (Hacc_le a Ha). lia.
      * rewrite Hn in *. specialize (Hge a Ha). split; [|split].
        -- destruct Hin as [Hin|Hin]; [left; right; exact Hin|right; exact Hin].
        -- intros x Hx. apply elem_of_cons in Hx as [->|Hx]; [lia|auto].
        -- intros a' Ha'. rewrite Ha in Ha'. injection Ha' as <-. exact Hge.
    + destruct IH as [Hn _]. subst next. exfalso.
      destruct acc as [a|]; [|discriminate Hn].
      destruct (falsy (Some a) || (default 0 (Some a) <? id)); discriminate Hn.
Qed.

(** X7. On a batch of records whose targets are elements (the class
    changes that the observer of a direct chat is given), none of a message
    with the ID 0, [_observeReceiptsDirect] does not throw; it reports the
    greatest ID among the own messages whose read indicator the batch
    shows, and reports nothing exactly when the batch shows none. *)
Theorem observeReceiptsDirect_reports_latest (mutations : list MutationRecord) :
  Forall (fun change => is_text_record change = false) mutations ->
  0 ∉ direct_ids mutations ->
  match _observeReceiptsDirect mutations with
  | Return (Some id) =>
      id ∈ direct_ids mutations /\ forall x, x ∈ direct_ids mutations -> x <= id
  | Return None => direct_ids mutations = []
  | Throw _ => False
  end.
Proof.
  intros Helems H0. unfold _observeReceiptsDirect. rewrite (direct_loop_ids _ Helems).
  pose proof (direct_pick_max (direct_ids mutations) None H0 ltac:(discriminate)) as Hmax.
  destruct (foldl _ None (direct_ids mutations)) as [m|]; cbn [falsy].
  - destruct Hmax as (Hm & Hin & Hle & _).
    destruct (Z.eqb_spec m 0); [congruence|].
    split; [|exact Hle]. destruct Hin as [Hin|Hin]; [exact Hin|discriminate].
  - apply Hmax.
Qed.

(** X7 on the class changes of [Sample]: indicators of 7, 3 and 9 are
    shown, and 9 is reported. *)
Lemma observeReceiptsDirect_reports_latest_witness :
  _observeReceiptsDirect Sample.class_changes = Return (Some 9) /\
  match _observeReceiptsDirect Sample.class_changes with
  | Return (Some id) =>
      id ∈ direct_ids Sample.class_changes /\
      forall x, x ∈ direct_ids Sample.class_changes -> x <= id
  | Return None => direct_ids Sample.class_changes = []
  | Throw _ => False
  end.
Proof.
  split; [reflexivity|].
  apply (observeReceiptsDirect_reports_latest Sample.class_changes).
  - repeat constructor.
  - intros Hin. apply list_elem_of_In in Hin. vm_compute in Hin.
    intuition discriminate.
Defined.

(** The batch of [Sample] holds a record of a text node, on which the
    function throws. *)
Lemma observeReceiptsDirect_sample_throws :
  _observeReceiptsDirect Sample.batch = Throw TypeError.
Proof. reflexivity. Qed.

End ReceiptObserverFacts.

Section MultiObserverFacts.
Import ReceiptObservers.

Lemma multi_shown_snoc (mutations : list MutationRecord) (change : MutationRecord) :
  multi_shown (mutations ++ [change])
  = (multi_shown mutations ++ multi_shown [change])%list.
Proof. unfold multi_shown. apply omap_app. Qed.

(** What the loop of [_observeReceiptsMulti] keeps true of [ids] and
    [receipts]. *)
Lemma multi_step_invariant (mutations : list MutationRecord) :
  let acc := foldl multi_step (∅, []) mutations in
  (forall x, x ∈ fst acc <-> x ∈ ReceiptData.id <$> snd acc) /\
  NoDup (ReceiptData.id <$> snd acc) /\
  (forall x, x ∈ ReceiptData.id <$> snd acc
             <-> x ∈ ReceiptData.id <$> multi_shown mutations) /\
  (forall r, r ∈ snd acc ->
             exists pre post, multi_shown mutations = (pre ++ r :: post)%list /\
                              ReceiptData.id r ∉ ReceiptData.id <$> pre) /\
  snd acc `sublist_of` multi_shown mutations.
Proof.
  induction mutations as [|change before IH] using rev_ind.
  - cbn. split; [intros x; split; intros Hx; [set_solver|inversion Hx]|].
    split; [constructor|]. split; [reflexivity|].
    split; [intros r Hr; inversion Hr|constructor].
  - cbn zeta in *. rewrite foldl_app, multi_shown_snoc. cbn [foldl].
    destruct (foldl multi_step (∅, []) before) as [ids receipts].
    cbn [fst snd] in IH. destruct IH as (Hids & Hnodup & Hshown & Hfirst & Hsub).
    unfold multi_step, multi_shown at 2 4 6. cbn [omap list_omap].
    destruct (is_visible_read (multi_target change));
      [|rewrite app_nil_r; cbn [fst snd]; auto].
    destruct (closestOwn (multi_target change)) as [id|];
      [|rewrite app_nil_r; cbn [fst snd]; auto].
    cbn [fmap option_fmap option_map].
    set (r := {| ReceiptData.id := id;
                 ReceiptData.count :=
                   ReceiptCount._getReceiptCount (innerText (multi_target change)) |}).
    destruct (bool_decide_reflect (id ∈ ids)) as [Hin|Hnin]; cbn [fst snd].
    + split; [exact Hids|]. split; [exact Hnodup|]. split; [|split].
      * intros x. rewrite fmap_app, elem_of_app, <- Hshown. split; [auto|].
        intros [Hx|Hx]; [exact Hx|]. cbn in Hx. apply list_elem_of_singleton in Hx.
        subst x. apply Hids. exact Hin.
      * intros r0 Hr0. destruct (Hfirst r0 Hr0) as (pre & post & Heq & Hpre).
        exists pre, (post ++ [r])%list. split; [|exact Hpre].
        rewrite Heq, <- app_assoc. reflexivity.
      * apply sublist_inserts_r. exact Hsub.
    + split; [|split; [|split; [|split]]].
      * intros x. rewrite fmap_app, elem_of_app, elem_of_union, elem_of_singleton.
        cbn. rewrite list_elem_of_singleton, Hids. tauto.
      * rewrite fmap_app. apply NoDup_app. split; [exact Hnodup|].
        split; [|cbn; apply NoDup_singleton].
        intros x Hx Hx'. cbn in Hx'. apply list_elem_of_singleton in Hx'. subst x.
        apply Hnin, Hids, Hx.
      * intros x. rewrite !fmap_app, !elem_of_app, Hshown. reflexivity.
      * intros r0 Hr0. apply elem_of_app in Hr0 as [Hr0|Hr0].
        -- destruct (Hfirst r0 Hr0) as (pre & post & Heq & Hpre).
           exists pre, (post ++ [r])%list. split; [|exact Hpre].
           rewrite Heq, <- app_assoc. reflexivity.
        -- apply list_elem_of_singleton in Hr0. subst r0.
           exists (multi_shown before), []. split; [reflexivity|].
           intros Hx. apply Hnin, Hids, Hshown, Hx.
      * apply sublist_app; [exact Hsub|reflexivity].
Qed.

(** X8. [_observeReceiptsMulti] reports at most one receipt per message: the
    IDs of the receipts it sends are pairwise distinct and are exactly the
    IDs of the own messages whose read indicator the batch shows; each
    receipt is the one of the first record of its message, in the order of the
    batch; nothing is sent exactly when the batch shows no indicator. *)
Theorem observeReceiptsMulti_one_receipt_per_message (mutations : list MutationRecord) :
  match _observeReceiptsMulti mutations with
  | Some receipts =>
      receipts <> [] /\
      NoDup (ReceiptData.id <$> receipts) /\
      (forall x, x ∈ ReceiptData.id <$> receipts
                 <-> x ∈ ReceiptData.id <$> multi_shown mutations) /\
      (forall r, r ∈ receipts ->
                 exists pre post, multi_shown mutations = (pre ++ r :: post)%list /\
                                  ReceiptData.id r ∉ ReceiptData.id <$> pre) /\
      receipts `sublist_of` multi_shown mutations
  | None => multi_shown mutations = []
  end.
Proof.
  pose proof (multi_step_invariant mutations) as Hinv. cbn zeta in Hinv.
  unfold _observeReceiptsMulti. cbn zeta.
  destruct (snd (foldl multi_step (∅, []) mutations)) as [|r receipts].
  - cbn. destruct Hinv as (_ & _ & Hshown & _).
    destruct (multi_shown mutations) as [|s shown]; [reflexivity|].
    exfalso. assert (Hs : ReceiptData.id s ∈ ReceiptData.id <$> (s :: shown)) by (cbn; left).
    apply Hshown in Hs. inversion Hs.
  - replace (0 <? Z.of_nat (length (r :: receipts))) with true
      by (symmetry; apply Z.ltb_lt; cbn [length]; lia).
    split; [discriminate|]. apply Hinv.
Qed.

End MultiObserverFacts.

Section OwnCallFacts.
Import OwnMessage OwnCalls MsgListObserver.

Lemma own_update_refl (c : Fields) (pg : Page) : own_update c pg (c, pg).
Proof. left. cbn. repeat split. Qed.

Lemma settle_calls_with_effect (e : effect) (pg : Page) :
  settle_calls (with_effect e pg)
  = (settle_calls pg ++ match settled_by e with Some p => [p] | None => [] end)%list.
Proof.
  unfold settle_calls, with_effect. cbn [effects]. rewrite omap_app. cbn.
  destruct (settled_by e); reflexivity.
Qed.

Lemma disconnect_calls (o : nat) (pg : Page) :
  promises (disconnect o pg) = promises pg /\
  settle_calls (disconnect o pg) = settle_calls pg.
Proof.
  unfold disconnect. rewrite settle_calls_with_effect. cbn [settled_by].
  rewrite app_nil_r. split; reflexivity.
Qed.

Lemma _promiseOwnMsgReset_calls (c : Fields) (pg : Page) :
  fst (_promiseOwnMsgReset c pg) = cleared c /\
  promises (snd (_promiseOwnMsgReset c pg)) = promises pg /\
  settle_calls (snd (_promiseOwnMsgReset c pg)) = settle_calls pg.
Proof.
  unfold _promiseOwnMsgReset. cbn [fst snd]. split; [reflexivity|].
  destruct (visibleSuccessObserver c) as [so|], (visibleFailureObserver c) as [fo|].
  - destruct (disconnect_calls fo (disconnect so pg)) as [-> ->]. apply disconnect_calls.
  - apply disconnect_calls.
  - apply disconnect_calls.
  - split; reflexivity.
Qed.

Lemma _rejectOwnMessage_update (failureElement : option nat) (c : Fields) (pg : Page) :
  own_update c pg (_rejectOwnMessage failureElement c pg).
Proof.
  unfold _rejectOwnMessage. destruct (promiseOwnMsgReject c) as [p|] eqn:Hrej;
    [|apply own_update_refl].
  destruct (_promiseOwnMsgReset_calls c pg) as (Hc & Hp & Hcalls).
  destruct (_promiseOwnMsgReset c pg) as [c2 pg2]. cbn [fst snd] in *. subst c2.
  right. exists p, (Rejected failureElement), (with_effect (CallReject p failureElement) pg2).
  split; [right; exact Hrej|]. split; [discriminate|]. split; [reflexivity|].
  split; [exact Hp|]. rewrite settle_calls_with_effect, Hcalls. reflexivity.
Qed.

Lemma _resolveOwnMessage_update (msgID : Z) (c : Fields) (pg : Page) :
  own_update c pg (_resolveOwnMessage msgID c pg).
Proof.
  unfold _resolveOwnMessage. destruct (promiseOwnMsgResolve c) as [p|] eqn:Hres;
    [|apply own_update_refl].
  set (pg1 := clearTimeout (promiseOwnMsgTimeoutID c) pg).
  assert (Hpg1 : promises pg1 = promises pg /\ settle_calls pg1 = settle_calls pg).
  { subst pg1. unfold clearTimeout. destruct (promiseOwnMsgTimeoutID c); [|split; reflexivity].
    rewrite settle_calls_with_effect. cbn [settled_by]. rewrite app_nil_r.
    split; reflexivity. }
  destruct Hpg1 as [Hp1 Hcalls1].
  destruct (_promiseOwnMsgReset_calls c pg1) as (Hc & Hp & Hcalls).
  destruct (_promiseOwnMsgReset c pg1) as [c2 pg2]. cbn [fst snd] in *. subst c2.
  right. exists p, (Fulfilled msgID), (with_effect (CallResolve p msgID) pg2).
  split; [left; exact Hres|]. split; [discriminate|]. split; [reflexivity|].
  split; [cbn; congruence|]. rewrite settle_calls_with_effect, Hcalls, Hcalls1. reflexivity.
Qed.

Lemma timer_fires_update (t : nat) (c : Fields) (pg : Page) :
  own_update c pg (timer_fires t c pg).
Proof.
  unfold timer_fires. destruct (timers pg !! t) as [tm|]; [|apply own_update_refl].
  destruct (armed tm && (deadline tm <=? now pg)); [|apply own_update_refl].
  unfold timeout_callback. cbn [promiseOwnMsgReject].
  set (pg1 := {| now := now pg; promises := promises pg;
                 timers := <[t:={| deadline := deadline tm; armed := false |}]> (timers pg);
                 observers := observers pg; effects := effects pg |}).
  destruct (promiseOwnMsgReject c) eqn:Hrej.
  - exact (_rejectOwnMessage_update None c pg1).
  - left. cbn. repeat split.
Qed.

Lemma visible_changes_update (o : nat) (changes : list Indicator.t) (c : Fields) (pg : Page) :
  own_update c pg (visible_changes o changes c pg).
Proof.
  unfold visible_changes. destruct (observers pg !! o) as [ob|]; [|apply own_update_refl].
  destruct (connected ob); [|apply own_update_refl].
  unfold _getOwnVisibleCallback.
  destruct (List.find _ changes); [|apply own_update_refl].
  destruct (match callback_msgID ob with Some n => negb (n =? 0) | None => false end).
  - apply _resolveOwnMessage_update.
  - apply _rejectOwnMessage_update.
Qed.

(** [_observeOwnMessage] only creates observers. *)
Lemma _observeOwnMessage_calls (ownMsg : Element.t) (c : Fields) (pg : Page) :
  let r := _observeOwnMessage ownMsg c pg in
  promiseOwnMsgResolve (fst (fst r)) = promiseOwnMsgResolve c /\
  promiseOwnMsgReject (fst (fst r)) = promiseOwnMsgReject c /\
  ownMsgPromise (fst (fst r)) = ownMsgPromise c /\
  promises (snd (fst r)) = promises pg /\
  settle_calls (snd (fst r)) = settle_calls pg.
Proof.
  unfold _observeOwnMessage.
  destruct (negb (_isWaitingForOwnMessage c)); [cbn; repeat split|].
  destruct (promiseOwnMsgSuccessSelector c ≫= Element.querySelector ownMsg) as [se|];
    [|cbn; repeat split].
  destruct (negb (Indicator.nonDisp se)); [cbn; repeat split|].
  destruct (promiseOwnMsgFailureSelector c) as [sel|];
    cbn [mbind option_bind].
  - destruct (Element.querySelector ownMsg sel) as [fe|]; [|cbn; repeat split].
    destruct (negb (Indicator.nonDisp fe)); cbn; repeat split.
  - cbn. repeat split.
Qed.

Lemma classify_calls (added : list Element.t) :
  forall acc : Fields * Page * Closure * list (Z * nat),
    let r := foldl classify acc added in
    promiseOwnMsgResolve (fst (fst (fst r))) = promiseOwnMsgResolve (fst (fst (fst acc))) /\
    promiseOwnMsgReject (fst (fst (fst r))) = promiseOwnMsgReject (fst (fst (fst acc))) /\
    ownMsgPromise (fst (fst (fst r))) = ownMsgPromise (fst (fst (fst acc))) /\
    promises (snd (fst (fst r))) = promises (snd (fst (fst acc))) /\
    settle_calls (snd (fst (fst r))) = settle_calls (snd (fst (fst acc))).
Proof.
  induction added as [|child rest IH]; intros acc; [cbn; repeat split|].
  cbn [foldl]. cbn zeta in *.
  destruct (IH (classify acc child)) as (H1 & H2 & H3 & H4 & H5).
  rewrite H1, H2, H3, H4, H5. clear.
  destruct acc as [[[c pg] s] remoteMsgs]. unfold classify.
  destruct (negb (is_message_element child s)); [cbn; repeat split|].
  destruct (negb (above _ (minID s))); [cbn; repeat split|].
  pose proof (_observeOwnMessage_calls child c pg) as Hobs. cbn zeta in Hobs.
  destruct (_observeOwnMessage child c pg) as [[c' pg'] ownMsg]. cbn [fst snd] in Hobs.
  destruct ownMsg; cbn [fst snd]; exact Hobs.
Qed.

Lemma settle_lookup (p q : nat) (outcome : own_promise) (pg : Page) :
  promises (settle p outcome pg) !! q
  = if decide (q = p)
    then match promises pg !! p with
         | Some Pending => Some outcome
         | other => other
         end
    else promises pg !! q.
Proof.
  unfold settle. cbn [promises].
  destruct (promises pg !! p) as [[| |]|] eqn:Hp;
    destruct (decide (q = p)) as [->|Hne]; try exact Hp; try reflexivity.
  - apply list_lookup_insert_eq. eapply lookup_lt_Some, Hp.
  - apply list_lookup_insert_ne. congruence.
Qed.

Lemma own_update_ok (c : Fields) (pg : Page) (r : Fields * Page) :
  own_update c pg r -> own_state_ok c pg -> own_state_ok (fst r) (snd r).
Proof.
  intros [(H1 & H2 & H3 & H4 & H5)|(p & outcome & pgm & Hp & Hout & -> & Hprom & Hcalls)]
         (HA & HB & HC & HD & HE).
  - unfold own_state_ok. rewrite H1, H2, H3, H4, H5. auto.
  - assert (Hres : promiseOwnMsgResolve c = Some p) by (destruct Hp; congruence).
    destruct (HB p Hres) as [Hown Hpend]. cbn [fst snd].
    assert (Hnew : p ∉ settle_calls pg).
    { intros Hin. destruct (HE p Hin) as (o & Ho & Hne). congruence. }
    split; [reflexivity|]. split; [intros q [=]|]. split; [|split].
    + intros _. exists outcome. cbn [cleared ownMsgPromise]. rewrite <- Hown.
      rewrite settle_lookup, decide_True by reflexivity.
      rewrite Hprom, Hpend. split; [reflexivity|exact Hout].
    + unfold settle_calls at 1. unfold settle. cbn [effects].
      fold (settle_calls pgm). rewrite Hcalls. apply NoDup_app.
      split; [exact HD|]. split; [|apply NoDup_singleton].
      intros x Hx Hx'. apply list_elem_of_singleton in Hx'. subst x. exact (Hnew Hx).
    + intros q. unfold settle_calls at 1. unfold settle at 1. cbn [effects].
      fold (settle_calls pgm). rewrite Hcalls, elem_of_app, list_elem_of_singleton.
      rewrite settle_lookup, Hprom, Hpend.
      intros [Hq| ->].
      * rewrite decide_False by (intros ->; exact (Hnew Hq)). exact (HE q Hq).
      * rewrite decide_True by reflexivity. exists outcome. split; [reflexivity|exact Hout].
Qed.

Lemma step_own_state_ok (st : Controller) (ev : event) :
  own_state_ok (fields st) (page st) ->
  own_state_ok (fields (step st ev)) (page (step st ev)).
Proof.
  intros Hok. destruct ev as [limit ok ko|ms|t|o changes|added|task d|task d|];
    cbn [step]; try exact Hok.
  - destruct Hok as (HA & HB & HC & HD & HE). cbn [fields page fst snd promiseOwnMessage].
    unfold own_state_ok.
    cbn [promiseOwnMsgResolve promiseOwnMsgReject ownMsgPromise promises].
    split; [reflexivity|]. split; [|split; [|split]].
    + intros p Hp. injection Hp as Hp. subst p. split; [reflexivity|].
      apply list_lookup_middle. reflexivity.
    + intros [=].
    + exact HD.
    + intros q Hq. destruct (HE q Hq) as (o & Ho & Hne). exists o.
      split; [|exact Hne]. rewrite lookup_app_l by (eapply lookup_lt_Some, Ho). exact Ho.
  - unfold after_own. cbn [fields page].
    exact (own_update_ok _ _ _ (timer_fires_update t (fields st) (page st)) Hok).
  - unfold after_own. cbn [fields page].
    exact (own_update_ok _ _ _
             (visible_changes_update o changes (fields st) (page st)) Hok).
  - pose proof (classify_calls added (fields st, page st, closure st, [])) as Hc.
    cbn zeta in Hc. cbn [fst snd] in Hc.
    destruct (foldl classify (fields st, page st, closure st, []) added)
      as [[[c pg] s] remoteMsgs]. cbn [fst snd fields page] in *.
    destruct Hc as (H1 & H2 & H3 & H4 & H5). unfold own_state_ok.
    rewrite H1, H2, H3, H4, H5. exact Hok.
Qed.

(** X9. In every run of a controller, the controller is waiting for an own
    message exactly while the promise of the last [promiseOwnMessage] call
    is pending; the stored resolve and reject functions are those of that
    promise; and the functions of no promise are called twice: every call
    settles a promise that was pending. *)
Theorem own_promise_waiting_invariant (minID : Z) (evs : list event) :
  let st := run (start minID) evs in
  let c := fields st in
  let pg := page st in
  promiseOwnMsgResolve c = promiseOwnMsgReject c /\
  (_isWaitingForOwnMessage c = true <-> promises pg !! ownMsgPromise c = Some Pending) /\
  (forall p, promiseOwnMsgResolve c = Some p -> p = ownMsgPromise c) /\
  NoDup (settle_calls pg) /\
  (forall q, q ∈ settle_calls pg -> exists o, promises pg !! q = Some o /\ o <> Pending).
Proof.
  cbn zeta.
  assert (Hok : own_state_ok (fields (run (start minID) evs)) (page (run (start minID) evs))).
  { unfold run. induction evs as [|ev evs IH] using rev_ind.
    - cbn. unfold own_state_ok. cbn.
      split; [reflexivity|]. split; [intros p [=]|].
      split; [intros _; exists (Fulfilled (-1)); split; [reflexivity|discriminate]|].
      split; [constructor|]. intros q Hq. inversion Hq.
    - rewrite foldl_app. cbn [foldl]. apply step_own_state_ok, IH. }
  destruct Hok as (HA & HB & HC & HD & HE).
  split; [exact HA|]. split; [|split; [|split; [exact HD|exact HE]]].
  - unfold _isWaitingForOwnMessage. rewrite bool_decide_eq_true. split.
    + intros [p Hp]. destruct (HB p Hp) as [-> Hpend]. exact Hpend.
    + intros Hpend. destruct (promiseOwnMsgResolve _) as [p|] eqn:Hres; [eexists; reflexivity|].
      destruct (HC eq_refl) as (o & Ho & Hne). congruence.
  - intros p Hp. apply (HB p Hp).
Qed.

(** A pending promise that the fields do not hold stays pending. *)
Lemma step_keeps_unheld (st : Controller) (ev : event) (p : nat) :
  promises (page st) !! p = Some Pending ->
  promiseOwnMsgResolve (fields st) <> Some p ->
  promiseOwnMsgReject (fields st) <> Some p ->
  promises (page (step st ev)) !! p = Some Pending /\
  promiseOwnMsgResolve (fields (step st ev)) <> Some p /\
  promiseOwnMsgReject (fields (step st ev)) <> Some p.
Proof.
  intros Hpend Hres Hrej.
  assert (Hupd : forall r, own_update (fields st) (page st) r ->
                           promises (snd r) !! p = Some Pending /\
                           promiseOwnMsgResolve (fst r) <> Some p /\
                           promiseOwnMsgReject (fst r) <> Some p).
  { intros r [(H1 & H2 & H3 & H4 & H5)|(q & outcome & pgm & Hq & Hout & -> & Hprom & Hcalls)].
    - rewrite H1, H2, H4. auto.
    - cbn [fst snd cleared promiseOwnMsgResolve promiseOwnMsgReject].
      split; [|split; discriminate].
      rewrite settle_lookup, decide_False by (intros ->; destruct Hq; congruence).
      rewrite Hprom. exact Hpend. }
  destruct ev as [limit ok ko|ms|t|o changes|added|task d|task d|];
    cbn [step]; cbn [fields page]; auto.
  - cbn [promiseOwnMessage fst snd promises promiseOwnMsgResolve promiseOwnMsgReject].
    pose proof (lookup_lt_Some _ _ _ Hpend) as Hlt.
    split; [rewrite lookup_app_l by exact Hlt; exact Hpend|].
    split; intros [= Heq]; subst p; exact (Nat.lt_irrefl _ Hlt).
  - unfold after_own. cbn [fields page]. apply Hupd, timer_fires_update.
  - unfold after_own. cbn [fields page]. apply Hupd, visible_changes_update.
  - pose proof (classify_calls added (fields st, page st, closure st, [])) as Hc.
    cbn zeta in Hc. cbn [fst snd] in Hc.
    destruct (foldl classify (fields st, page st, closure st, []) added)
      as [[[c pg] s] remoteMsgs]. cbn [fst snd fields page] in *.
    destruct Hc as (H1 & H2 & H3 & H4 & H5). rewrite H1, H2, H4. auto.
Qed.

(** X10. A promise that is still pending when [promiseOwnMessage] is called
    again is never settled: the new call replaces the only references to its
    resolve and reject functions, so it stays pending whatever happens
    afterwards (its timer and its observers then act on the new promise). *)
Theorem overwritten_own_promise_never_settles (st : Controller) (limit : Z)
    (successSelector : string) (failureSelector : option string)
    (evs : list event) (p : nat) :
  promises (page st) !! p = Some Pending ->
  promises (page (run st (PromiseOwnMessage limit successSelector failureSelector :: evs))) !! p
  = Some Pending.
Proof.
  intros Hpend. unfold run. cbn [foldl].
  set (st1 := step st (PromiseOwnMessage limit successSelector failureSelector)).
  assert (H1 : promises (page st1) !! p = Some Pending /\
               promiseOwnMsgResolve (fields st1) <> Some p /\
               promiseOwnMsgReject (fields st1) <> Some p).
  { subst st1. cbn [step fields page promiseOwnMessage fst snd promises
                    promiseOwnMsgResolve promiseOwnMsgReject].
    pose proof (lookup_lt_Some _ _ _ Hpend) as Hlt.
    split; [rewrite lookup_app_l by exact Hlt; exact Hpend|].
    split; intros [= Heq]; subst p; exact (Nat.lt_irrefl _ Hlt). }
  clearbody st1. revert st1 H1.
  induction evs as [|ev evs IH]; intros st1 (Hp & Hres & Hrej); [exact Hp|].
  cbn [foldl]. apply IH. apply step_keeps_unheld; assumption.
Qed.

(** X10 on a first send that is still waiting when a second one is armed:
    promise 1 stays pending although both timers fire. *)
Lemma overwritten_own_promise_never_settles_witness :
  promises (page (run first_send (PromiseOwnMessage 10000 "ok" None :: both_timers))) !! 1%nat
  = Some Pending.
Proof.
  apply (overwritten_own_promise_never_settles first_send 10000 "ok" None both_timers 1).
  reflexivity.
Defined.

End OwnCallFacts.

Section InOrderFacts.
Import PendingIndex NewGroup OwnMessage MsgListObserver InOrder.
Variable m0 : Z.

Lemma find_by_oid (l : list SameIDMsgs.t) (g : SameIDMsgs.t) :
  NoDup (SameIDMsgs.oid <$> l) -> g ∈ l ->
  List.find (fun x => Nat.eqb (SameIDMsgs.oid x) (SameIDMsgs.oid g)) l = Some g.
Proof.
  induction l as [|x l IH]; intros Hnd Hg; [inversion Hg|].
  cbn [fmap list_fmap] in Hnd. apply NoDup_cons in Hnd as [Hx Hnd].
  cbn [List.find]. apply elem_of_cons in Hg as [->|Hg].
  - rewrite Nat.eqb_refl. reflexivity.
  - destruct (Nat.eqb_spec (SameIDMsgs.oid x) (SameIDMsgs.oid g)) as [Heq|Hne].
    + exfalso. apply Hx. rewrite Heq. apply list_elem_of_fmap.
      exists g. split; [reflexivity|exact Hg].
    + apply IH; assumption.
Qed.

(** Raising [minID] keeps the invariant. *)
Lemma in_order_raise (m m' : Z) (arr det : list SameIDMsgs.t)
    (conts : list Continuation) (sent : list (option MessageData.t)) :
  m <= m' ->
  in_order_vars m0 (Some m) arr det conts sent ->
  in_order_vars m0 (Some m') arr det conts sent.
Proof.
  intros Hle (HS & (ds & m1 & Hsent & Hmin & Hm0 & Hds & Hd) & HA & HO & HF & HK).
  injection Hmin as <-.
  split; [exact HS|]. split; [|auto].
  exists ds, m'. split; [exact Hsent|]. split; [reflexivity|]. split; [lia|].
  split; [exact Hds|]. eapply Forall_impl; [exact Hd|].
  cbn beta. intros d [H1 H2]. split; [lia|exact H2].
Qed.

Lemma own_reaction_in_order (before : list own_promise) (pg : Page) (s : Closure)
    (reg : nat * nat) :
  in_order m0 s -> in_order m0 (own_reaction before pg s reg).
Proof.
  intros Hs. destruct reg as [p ownMsg]. unfold own_reaction.
  destruct (before !! p) as [[| |]|]; try exact Hs.
  destruct (promises pg !! p) as [[|msgID|]|]; try exact Hs.
  cbn [delete_pending set_pending minID].
  destruct (minID s) as [m|] eqn:Hmin; cbn [above]; [|exact Hs].
  destruct (Z.ltb_spec m msgID); [|exact Hs].
  unfold in_order in *. cbn. rewrite Hmin in Hs.
  apply (in_order_raise m msgID); [lia|exact Hs].
Qed.

Lemma own_reactions_in_order (before : list own_promise) (pg : Page) (s : Closure) :
  in_order m0 s -> in_order m0 (own_reactions before pg s).
Proof.
  unfold own_reactions. generalize (ownThens s). intros regs. revert s.
  induction regs as [|reg regs IH]; intros s Hs; [exact Hs|].
  cbn [foldl]. apply IH, own_reaction_in_order, Hs.
Qed.

(** Sending the record of the first group and removing the group. *)
Lemma in_order_vars_send (minID : option Z) (g : SameIDMsgs.t)
    (rest det : list SameIDMsgs.t) (conts : list Continuation)
    (sent : list (option MessageData.t)) (d : MessageData.t) :
  in_order_vars m0 minID (g :: rest) det conts sent ->
  MessageData.id d = SameIDMsgs.id g ->
  in_order_vars m0 (Some (MessageData.id d)) rest (det ++ [g]) conts (sent ++ [Some d]).
Proof.
  intros (HS & (ds & m & Hsent & Hmin & Hm0 & Hds & Hd) & HA & HO & HF & HK) Hid.
  cbn [ids map] in HS, HA, Hd. apply StronglySorted_inv in HS as [HS Hhead].
  apply Forall_cons in HA as [HAg HA]. apply Forall_cons in HK as [_ HK].
  split; [exact HS|]. split; [|split; [exact HA|split; [|split; [|exact HK]]]].
  - exists (ds ++ [d])%list, (MessageData.id d).
    split; [rewrite Hsent, fmap_app; reflexivity|]. split; [reflexivity|].
    split; [lia|]. split.
    + rewrite fmap_app. apply StronglySorted_app_2.
      * intros x1 x2 Hx1 Hx2. cbn in Hx2. apply list_elem_of_singleton in Hx2 as ->.
        apply list_elem_of_fmap in Hx1 as (d1 & -> & Hd1).
        rewrite Forall_forall in Hd. destruct (Hd d1 Hd1) as [_ Hlt].
        apply Forall_cons in Hlt as [Hlt _]. lia.
      * exact Hds.
      * cbn. repeat constructor.
    + apply Forall_app. split.
      * eapply Forall_impl; [exact Hd|]. cbn beta. intros d1 [H1 H2].
        apply Forall_cons in H2 as [H2 H3]. split; [lia|exact H3].
      * apply Forall_singleton. split; [lia|].
        rewrite Hid. exact Hhead.
  - assert (Hperm : (rest ++ det ++ [g])%list ≡ₚ ((g :: rest) ++ det)%list).
    { rewrite app_assoc. symmetry. apply Permutation_cons_append. }
    rewrite Hperm. exact HO.
  - assert (Hperm : (rest ++ det ++ [g])%list ≡ₚ ((g :: rest) ++ det)%list).
    { rewrite app_assoc. symmetry. apply Permutation_cons_append. }
    rewrite Hperm. rewrite length_app. cbn [length] in *.
    eapply Forall_impl; [exact HF|]. cbn beta. intros o Ho. lia.
Qed.

Lemma handleMessage_in_order (d : MessageData.t) (s : Closure)
    (g : SameIDMsgs.t) (rest : list SameIDMsgs.t) :
  in_order m0 s -> sortedSameIDMsgs s = g :: rest ->
  MessageData.id d = SameIDMsgs.id g ->
  in_order m0 (handleMessage (Some d) s).
Proof.
  intros Hs Harr Hid. unfold in_order in *. rewrite Harr in Hs.
  unfold handleMessage. cbn [set_minID sortedSameIDMsgs]. rewrite Harr.
  cbn. eapply in_order_vars_send; [exact Hs|exact Hid].
Qed.

(** A resolved record that has to wait: its continuation is stored in
    the wrapper of its task. *)
Lemma in_order_vars_wait (minID : option Z) (arr det : list SameIDMsgs.t)
    (conts : list Continuation) (sent : list (option MessageData.t))
    (o element : nat) (d : MessageData.t) :
  in_order_vars m0 minID arr det conts sent ->
  (forall g, List.find (fun g => Nat.eqb (SameIDMsgs.oid g) o) (arr ++ det) = Some g ->
             MessageData.id d = SameIDMsgs.id g) ->
  let upd := map (fun g => if Nat.eqb (SameIDMsgs.oid g) o
                           then SameIDMsgs.set_resolve g (length conts) else g) in
  in_order_vars m0 minID (upd arr) (upd det)
    (conts ++ [{| k_messageElement := element; k_messageData := d; k_woken := false |}])
    sent.
Proof.
  intros (HS & Hsent & HA & HO & HF & HK) Hfind upd.
  assert (Hids : forall l, ids (upd l) = ids l).
  { intros l. unfold ids, upd. rewrite map_map. apply map_ext.
    intros g. destruct (Nat.eqb _ o); reflexivity. }
  assert (Hoids : forall l, SameIDMsgs.oid <$> upd l = SameIDMsgs.oid <$> l).
  { intros l. change (map SameIDMsgs.oid (upd l) = map SameIDMsgs.oid l).
    unfold upd. rewrite map_map. apply map_ext.
    intros g. destruct (Nat.eqb _ o); reflexivity. }
  assert (Hlen : forall l, length (upd l) = length l) by (intros l; apply length_map).
  unfold in_order_vars. rewrite !Hids, !Hlen, fmap_app, !Hoids, <- fmap_app.
  split; [exact HS|]. split; [exact Hsent|]. split; [exact HA|].
  split; [exact HO|]. split; [exact HF|].
  change (upd arr) with ((fun g => if Nat.eqb (SameIDMsgs.oid g) o
                                   then SameIDMsgs.set_resolve g (length conts) else g)
                           <$> arr).
  apply Forall_fmap. rewrite Forall_forall in HK |- *. intros g Hg k. cbn beta.
  destruct (Nat.eqb_spec (SameIDMsgs.oid g) o) as [Ho|Ho].
  - cbn [SameIDMsgs.set_resolve SameIDMsgs.resolve SameIDMsgs.id]. intros [= <-].
    eexists. split; [apply list_lookup_middle; reflexivity|].
    cbn [k_messageData]. apply Hfind. subst o. apply find_by_oid; [exact HO|].
    apply elem_of_app. left. exact Hg.
  - intros Hk. destruct (HK g Hg k Hk) as (c & Hc & Hcid). exists c.
    split; [|exact Hcid]. rewrite lookup_app_l by (eapply lookup_lt_Some, Hc). exact Hc.
Qed.

(** Waking the continuation of the first group. *)
Lemma in_order_vars_wake (minID : option Z) (arr det : list SameIDMsgs.t)
    (conts : list Continuation) (sent : list (option MessageData.t))
    (k : nat) (c : Continuation) :
  in_order_vars m0 minID arr det conts sent -> conts !! k = Some c ->
  in_order_vars m0 minID arr det
    (<[k := {| k_messageElement := k_messageElement c;
               k_messageData := k_messageData c; k_woken := true |}]> conts) sent.
Proof.
  intros (HS & Hsent & HA & HO & HF & HK) Hc.
  split; [exact HS|]. split; [exact Hsent|]. split; [exact HA|].
  split; [exact HO|]. split; [exact HF|].
  eapply Forall_impl; [exact HK|]. cbn beta. intros g Hg k' Hk'.
  destruct (Hg k' Hk') as (c' & Hc' & Hid). destruct (decide (k' = k)) as [->|Hne].
  - eexists. split; [apply list_lookup_insert_eq; eapply lookup_lt_Some, Hc|].
    cbn [k_messageData]. congruence.
  - exists c'. split; [|exact Hid]. rewrite list_lookup_insert_ne by congruence. exact Hc'.
Qed.

(** Tracking a message whose ID has a group. *)
Lemma in_order_vars_push (minID : option Z) (arr det : list SameIDMsgs.t)
    (conts : list Continuation) (sent : list (option MessageData.t))
    (j : nat) (g : SameIDMsgs.t) (msg : PendingMessage.t) :
  in_order_vars m0 minID arr det conts sent -> arr !! j = Some g ->
  in_order_vars m0 minID (<[j := SameIDMsgs.push_msg g msg]> arr) det conts sent.
Proof.
  intros (HS & Hsent & HA & HO & HF & HK) Hj.
  assert (Hids : ids (<[j := SameIDMsgs.push_msg g msg]> arr) = ids arr).
  { unfold ids. rewrite list_fmap_insert. apply list_insert_id.
    rewrite list_lookup_fmap, Hj. reflexivity. }
  assert (Hoids : SameIDMsgs.oid <$> <[j := SameIDMsgs.push_msg g msg]> arr
                  = SameIDMsgs.oid <$> arr).
  { rewrite list_fmap_insert. apply list_insert_id.
    rewrite list_lookup_fmap, Hj. reflexivity. }
  unfold in_order_vars. rewrite Hids, fmap_app, Hoids, <- fmap_app, length_insert.
  split; [exact HS|]. split; [exact Hsent|]. split; [exact HA|].
  split; [exact HO|]. split; [exact HF|].
  apply Forall_insert; [exact HK|].
  rewrite Forall_forall in HK. apply (HK g). eapply list_elem_of_lookup_2, Hj.
Qed.

(** Tracking a message whose ID is above every tracked ID. *)
Lemma in_order_vars_append (m : Z) (arr det : list SameIDMsgs.t)
    (conts : list Continuation) (sent : list (option MessageData.t))
    (msg : PendingMessage.t) :
  in_order_vars m0 (Some m) arr det conts sent ->
  m < PendingMessage.id msg ->
  (forall g, g ∈ arr -> SameIDMsgs.id g < PendingMessage.id msg) ->
  in_order_vars m0 (Some m)
    (arr ++ [created (length arr + length det) msg]) det conts sent.
Proof.
  intros (HS & (ds & m1 & Hsent & Hmin & Hm0 & Hds & Hd) & HA & HO & HF & HK) Hm Hall.
  injection Hmin as <-.
  assert (Hids : ids (arr ++ [created (length arr + length det) msg])
                 = (ids arr ++ [PendingMessage.id msg])%list).
  { rewrite !ids_fmap, fmap_app. reflexivity. }
  assert (Hperm : SameIDMsgs.oid
                    <$> ((arr ++ [created (length arr + length det) msg]) ++ det)%list
                  ≡ₚ (length arr + length det)%nat
                     :: (SameIDMsgs.oid <$> (arr ++ det)%list)).
  { rewrite <- app_assoc. cbn [app]. rewrite !fmap_app. cbn [fmap list_fmap].
    rewrite <- Permutation_middle. reflexivity. }
  unfold in_order_vars. rewrite Hids, Hperm.
  split; [|split; [|split; [|split; [|split]]]].
  - apply StronglySorted_app_2; [|exact HS|repeat constructor].
    intros x1 x2 Hx1 Hx2. apply list_elem_of_singleton in Hx2 as ->.
    rewrite ids_fmap in Hx1. apply list_elem_of_fmap in Hx1 as (g & -> & Hg).
    apply Hall, Hg.
  - exists ds, m. split; [exact Hsent|]. split; [reflexivity|]. split; [exact Hm0|].
    split; [exact Hds|]. eapply Forall_impl; [exact Hd|]. cbn beta.
    intros d [H1 H2]. split; [exact H1|]. apply Forall_app. split; [exact H2|].
    apply Forall_singleton. lia.
  - apply Forall_app. split; [exact HA|]. apply Forall_singleton. lia.
  - apply NoDup_cons. split; [|exact HO].
    intros Hin. rewrite Forall_forall in HF. specialize (HF _ Hin). lia.
  - rewrite length_app. cbn [length]. apply Forall_cons. split; [lia|].
    eapply Forall_impl; [exact HF|]. cbn beta. intros o Ho. lia.
  - apply Forall_app. split; [exact HK|]. apply Forall_singleton.
    cbn [created SameIDMsgs.resolve]. intros k [=].
Qed.

Lemma _insertMsgByID_above_all (arr : list SameIDMsgs.t) (msg : PendingMessage.t)
    (fresh : nat) :
  (forall g, g ∈ arr -> SameIDMsgs.id g < PendingMessage.id msg) ->
  _insertMsgByID arr msg fresh
  = Return ((arr ++ [created fresh msg])%list, Some (created fresh msg)).
Proof.
  intros Hall.
  assert (Hr : findMsgsForID arr (PendingMessage.id msg) true
               = Return (Z.of_nat (length arr) - 1)).
  { unfold findMsgsForID. destruct (Nat.eq_dec (length arr) 0%nat) as [Hlen|Hlen].
    - rewrite _findMsgsForID_step.
      replace (Z.of_nat (length arr) - 1 <? 0) with true by lia. f_equal. lia.
    - apply (_findMsgsForID_closest_all_below arr _ (length arr)); [lia..|].
      intros j g _ Hg. apply Hall. apply at_index_Some in Hg as [_ Hg].
      eapply list_elem_of_lookup_2, Hg. }
  destruct (_insertMsgByID_cases arr msg fresh _ Hr ltac:(lia))
    as [(g0 & Hg0 & _ & Hid & _)|[_ Hins]].
  - exfalso. assert (Hin : g0 ∈ arr) by (eapply list_elem_of_lookup_2, Hg0).
    specialize (Hall g0 Hin). lia.
  - cbv zeta in Hins. rewrite Hins.
    replace (Z.to_nat (Z.of_nat (length arr) - 1 + 1)) with (length arr) by lia.
    rewrite take_ge, drop_ge by lia. reflexivity.
Qed.

Lemma last_is_greatest (arr : list SameIDMsgs.t) (gl g : SameIDMsgs.t) :
  StronglySorted Z.lt (ids arr) -> last arr = Some gl -> g ∈ arr ->
  SameIDMsgs.id g <= SameIDMsgs.id gl.
Proof.
  intros HS Hlast Hg. apply last_Some in Hlast as [init ->].
  rewrite ids_fmap, fmap_app in HS. apply elem_of_app in Hg as [Hg|Hg].
  - assert (Hlt : SameIDMsgs.id g < SameIDMsgs.id gl); [|lia].
    induction init as [|x init IH]; [inversion Hg|].
    cbn in HS. apply StronglySorted_inv in HS as [HS Hx].
    apply elem_of_cons in Hg as [->|Hg]; [|exact (IH HS Hg)].
    rewrite Forall_forall in Hx. apply Hx. apply elem_of_app. right.
    cbn. left.
  - apply list_elem_of_singleton in Hg as ->. lia.
Qed.

Lemma ascending_from_weaken (l : list Z) (lo lo' : option Z) :
  (forall b, lo = Some b -> exists b', lo' = Some b' /\ b <= b') ->
  ascending_from lo' l = true -> ascending_from lo l = true.
Proof.
  destruct l as [|x rest]; [reflexivity|]. cbn [ascending_from].
  intros Hlo Hasc. apply andb_true_iff in Hasc as [Hx Hrest].
  apply andb_true_iff. split; [|exact Hrest].
  destruct lo as [b|]; [|reflexivity].
  destruct (Hlo b eq_refl) as (b' & -> & Hle). lia.
Qed.

(** The second loop of the observer callback keeps the invariant when the
    remote messages arrive in the order of their IDs. *)
Lemma track_in_order (remoteMsgs : list (Z * nat)) :
  forall s : Closure,
    in_order m0 s ->
    (forall msg, msg ∈ remoteMsgs -> above (fst msg) (minID s) = true) ->
    ascending_from (SameIDMsgs.id <$> last (sortedSameIDMsgs s)) (map fst remoteMsgs) = true ->
    in_order m0 (track remoteMsgs s).
Proof.
  induction remoteMsgs as [|[msgID element] rest IH]; intros s Hs Habove Hasc; [exact Hs|].
  cbn [map fst ascending_from] in Hasc. apply andb_true_iff in Hasc as [Hlo Hasc].
  cbn [track].
  set (msg := {| PendingMessage.id := msgID; PendingMessage.promise := length (tasks s) |}).
  set (fresh := (length (sortedSameIDMsgs s) + length (detached s))%nat).
  pose proof Hs as (HS & (ds & m & Hsent & Hmin & Hrest) & _).
  assert (Hm : m < msgID).
  { specialize (Habove (msgID, element) ltac:(left)). cbn [fst] in Habove.
    rewrite Hmin in Habove. cbn [above] in Habove. lia. }
  assert (Hle : forall g, g ∈ sortedSameIDMsgs s -> SameIDMsgs.id g <= msgID).
  { intros g Hg. destruct (last (sortedSameIDMsgs s)) as [gl|] eqn:Hlast.
    - pose proof (last_is_greatest _ gl g HS Hlast Hg). cbn in Hlo. lia.
    - apply last_None in Hlast. rewrite Hlast in Hg. inversion Hg. }
  assert (Hnext : forall msg', msg' ∈ rest -> above (fst msg') (minID s) = true).
  { intros msg' Hin. apply Habove. right. exact Hin. }
  destruct (decide (msgID ∈ ids (sortedSameIDMsgs s))) as [Hin|Hnin].
  - rewrite ids_fmap in Hin. apply list_elem_of_fmap in Hin as (g & Hid & Hg).
    apply list_elem_of_lookup_1 in Hg as [j Hj].
    destruct (_insertMsgByID_present (sortedSameIDMsgs s) msg fresh j g
                ltac:(apply strictly_ascending_StronglySorted; exact HS) Hj
                ltac:(symmetry; exact Hid)) as [Hins Hids].
    rewrite Hins. apply IH.
    + unfold in_order. cbn. apply in_order_vars_push; [exact Hs|exact Hj].
    + exact Hnext.
    + cbn [set_tasks set_wrappers sortedSameIDMsgs].
      eapply ascending_from_weaken; [|exact Hasc].
      intros b Hb. exists msgID. split; [reflexivity|].
      destruct (last (<[j:=SameIDMsgs.push_msg g msg]> (sortedSameIDMsgs s)))
        as [gl|] eqn:Hlast; [|discriminate].
      cbn in Hb. injection Hb as <-. apply last_Some in Hlast as [init Hinit].
      assert (Hgl : SameIDMsgs.id gl
                    ∈ ids (<[j:=SameIDMsgs.push_msg g msg]> (sortedSameIDMsgs s))).
      { rewrite Hinit, ids_fmap. apply list_elem_of_fmap. exists gl.
        split; [reflexivity|]. apply elem_of_app. right. left. }
      rewrite Hids, ids_fmap in Hgl. apply list_elem_of_fmap in Hgl as (g0 & -> & Hg0).
      apply Hle, Hg0.
  - assert (Hall : forall g, g ∈ sortedSameIDMsgs s -> SameIDMsgs.id g < PendingMessage.id msg).
    { intros g Hg. specialize (Hle g Hg). cbn [msg PendingMessage.id].
      assert (SameIDMsgs.id g <> msgID); [|lia].
      intros Heq. apply Hnin. rewrite ids_fmap. apply list_elem_of_fmap.
      exists g. split; [symmetry; exact Heq|exact Hg]. }
    rewrite (_insertMsgByID_above_all _ msg fresh Hall). apply IH.
    + unfold in_order in *. cbn. rewrite Hmin in *.
      apply in_order_vars_append; [exact Hs|exact Hm|exact Hall].
    + exact Hnext.
    + cbn [set_tasks set_wrappers sortedSameIDMsgs]. rewrite last_snoc. exact Hasc.
Qed.

(** The first loop of the observer callback leaves the index, the
    continuations, the sent records and [minID] alone, and every remote
    message it collects has an ID above [minID]. *)
Lemma classify_closure (added : list Element.t) :
  forall acc : Fields * Page * Closure * list (Z * nat),
    let r := foldl classify acc added in
    let s := snd (fst acc) in
    let s' := snd (fst r) in
    minID s' = minID s /\ sortedSameIDMsgs s' = sortedSameIDMsgs s /\
    detached s' = detached s /\ continuations s' = continuations s /\
    sent s' = sent s /\
    (forall msg, msg ∈ snd r -> msg ∈ snd acc \/ above (fst msg) (minID s) = true).
Proof.
  induction added as [|child rest IH]; intros acc; [cbn; auto 10|].
  cbn [foldl]. cbn zeta in *.
  destruct (IH (classify acc child)) as (H1 & H2 & H3 & H4 & H5 & Hrem).
  assert (Hone : minID (snd (fst (classify acc child))) = minID (snd (fst acc)) /\
                 sortedSameIDMsgs (snd (fst (classify acc child)))
                 = sortedSameIDMsgs (snd (fst acc)) /\
                 detached (snd (fst (classify acc child))) = detached (snd (fst acc)) /\
                 continuations (snd (fst (classify acc child)))
                 = continuations (snd (fst acc)) /\
                 sent (snd (fst (classify acc child))) = sent (snd (fst acc)) /\
                 (forall msg, msg ∈ snd (classify acc child) ->
                              msg ∈ snd acc \/ above (fst msg) (minID (snd (fst acc))) = true)).
  { clear. destruct acc as [[[c pg] s] remoteMsgs]. unfold classify. cbn [fst snd].
    destruct (negb (is_message_element child s)); [cbn; auto 10|].
    destruct (above _ (minID s)) eqn:Habove; cbn [negb]; [|cbn; auto 10].
    destruct (_observeOwnMessage child c pg) as [[c' pg'] ownMsg].
    destruct ownMsg; cbn [fst snd]; [cbn; auto 10|].
    cbn. repeat (split; [reflexivity|]).
    intros msg Hin. apply elem_of_app in Hin as [Hin|Hin]; [left; exact Hin|].
    apply list_elem_of_singleton in Hin as ->. right. exact Habove. }
  destruct Hone as (G1 & G2 & G3 & G4 & G5 & Gone).
  rewrite H1, H2, H3, H4, H5, G1, G2, G3, G4, G5. repeat (split; [reflexivity|]).
  intros msg Hin. destruct (Hrem msg Hin) as [Hold|Hab].
  - apply Gone, Hold.
  - right. rewrite <- G1. exact Hab.
Qed.

(** Every event of an orderly run keeps the invariant. *)
Lemma step_in_order (st : Controller) (ev : event) :
  in_order m0 (closure st) -> event_ok st ev = true ->
  in_order m0 (closure (step st ev)).
Proof.
  intros Hs Hok.
  destruct ev as [limit ok ko|ms|t|o changes|added|task d|task d|]; cbn [step closure].
  - exact Hs.
  - exact Hs.
  - unfold after_own. cbn [closure]. apply own_reactions_in_order, Hs.
  - unfold after_own. cbn [closure]. apply own_reactions_in_order, Hs.
  - cbn [event_ok] in Hok. unfold remote_of in Hok.
    pose proof (classify_closure added (fields st, page st, closure st, [])) as Hc.
    cbn zeta in Hc. cbn [fst snd] in Hc.
    destruct (foldl classify (fields st, page st, closure st, []) added)
      as [[[c pg] s] remoteMsgs]. cbn [fst snd closure] in *.
    destruct Hc as (H1 & H2 & H3 & H4 & H5 & Hrem).
    apply track_in_order.
    + unfold in_order. rewrite H1, H2, H3, H4, H5. exact Hs.
    + intros msg Hin. destruct (Hrem msg Hin) as [Hnil|Hab]; [inversion Hnil|].
      rewrite H1. exact Hab.
    + rewrite H2. exact Hok.
  - cbn [event_ok] in Hok. unfold parse_matches in Hok. unfold on_fulfilled.
    destruct (tasks (closure st) !! task) as [t|] eqn:Ht; [|exact Hs].
    destruct (settled t); [exact Hs|].
    cbn [settle_task set_tasks sortedSameIDMsgs]. unfold findMsgsForID.
    destruct (_findMsgsForID_any_range (sortedSameIDMsgs (closure st))
                (MessageData.id d) false (length (sortedSameIDMsgs (closure st)))
                0 (Z.of_nat (length (sortedSameIDMsgs (closure st))) - 1)
                ltac:(lia) ltac:(lia) ltac:(lia) ltac:(intros; lia))
      as (r & Hr & Hres).
    rewrite Hr. destruct (Z.eqb_spec r (-1)) as [Hr1|Hr1]; [exact Hs|].
    destruct Hres as [Hres|(Hrange & g & Hg & Hid)]; [contradiction|].
    destruct (Z.eqb_spec r 0) as [Hr0|Hr0]; cbn [negb].
    + subst r. apply at_index_Some in Hg as [_ Hg]. cbn in Hg.
      destruct (sortedSameIDMsgs (closure st)) as [|g' rest] eqn:Harr; [discriminate|].
      injection Hg as ->.
      apply (handleMessage_in_order d _ g rest); [|exact Harr|symmetry; exact Hid].
      exact Hs.
    + unfold in_order. cbn.
      apply in_order_vars_wait; [exact Hs|].
      intros g' Hfind. unfold deref in Hok. rewrite Hfind in Hok. lia.
  - discriminate Hok.
  - unfold receive_messages_returned.
    destruct (unacknowledged (closure st)) as [|n]; [exact Hs|].
    cbn [set_sent sortedSameIDMsgs continuations].
    destruct (sortedSameIDMsgs (closure st)) as [|g rest] eqn:Harr; [exact Hs|].
    destruct (SameIDMsgs.resolve g) as [k|] eqn:Hk; [|exact Hs].
    destruct (continuations (closure st) !! k) as [c|] eqn:Hc; [|exact Hs].
    destruct (k_woken c); [exact Hs|].
    apply (handleMessage_in_order _ _ g rest).
    + unfold in_order. cbn. apply in_order_vars_wake; [exact Hs|exact Hc].
    + exact Harr.
    + destruct Hs as (_ & _ & _ & _ & _ & HK). rewrite Harr in HK.
      apply Forall_cons in HK as [HK _]. destruct (HK k Hk) as (c' & Hc' & Hid).
      cbn [k_messageData]. congruence.
Qed.

Lemma run_in_order (evs : list event) :
  forall st : Controller,
    in_order m0 (closure st) -> orderly st evs = true ->
    in_order m0 (closure (run st evs)).
Proof.
  induction evs as [|ev evs IH]; intros st Hs Hok; [exact Hs|].
  cbn [orderly] in Hok. apply andb_true_iff in Hok as [Hev Hrest].
  unfold run. cbn [foldl]. apply IH; [|exact Hrest]. apply step_in_order; assumption.
Qed.

(** X11. In a run in which the remote messages arrive in the order of
    their IDs (a message may have several elements) and no parse rejects,
    every call of [__mautrixReceiveMessages] passes a parsed record, the IDs
    of the records are strictly ascending in call order and above the
    [minID] the observer was started with, and the index stays strictly
    ascending.  Own messages, timers and backend returns may occur at any
    point of the run. *)
Theorem orderly_run_sends_in_order (evs : list event) :
  orderly (start m0) evs = true ->
  let s := closure (run (start m0) evs) in
  exists ds,
    sent s = Some <$> ds /\
    StronglySorted Z.lt (MessageData.id <$> ds) /\
    Forall (fun d => m0 < MessageData.id d) ds /\
    strictly_ascending (ids (sortedSameIDMsgs s)).
Proof.
  intros Hok s.
  assert (Hs : in_order m0 s).
  { subst s. apply run_in_order; [|exact Hok].
    unfold in_order, start, addMsgListObserver. cbn.
    split; [constructor|]. split; [|repeat split; constructor].
    exists [], m0. repeat split; try constructor. lia. }
  destruct Hs as (HS & (ds & m & Hsent & _ & _ & Hds & Hd) & _).
  exists ds. split; [exact Hsent|]. split; [exact Hds|].
  split; [|apply strictly_ascending_StronglySorted; exact HS].
  eapply Forall_impl; [exact Hd|]. cbn beta. intros d [H1 _]. lia.
Qed.

End InOrderFacts.

Section InOrderSample.
Import PendingIndex MsgListObserver InOrder.

(** X11 on the run of [Sample.later_resolves_first]: 10 resolves before 9
    and is sent after it. *)
Lemma orderly_run_sends_in_order_witness :
  let s := closure (run (start 0) Sample.later_resolves_first) in
  exists ds,
    sent s = Some <$> ds /\
    StronglySorted Z.lt (MessageData.id <$> ds) /\
    Forall (fun d => 0 < MessageData.id d) ds /\
    strictly_ascending (ids (sortedSameIDMsgs s)).
Proof.
  apply (orderly_run_sends_in_order 0 Sample.later_resolves_first).
  vm_compute. reflexivity.
Defined.

End InOrderSample.

Section StabilityFacts.
Import MessageListStability.
Variable t0 : Z.

Lemma stable_ok_start : stable_ok t0 (waitForMessageListStability t0).
Proof.
  unfold stable_ok, waitForMessageListStability, startTimer. cbn.
  split; [lia|]. split; [constructor|]. left.
  split; [reflexivity|]. split; [reflexivity|].
  eexists 0%nat, _. cbn. split; [reflexivity|]. split; [reflexivity|].
  split; [reflexivity|]. split; [cbn; lia|]. split; [constructor|].
  intros t tm Ht _. destruct t; [reflexivity|discriminate].
Qed.

Lemma step_stable_ok (st : State) (ev : event) :
  stable_ok t0 st -> stable_ok t0 (step st ev).
Proof.
  intros (Hnow & Hobs & Hphase).
  destruct ev as [ms| |i]; cbn [step].
  - pose proof (Z.le_max_l 0 ms) as Hms. split; [cbn; lia|]. split.
    + cbn. eapply Forall_impl; [exact Hobs|]. cbn beta. intros x Hx. lia.
    + destruct Hphase as [(Hc & Hr & t & tm & Hid & Ht & Ha & Hd & Hq & Hrest)|Hdone].
      * left. split; [exact Hc|]. split; [exact Hr|]. exists t, tm. cbn.
        pose proof (Z.le_max_l 0 ms).
        repeat split; try assumption; lia.
      * right. exact Hdone.
  - destruct Hphase as [(Hc & Hr & t & tm & Hid & Ht & Ha & Hd & Hq & Hrest)|Hdone].
    + rewrite Hc. unfold on_changes, startTimer, clearTimeout. cbn. rewrite Hid.
      split; [exact Hnow|]. split.
      * apply Forall_app. split; [exact Hobs|]. apply Forall_singleton. cbn. lia.
      * left. split; [exact Hc|]. split; [exact Hr|].
        eexists _, _. cbn. split; [reflexivity|].
        split; [apply list_lookup_middle; reflexivity|].
        cbn. split; [reflexivity|]. split; [unfold delayMillis in *; lia|]. split.
        -- apply Forall_app. split; [|apply Forall_singleton; (unfold delayMillis in *; lia)].
           eapply Forall_impl; [exact Hobs|]. cbn beta. intros x Hx. (unfold delayMillis in *; lia).
        -- intros j tj Hj Haj. rewrite length_alter.
           destruct (decide (j < length (timers st))%nat) as [Hlt|Hge].
           ++ exfalso. rewrite lookup_app_l in Hj by (rewrite length_alter; exact Hlt).
              destruct (decide (j = t)) as [->|Hne].
              ** rewrite list_lookup_alter_eq, Ht in Hj. cbn in Hj.
                 injection Hj as <-. discriminate.
              ** rewrite list_lookup_alter_ne in Hj by congruence.
                 specialize (Hrest j tj Hj Haj). congruence.
           ++ apply lookup_lt_Some in Hj. rewrite length_app, length_alter in Hj.
              cbn in Hj. f_equal. (unfold delayMillis in *; lia).
    + destruct Hdone as (Hc & Hrest). rewrite Hc.
      split; [exact Hnow|]. split; [exact Hobs|]. right. split; assumption.
  - destruct (timers st !! i) as [ti|] eqn:Hi;
      [|split; [exact Hnow|split; [exact Hobs|exact Hphase]]].
    destruct (OwnMessage.armed ti) eqn:Hai; cbn [andb];
      [|split; [exact Hnow|split; [exact Hobs|exact Hphase]]].
    destruct (Z.leb_spec (OwnMessage.deadline ti) (now st)) as [Hdue|Hnot];
      [|split; [exact Hnow|split; [exact Hobs|exact Hphase]]].
    destruct Hphase as [(Hc & Hr & t & tm & Hid & Ht & Ha & Hd & Hq & Hrest)|Hdone].
    + pose proof (Hrest i ti Hi Hai) as Heq.
      assert (i = t) as -> by congruence. assert (ti = tm) as -> by congruence.
      unfold onTimeout. cbn. split; [exact Hnow|]. split; [exact Hobs|]. right.
      split; [reflexivity|]. cbn. split.
      * intros j tj Hj Haj. exfalso. destruct (decide (j = t)) as [->|Hne].
        -- rewrite list_lookup_insert_eq in Hj by (eapply lookup_lt_Some, Ht).
           injection Hj as <-. discriminate.
        -- rewrite list_lookup_insert_ne in Hj by congruence.
           specialize (Hrest j tj Hj Haj). congruence.
      * exists (now st). rewrite Hr. split; [reflexivity|]. split; [(unfold delayMillis in *; lia)|].
        eapply Forall_impl; [exact Hq|]. cbn beta. intros x Hx. (unfold delayMillis in *; lia).
    + exfalso. destruct Hdone as (_ & Hrest & _). specialize (Hrest i ti Hi Hai).
      discriminate.
Qed.

Lemma run_stable_ok (evs : list event) :
  stable_ok t0 (run (waitForMessageListStability t0) evs).
Proof.
  unfold run. induction evs as [|ev evs IH] using rev_ind; [apply stable_ok_start|].
  rewrite foldl_app. cbn [foldl]. apply step_stable_ok, IH.
Qed.

(** X13. [waitForMessageListStability] resolves its promise at most once,
    and only after a quiet period: at least [delayMillis] (500 ms) after
    the call and after every change of the message area that its observer
    saw; once it has resolved, the observer is disconnected.  Until then a
    timer is pending, and it resolves the promise as soon as [delayMillis]
    pass without a change. *)
Theorem stability_resolves_after_quiet_period (evs : list event) :
  let st := run (waitForMessageListStability t0) evs in
  (length (resolved st) <= 1)%nat /\
  (forall T, T ∈ resolved st ->
     connected st = false /\ t0 + delayMillis <= T /\
     forall x, x ∈ observed st -> x + delayMillis <= T) /\
  (resolved st = [] ->
   exists t, timeoutID st = Some t /\
     forall ms, delayMillis <= ms ->
       resolved (run st [Elapse ms; TimerFires t]) = [now st + ms]).
Proof.
  cbn zeta. destruct (run_stable_ok evs) as (Hnow & Hobs & Hphase).
  set (st := run (waitForMessageListStability t0) evs) in *.
  destruct Hphase as [(Hc & Hr & t & tm & Hid & Ht & Ha & Hd & Hq & Hrest)|
                      (Hc & Hrest & T & Hr & HT & Hq)].
  - rewrite Hr. split; [cbn; lia|]. split; [intros T HT; inversion HT|].
    intros _. exists t. split; [exact Hid|]. intros ms Hms.
    assert (Hmax : Z.max 0 ms = ms) by (apply Z.max_r; unfold delayMillis in Hms; lia).
    unfold run. cbn [foldl step now timers]. rewrite Ht, Ha, Hmax. cbn [andb].
    replace (OwnMessage.deadline tm <=? now st + ms) with true
      by (unfold delayMillis in *; lia).
    unfold onTimeout. cbn. rewrite Hr. reflexivity.
  - rewrite Hr. split; [cbn; lia|]. split; [|discriminate].
    intros T' HT'. apply list_elem_of_singleton in HT' as ->.
    split; [exact Hc|]. split; [exact HT|]. rewrite Forall_forall in Hq. exact Hq.
Qed.

(** The run of [sample], for a call at time 0: the first timer is cleared
    by the change at 200 ms and does not fire; the promise resolves at
    1100 ms, 500 ms after the last change; the change after that is not
    observed. *)
Lemma stability_sample :
  let st := run (waitForMessageListStability 0) sample in
  observed st = [200; 600] /\ resolved st = [1100] /\ connected st = false.
Proof. vm_compute. repeat split. Qed.

End StabilityFacts.

Section ChatListFacts.
Import ChatList.
Variable parseInt : string -> option Z.

(** The loop, from any point: it either adds the chats of all the records
    it considers, or stops at the first record whose node is not parsed. *)
Lemma collect_spec (mutations : list MutationRecord) :
  forall changedChats : list ChatListInfo,
    let qs := filter (fun c => considered c = true) mutations in
    match collect parseInt mutations changedChats with
    | inr chats =>
        exists new, chats = (changedChats ++ new)%list /\
                    Forall2 (fun c chat => parsed parseInt c = inr (Some chat)) qs new
    | inl e =>
        exists pre c post,
          qs = (pre ++ c :: post)%list /\
          Forall (fun c => exists chat, parsed parseInt c = inr (Some chat)) pre /\
          ((parsed parseInt c = inr None /\ e = ReferenceError "node") \/
           parsed parseInt c = inl e)
    end.
Proof.
  induction mutations as [|change rest IH]; intros changedChats; cbn zeta.
  - cbn. exists []. rewrite app_nil_r. split; [reflexivity|constructor].
  - destruct (considered change) eqn:Hcons.
    + rewrite filter_cons_True by exact Hcons.
      unfold considered in Hcons. apply andb_true_iff in Hcons as [Hcons Hsel].
      apply andb_true_iff in Hcons as [Hcons Hlen].
      apply andb_true_iff in Hcons as [Hid Hli].
      apply negb_true_iff in Hid, Hsel.
      cbn [collect]. rewrite Hid, Hli, Hlen, Hsel. cbn [andb].
      fold (parsed parseInt change).
      destruct (addedNodes change) as [|node0 others] eqn:Hadded; [discriminate|].
      assert (Hparsed : parsed parseInt change = parseChatListItem parseInt node0 None)
        by (unfold parsed; rewrite Hadded; reflexivity).
      rewrite <- Hparsed.
      destruct (parsed parseInt change) as [e|[chat|]] eqn:Hp.
      * exists [], change, (filter (fun c => considered c = true) rest).
        split; [reflexivity|]. split; [constructor|]. right. exact Hp.
      * specialize (IH (changedChats ++ [chat])%list). cbn zeta in IH.
        destruct (collect parseInt rest (changedChats ++ [chat])) as [e|chats].
        -- destruct IH as (pre & c & post & Hqs & Hpre & Hc).
           exists (change :: pre), c, post. split; [rewrite Hqs; reflexivity|].
           split; [|exact Hc]. constructor; [exists chat; exact Hp|exact Hpre].
        -- destruct IH as (new & -> & Hnew). exists (chat :: new).
           split; [rewrite <- app_assoc; reflexivity|]. constructor; assumption.
      * exists [], change, (filter (fun c => considered c = true) rest).
        split; [reflexivity|]. split; [constructor|]. left. split; [exact Hp|reflexivity].
    + rewrite filter_cons_False by (rewrite Hcons; discriminate).
      assert (Hskip : collect parseInt (change :: rest) changedChats
                      = collect parseInt rest changedChats).
      { unfold considered in Hcons. cbn [collect].
        destruct (String.eqb (target_id change) "_chat_list_body"); [reflexivity|].
        destruct (String.eqb (target_tagName change) "LI"); [|reflexivity].
        destruct (Z.of_nat (length (addedNodes change)) =? 1); [|reflexivity].
        cbn [andb negb] in *. apply negb_false_iff in Hcons. rewrite Hcons. reflexivity. }
      rewrite Hskip. apply IH.
Qed.

(** X14. [_observeChatListMutations] dispatches all or nothing: when the
    node added by every record it considers (one node added to an [LI] that
    is not the selected chat) parses as a chat list item, the chats are
    passed to [__mautrixReceiveChanges] in the order of the batch, one per
    record (no call for none); otherwise it throws at the first record whose
    node does not parse, and nothing is dispatched, not even the chats
    collected before it.  A node without the class [chatList] makes it throw
    a [ReferenceError]: the branch that logs it names the undeclared
    variable [node]. *)
Theorem observeChatListMutations_all_or_nothing (mutations : list MutationRecord) :
  let qs := filter (fun c => considered c = true) mutations in
  match _observeChatListMutations parseInt mutations with
  | inr dispatched =>
      exists chats,
        Forall2 (fun c chat => parsed parseInt c = inr (Some chat)) qs chats /\
        dispatched = match chats with [] => None | _ :: _ => Some chats end
  | inl e =>
      exists pre c post,
        qs = (pre ++ c :: post)%list /\
        Forall (fun c => exists chat, parsed parseInt c = inr (Some chat)) pre /\
        ((parsed parseInt c = inr None /\ e = ReferenceError "node") \/
         parsed parseInt c = inl e)
  end.
Proof.
  cbn zeta. unfold _observeChatListMutations.
  pose proof (collect_spec mutations []) as Hspec. cbn zeta in Hspec.
  destruct (collect parseInt mutations []) as [e|chats]; [exact Hspec|].
  destruct Hspec as (new & -> & Hnew). cbn [app]. exists new. split; [exact Hnew|].
  destruct new; reflexivity.
Qed.

(** A node that is not a chat list item, between two that are: nothing is
    dispatched. *)
Lemma observeChatListMutations_sample :
  _observeChatListMutations parseInt
    [under_li (item "u1"); under_li spacer; under_li (item "u2")]
  = inl (ReferenceError "node").
Proof. reflexivity. Qed.

End ChatListFacts.

Section ClientFacts.
Import Client.

Lemma countdown_S (n : nat) :
  countdown (S n) = (countdown n ++ [- Z.of_nat (S n)])%list.
Proof. unfold countdown. rewrite seq_S, map_app. reflexivity. Qed.

Lemma client_session :
  let st := run (new None) session in
  written st = [Response 1; Notification (-1) Message; Response 5; ErrorResponse 2;
                Quit (-2) None; Response 6] /\
  maxCommandID st = 6 /\ stopped st = true.
Proof. vm_compute. repeat split. Qed.

Lemma countdown_elem (n : nat) (x : Z) :
  x ∈ countdown n <-> exists k, (k < n)%nat /\ x = - Z.of_nat (S k).
Proof.
  unfold countdown. rewrite list_elem_of_In, in_map_iff. split.
  - intros (k & <- & Hk). apply in_seq in Hk. exists k. split; [lia|reflexivity].
  - intros (k & Hk & ->). exists k. split; [reflexivity|]. apply in_seq. lia.
Qed.

Lemma countdown_NoDup (n : nat) : NoDup (countdown n).
Proof.
  induction n as [|n IH]; [constructor|].
  rewrite countdown_S. apply NoDup_app. split; [exact IH|]. split; [|apply NoDup_singleton].
  intros x Hx Hx'. apply list_elem_of_singleton in Hx'. subst x.
  apply countdown_elem in Hx as (k & Hk & Heq). lia.
Qed.

(** Writing a notification (or [quit]) with [--this.notificationID]. *)
Lemma notify_ok (st : State) (f : Frame) (b : bool) :
  client_ok st ->
  (exists e, f = Quit (notificationID st - 1) e) \/
  (exists w, f = Notification (notificationID st - 1) w) ->
  client_ok {| stopped := b; userID := userID st;
               notificationID := notificationID st - 1;
               maxCommandID := maxCommandID st;
               written := written st ++ [f]; handling := handling st |}.
Proof.
  intros (Hmax & Hnot & Hneg & Hnd & Hpos & Huid) Hf.
  assert (Hn : notification_ids {| stopped := b; userID := userID st;
                 notificationID := notificationID st - 1;
                 maxCommandID := maxCommandID st;
                 written := written st ++ [f]; handling := handling st |}
               = (notification_ids st ++ [notificationID st - 1])%list).
  { unfold notification_ids. cbn [written]. rewrite omap_app.
    destruct Hf as [[e ->]|[w ->]]; reflexivity. }
  assert (Hr : response_ids {| stopped := b; userID := userID st;
                 notificationID := notificationID st - 1;
                 maxCommandID := maxCommandID st;
                 written := written st ++ [f]; handling := handling st |}
               = response_ids st).
  { unfold response_ids. cbn [written]. rewrite omap_app.
    destruct Hf as [[e ->]|[w ->]]; cbn; apply app_nil_r. }
  unfold client_ok. rewrite Hn, Hr. cbn [maxCommandID notificationID handling userID].
  split; [exact Hmax|]. split; [|split; [lia|auto]].
  replace (Z.to_nat (- (notificationID st - 1)))
    with (S (Z.to_nat (- notificationID st))) by lia.
  rewrite countdown_S, Hnot. f_equal. f_equal. lia.
Qed.

Lemma stop_ok (error : option string) (st : State) :
  client_ok st -> client_ok (stop error st).
Proof.
  intros Hok. unfold stop. destruct (stopped st); [exact Hok|].
  apply notify_ok; [exact Hok|]. left. eexists. reflexivity.
Qed.

(** Calling the handler of an accepted request. *)
Lemma accept_ok (st : State) (i : Z) (uid : string) (b : bool) :
  client_ok st -> maxCommandID st < i ->
  client_ok {| stopped := b; userID := Some uid; notificationID := notificationID st;
               maxCommandID := i; written := written st;
               handling := handling st ++ [i] |}.
Proof.
  intros (Hmax & Hnot & Hneg & Hnd & Hpos & Huid) Hi.
  unfold client_ok, notification_ids, response_ids in *.
  cbn [maxCommandID notificationID handling userID written].
  split; [lia|]. split; [exact Hnot|]. split; [exact Hneg|].
  rewrite app_assoc. split; [|split; [|discriminate]].
  - apply NoDup_app. split; [exact Hnd|]. split; [|apply NoDup_singleton].
    intros x Hx Hx'. apply list_elem_of_singleton in Hx'. subst x.
    rewrite Forall_forall in Hpos. specialize (Hpos i Hx). lia.
  - apply Forall_app. split; [|apply Forall_singleton; lia].
    eapply Forall_impl; [exact Hpos|]. cbn beta. intros x Hx. lia.
Qed.

(** Raising [maxCommandID] without calling a handler. *)
Lemma raise_ok (st : State) (i : Z) :
  client_ok st -> maxCommandID st < i ->
  client_ok {| stopped := stopped st; userID := userID st;
               notificationID := notificationID st; maxCommandID := i;
               written := written st; handling := handling st |}.
Proof.
  intros (Hmax & Hnot & Hneg & Hnd & Hpos & Huid) Hi.
  unfold client_ok, notification_ids, response_ids in *.
  cbn [maxCommandID notificationID handling userID written].
  split; [lia|]. split; [exact Hnot|]. split; [exact Hneg|]. split; [exact Hnd|].
  split; [|exact Huid]. eapply Forall_impl; [exact Hpos|]. cbn beta. intros x Hx. lia.
Qed.

Lemma handleLine_ok (line : Line) (st : State) :
  client_ok st -> client_ok (fst (handleLine line st)).
Proof.
  intros Hok. unfold handleLine. destruct (stopped st) eqn:Hstopped; [exact Hok|].
  destruct line as [| | |req]; try exact Hok.
  destruct (command req) as [cmd|]; [|exact Hok].
  destruct (id req) as [i|]; [|exact Hok].
  destruct (Z.eqb_spec i 0); [exact Hok|].
  destruct (Z.leb_spec i (maxCommandID st)) as [Hold|Hnew]; [exact Hok|].
  cbv zeta. cbn [userID stopped notificationID maxCommandID written handling].
  destruct (userID st) as [uid|] eqn:Huid.
  - cbn [fst]. destruct (String.eqb cmd "disconnect").
    + apply stop_ok. rewrite <- Hstopped. apply accept_ok; assumption.
    + rewrite <- Hstopped. apply accept_ok; assumption.
  - destruct (negb (String.eqb cmd "register")); cbn [fst].
    + apply stop_ok. rewrite <- Huid. apply raise_ok; assumption.
    + destruct (user_id req) as [uid|]; cbn [fst].
      * rewrite <- Hstopped. apply accept_ok; assumption.
      * apply stop_ok. rewrite <- Huid. apply raise_ok; assumption.
Qed.

Lemma respond_ok (i : Z) (ok : bool) (st : State) :
  client_ok st -> client_ok (respond i ok st).
Proof.
  intros Hok. unfold respond.
  destruct (bool_decide_reflect (i ∈ handling st)) as [Hin|Hnin]; [|exact Hok].
  destruct Hok as (Hmax & Hnot & Hneg & Hnd & Hpos & Huid).
  assert (Hn : forall l : list Frame, omap (fun f => match f with
                                        | Quit j _ => Some j
                                        | Notification j _ => Some j
                                        | _ => None
                                        end)
                           (l ++ [if ok then Response i else ErrorResponse i])%list
                         = omap (fun f => match f with
                                          | Quit j _ => Some j
                                          | Notification j _ => Some j
                                          | _ => None
                                          end) l).
  { intros l. rewrite omap_app. destruct ok; cbn; apply app_nil_r. }
  assert (Hr : forall l : list Frame, omap (fun f => match f with
                                        | Response j => Some j
                                        | ErrorResponse j => Some j
                                        | _ => None
                                        end)
                           (l ++ [if ok then Response i else ErrorResponse i])%list
                         = (omap (fun f => match f with
                                           | Response j => Some j
                                           | ErrorResponse j => Some j
                                           | _ => None
                                           end) l ++ [i])%list).
  { intros l. rewrite omap_app. destruct ok; reflexivity. }
  unfold client_ok, notification_ids, response_ids in *.
  cbn [maxCommandID notificationID handling userID written]. rewrite Hn, Hr.
  split; [exact Hmax|]. split; [exact Hnot|]. split; [exact Hneg|].
  apply NoDup_app in Hnd as (Hnd1 & Hdisj & Hnd2).
  split; [|split].
  - apply NoDup_app. split; [|split].
    + apply NoDup_app. split; [exact Hnd1|]. split; [|apply NoDup_singleton].
      intros x Hx Hx'. apply list_elem_of_singleton in Hx'. subst x.
      exact (Hdisj i Hx Hin).
    + intros x Hx Hx'. apply list_elem_of_filter in Hx' as [Hne Hx'].
      apply elem_of_app in Hx as [Hx|Hx]; [exact (Hdisj x Hx Hx')|].
      apply list_elem_of_singleton in Hx. congruence.
    + apply NoDup_filter, Hnd2.
  - rewrite Forall_forall in Hpos |- *. intros x Hx. apply Hpos.
    apply elem_of_app in Hx as [Hx|Hx].
    + apply elem_of_app in Hx as [Hx|Hx]; [apply elem_of_app; left; exact Hx|].
      apply list_elem_of_singleton in Hx. subst x. apply elem_of_app. right. exact Hin.
    + apply list_elem_of_filter in Hx as [_ Hx]. apply elem_of_app. right. exact Hx.
  - intros Hnone. destruct (Huid Hnone) as [_ Hh]. rewrite Hh in Hin. inversion Hin.
Qed.

Lemma step_client_ok (st : State) (ev : event) :
  client_ok st -> client_ok (step st ev).
Proof.
  intros Hok. destruct ev as [line|i ok|what| |error|]; cbn [step].
  - apply handleLine_ok, Hok.
  - apply respond_ok, Hok.
  - unfold send. apply notify_ok; [exact Hok|]. right. eexists. reflexivity.
  - destruct (userID st); [exact Hok|]. destruct (stopped st); [exact Hok|].
    apply stop_ok, Hok.
  - apply stop_ok, Hok.
  - exact Hok.
Qed.

Lemma run_client_ok (userID : option string) (evs : list event) :
  client_ok (run (new userID) evs).
Proof.
  unfold run. induction evs as [|ev evs IH] using rev_ind.
  - cbn. unfold client_ok. cbn. repeat split; try constructor; lia.
  - rewrite foldl_app. cbn [foldl]. apply step_client_ok, IH.
Qed.

(** Frames whose notification IDs are distinct and negative and whose
    response IDs are distinct and positive have distinct IDs. *)
Lemma frame_ids_NoDup (l : list Frame) :
  NoDup (omap (fun f => match f with
                        | Quit i _ => Some i
                        | Notification i _ => Some i
                        | _ => None
                        end) l) ->
  NoDup (omap (fun f => match f with
                        | Response i => Some i
                        | ErrorResponse i => Some i
                        | _ => None
                        end) l) ->
  Forall (fun i => i < 0)
    (omap (fun f => match f with
                    | Quit i _ => Some i
                    | Notification i _ => Some i
                    | _ => None
                    end) l) ->
  Forall (fun i => 0 < i)
    (omap (fun f => match f with
                    | Response i => Some i
                    | ErrorResponse i => Some i
                    | _ => None
                    end) l) ->
  NoDup (frame_id <$> l).
Proof.
  induction l as [|f l IH]; intros Hn Hr Hneg Hpos; [constructor|].
  cbn [fmap list_fmap]. 
  assert (Hin : forall i, i ∈ frame_id <$> l ->
                  i ∈ omap (fun f => match f with
                                     | Quit i _ => Some i
                                     | Notification i _ => Some i
                                     | _ => None
                                     end) l \/
                  i ∈ omap (fun f => match f with
                                     | Response i => Some i
                                     | ErrorResponse i => Some i
                                     | _ => None
                                     end) l).
  { intros i Hi. apply list_elem_of_fmap in Hi as (g & -> & Hg).
    destruct g; [left|left|right|right]; apply list_elem_of_omap; eexists;
      (split; [exact Hg|reflexivity]). }
  destruct f as [i e|i w|i|i]; cbn [omap list_omap frame_id] in *.
  - apply NoDup_cons in Hn as [Hi Hn]. apply Forall_cons in Hneg as [Hi0 Hneg].
    apply NoDup_cons. split; [|apply IH; assumption].
    intros Hmem. destruct (Hin i Hmem) as [H|H]; [exact (Hi H)|].
    rewrite Forall_forall in Hpos. specialize (Hpos i H). lia.
  - apply NoDup_cons in Hn as [Hi Hn]. apply Forall_cons in Hneg as [Hi0 Hneg].
    apply NoDup_cons. split; [|apply IH; assumption].
    intros Hmem. destruct (Hin i Hmem) as [H|H]; [exact (Hi H)|].
    rewrite Forall_forall in Hpos. specialize (Hpos i H). lia.
  - apply NoDup_cons in Hr as [Hi Hr]. apply Forall_cons in Hpos as [Hi0 Hpos].
    apply NoDup_cons. split; [|apply IH; assumption].
    intros Hmem. destruct (Hin i Hmem) as [H|H]; [|exact (Hi H)].
    rewrite Forall_forall in Hneg. specialize (Hneg i H). lia.
  - apply NoDup_cons in Hr as [Hi Hr]. apply Forall_cons in Hpos as [Hi0 Hpos].
    apply NoDup_cons. split; [|apply IH; assumption].
    intros Hmem. destruct (Hin i Hmem) as [H|H]; [|exact (Hi H)].
    rewrite Forall_forall in Hneg. specialize (Hneg i H). lia.
Qed.

(** X15. Whatever lines arrive and whatever else happens to a client, the
    frames it writes carry pairwise distinct IDs: the notifications
    ([quit] included) are numbered -1, -2, -3, ... in write order, and each
    response carries the ID of a request whose handler was called, a
    positive number that no other response carries, because [handleLine]
    only accepts IDs above [maxCommandID].  As long as no user ID is
    registered, no handler has been called. *)
Theorem client_frame_ids_distinct (userID0 : option string) (evs : list event) :
  let st := run (new userID0) evs in
  notification_ids st = countdown (Z.to_nat (- notificationID st)) /\
  NoDup (response_ids st) /\
  Forall (fun i => 0 < i <= maxCommandID st) (response_ids st) /\
  NoDup (frame_id <$> written st) /\
  (userID st = None -> response_ids st = [] /\ handling st = []).
Proof.
  cbn zeta. destruct (run_client_ok userID0 evs) as (Hmax & Hnot & Hneg & Hnd & Hpos & Huid).
  set (st := run (new userID0) evs) in *.
  apply NoDup_app in Hnd as (Hnd & _ & _). apply Forall_app in Hpos as [Hpos _].
  split; [exact Hnot|]. split; [exact Hnd|]. split; [exact Hpos|]. split; [|exact Huid].
  apply frame_ids_NoDup.
  - fold (notification_ids st). rewrite Hnot. apply countdown_NoDup.
  - exact Hnd.
  - fold (notification_ids st). rewrite Hnot. apply Forall_forall. intros x Hx.
    apply countdown_elem in Hx as (k & _ & ->). lia.
  - fold (response_ids st). eapply Forall_impl; [exact Hpos|]. cbn beta. intros x Hx. lia.
Qed.

End ClientFacts.

Section MessageListScanFacts.
Import MessageListScan.

(** The loop passes over inert children, collecting them as siblings. *)
Lemma scan_passed_over (minID : Z) (chatType : ChatType.ChatTypeEnum)
    (pre : list Child) :
  forall (rest before : list Child) (refDate : RefDate)
         (ps : list (promise MessageData.t (option MessageData.t))),
    forallb (passed_over minID) pre = true ->
    scan minID chatType (pre ++ rest) before refDate ps
    = scan minID chatType rest (rev pre ++ before) refDate ps.
Proof.
  induction pre as [|c pre IH]; intros rest before refDate ps Hpre; [reflexivity|].
  cbn [forallb] in Hpre. apply andb_true_iff in Hpre as [Hc Hpre].
  cbn [app rev scan]. rewrite <- app_assoc. cbn [app].
  rewrite <- (IH rest (c :: before) refDate ps Hpre).
  unfold passed_over in Hc. destruct (selected minID c); cbn [negb orb] in *; [|reflexivity].
  destruct (Element.contains (classList c) "mdRGT10Date"); [discriminate|].
  destruct (Element.contains (classList c) "MdRGT07Cont"); [discriminate|].
  destruct (Element.contains (classList c) "MdRGT10Notice"); [|reflexivity].
  cbn [negb andb orb] in Hc. destruct (member_event c) as [[m|]|e]; try discriminate.
  reflexivity.
Qed.

(** X16. A full refresh fails when the first record it finds is a member
    event: if, among the elements above [minID], a notice with a member
    event comes before every message and date separator, and some earlier
    element of the list (an already synced message, say) has an ID and a
    time, then [parseMessageList] throws a [TypeError], because
    [this._tryFindNearestRefDate] is not a method of the controller. *)
Theorem parseMessageList_first_member_event_throws (minID : Z) (chatID : string)
    (chatType : ChatType.ChatTypeEnum) (pre post : list Child) (notice : Child)
    (timeElement : RefDate -> completion (option Z)) :
  ChatType.getChatType chatID = Return chatType ->
  forallb (passed_over minID) pre = true ->
  member_notice minID notice = true ->
  List.find timed (rev pre) ≫= time = Some timeElement ->
  parseMessageList minID (Some chatID) (pre ++ notice :: post) = Throw TypeError.
Proof.
  intros Hchat Hpre Hnotice Htimed. unfold parseMessageList.
  unfold member_notice in Hnotice.
  apply andb_true_iff in Hnotice as [Hnotice Hevent].
  apply andb_true_iff in Hnotice as [Hnotice Hno].
  apply andb_true_iff in Hnotice as [Hnotice Hcont].
  apply andb_true_iff in Hnotice as [Hsel Hdate].
  apply negb_true_iff in Hdate, Hcont.
  assert (Hlen : (Z.of_nat (length (List.filter (selected minID) (pre ++ notice :: post)))
                  =? 0) = false).
  { rewrite List.filter_app. cbn [List.filter]. rewrite Hsel, length_app.
    cbn [length]. apply Z.eqb_neq.
    rewrite Nat2Z.inj_add, Nat2Z.inj_succ.
    pose proof (Nat2Z.is_nonneg (length (List.filter (selected minID) pre))).
    pose proof (Nat2Z.is_nonneg (length (List.filter (selected minID) post))).
    lia. }
  rewrite Hlen, Hchat, (scan_passed_over minID chatType pre _ [] RefUndefined [] Hpre).
  rewrite app_nil_r. cbn [scan]. rewrite Hsel, Hdate, Hcont, Hno. cbn [negb].
  destruct (member_event notice) as [[m|]|e]; try discriminate.
  cbn [length Z.of_nat Z.eqb]. rewrite Htimed. reflexivity.
Qed.

(** X16 on a list whose message 5 is already synced ([minID] is 5) and
    whose only new element is the notice 6. *)
Lemma parseMessageList_first_member_event_throws_witness :
  parseMessageList 5 (Some "u123") ([message5] ++ notice6 :: []) = Throw TypeError.
Proof.
  apply (parseMessageList_first_member_event_throws 5 "u123" ChatType.DIRECT
           [message5] [] notice6 (fun _ => Return (Some 1000)));
    reflexivity.
Defined.

End MessageListScanFacts.

Section DeafFacts.
Import OwnMessage MsgListObserver Deaf.

(** With [minID] undefined the first loop of the observer callback passes
    over every node. *)
Lemma classify_deaf (added : list Element.t) :
  forall (c : Fields) (pg : Page) (s : Closure) (remoteMsgs : list (Z * nat)),
    minID s = None -> foldl classify (c, pg, s, remoteMsgs) added = (c, pg, s, remoteMsgs).
Proof.
  induction added as [|child rest IH]; intros c pg s remoteMsgs Hmin; [reflexivity|].
  cbn [foldl].
  assert (Hone : classify (c, pg, s, remoteMsgs) child = (c, pg, s, remoteMsgs)).
  { unfold classify. destruct (negb (is_message_element child s)); [reflexivity|].
    rewrite Hmin. reflexivity. }
  rewrite Hone. apply IH, Hmin.
Qed.

Lemma own_reactions_deaf (before : list own_promise) (pg : Page) (s : Closure) :
  deaf s ->
  let s' := own_reactions before pg s in
  deaf s' /\ sent s' = sent s /\ tasks s' = tasks s /\
  sortedSameIDMsgs s' = sortedSameIDMsgs s.
Proof.
  unfold own_reactions. generalize (ownThens s). intros regs. revert s.
  induction regs as [|reg regs IH]; intros s Hs; cbn zeta; [auto|].
  cbn [foldl].
  assert (Hone : deaf (own_reaction before pg s reg) /\
                 sent (own_reaction before pg s reg) = sent s /\
                 tasks (own_reaction before pg s reg) = tasks s /\
                 sortedSameIDMsgs (own_reaction before pg s reg) = sortedSameIDMsgs s).
  { destruct reg as [p ownMsg]. unfold own_reaction.
    destruct (before !! p) as [[| |]|]; auto.
    destruct (promises pg !! p) as [[|msgID|]|]; auto.
    cbn [delete_pending set_pending minID]. destruct Hs as (Hmin & Ht & Hk).
    rewrite Hmin. cbn [above]. repeat split; assumption. }
  destruct Hone as (Hd & H1 & H2 & H3).
  destruct (IH _ Hd) as (Hd' & H1' & H2' & H3'). cbn zeta in *.
  rewrite H1', H2', H3'. auto.
Qed.

Lemma step_deaf (st : Controller) (ev : event) :
  deaf (closure st) ->
  deaf (closure (step st ev)) /\
  sent (closure (step st ev)) = sent (closure st) /\
  tasks (closure (step st ev)) = tasks (closure st) /\
  sortedSameIDMsgs (closure (step st ev)) = sortedSameIDMsgs (closure st).
Proof.
  intros Hs. pose proof Hs as (Hmin & Ht & Hk).
  destruct ev as [limit ok ko|ms|t|o changes|added|task d|task d|]; cbn [step closure].
  - auto.
  - auto.
  - unfold after_own. cbn [closure]. apply own_reactions_deaf, Hs.
  - unfold after_own. cbn [closure]. apply own_reactions_deaf, Hs.
  - rewrite classify_deaf by exact Hmin. cbn [closure track]. auto.
  - unfold on_fulfilled. destruct (tasks (closure st) !! task) as [t|] eqn:Htask; [|auto].
    rewrite Forall_forall in Ht. rewrite (Ht t) by (eapply list_elem_of_lookup_2, Htask).
    auto.
  - unfold on_rejected. destruct (tasks (closure st) !! task) as [t|] eqn:Htask; [|auto].
    rewrite Forall_forall in Ht. rewrite (Ht t) by (eapply list_elem_of_lookup_2, Htask).
    auto.
  - unfold receive_messages_returned.
    destruct (unacknowledged (closure st)) as [|n]; [auto|].
    cbn [set_sent sortedSameIDMsgs continuations].
    assert (Hsame : deaf (set_sent (sent (closure st)) n (closure st)) /\
                    sent (set_sent (sent (closure st)) n (closure st)) = sent (closure st) /\
                    tasks (set_sent (sent (closure st)) n (closure st)) = tasks (closure st) /\
                    sortedSameIDMsgs (set_sent (sent (closure st)) n (closure st))
                    = sortedSameIDMsgs (closure st)) by (repeat split; assumption).
    destruct (sortedSameIDMsgs (closure st)) as [|g rest]; [exact Hsame|].
    destruct (SameIDMsgs.resolve g) as [k|]; [|exact Hsame].
    destruct (continuations (closure st) !! k) as [c|] eqn:Hc; [|exact Hsame].
    rewrite Forall_forall in Hk. rewrite (Hk c) by (eapply list_elem_of_lookup_2, Hc).
    exact Hsame.
Qed.

(** X17. When [handleMessage] has been called with a rejection reason
    that is not a message record (an exception thrown by [_parseMessage]),
    [minID] is [undefined]; if by then every parse has settled and no
    resolved record is waiting, the observer is deaf for good: whatever
    elements are added and whatever else happens, [minID] stays
    [undefined], no element is tracked and nothing more is sent. *)
Theorem observer_stays_deaf (st : Controller) (evs : list event) :
  deaf (closure st) ->
  let s' := closure (run st evs) in
  minID s' = None /\ sent s' = sent (closure st) /\ tasks s' = tasks (closure st) /\
  sortedSameIDMsgs s' = sortedSameIDMsgs (closure st).
Proof.
  intros Hs. cbn zeta.
  assert (H : deaf (closure (run st evs)) /\
              sent (closure (run st evs)) = sent (closure st) /\
              tasks (closure (run st evs)) = tasks (closure st) /\
              sortedSameIDMsgs (closure (run st evs)) = sortedSameIDMsgs (closure st)).
  { unfold run. revert st Hs. induction evs as [|ev evs IH]; intros st Hs; [auto|].
    cbn [foldl]. destruct (step_deaf st ev Hs) as (Hd & H1 & H2 & H3).
    destruct (IH _ Hd) as (Hd' & H1' & H2' & H3').
    rewrite H1', H2', H3'. auto. }
  destruct H as ((Hmin & _) & H1 & H2 & H3). auto.
Qed.

(** X17 on the run of [exception_thrown] followed by [later]: messages 10
    and 11 are never tracked. *)
Lemma observer_stays_deaf_witness :
  let st := run (start 0) exception_thrown in
  let s' := closure (run st later) in
  minID s' = None /\ sent s' = sent (closure st) /\ tasks s' = tasks (closure st) /\
  sortedSameIDMsgs s' = sortedSameIDMsgs (closure st).
Proof.
  apply (observer_stays_deaf (run (start 0) exception_thrown) later).
  vm_compute. repeat constructor.
Defined.

End DeafFacts.

Section SenderMatchFacts.
Import ReceiptCount SenderMatch.
Variable origin : string.
Variable querySelectorAll : string -> list FriendItem -> completion (list FriendItem).

Lemma fill_keeps (p : Participant) (a : option ChatList.PathImage) (i : option string) :
  keeps p (fill p a i).
Proof.
  unfold keeps, fill. cbn. split; [reflexivity|]. split.
  - intros a' ->. reflexivity.
  - intros ->. reflexivity.
Qed.

Lemma keeps_refl (p : Participant) : keeps p p.
Proof. unfold keeps. auto. Qed.

Lemma keeps_trans (p q r : Participant) : keeps p q -> keeps q r -> keeps p r.
Proof.
  intros (H1 & H2 & H3) (G1 & G2 & G3). unfold keeps.
  split; [congruence|]. split.
  - intros a Ha. apply G2, H2, Ha.
  - intros Hid. rewrite <- (H3 Hid). apply G3. rewrite (H3 Hid). exact Hid.
Qed.

Lemma _updateSenderFromFriendsList_keeps (p p' : Participant) (friends : list FriendItem)
    (found : bool) :
  _updateSenderFromFriendsList querySelectorAll p friends = Return (found, p') ->
  keeps p p' /\ (found = false -> p' = p).
Proof.
  unfold _updateSenderFromFriendsList.
  destruct (select_friends querySelectorAll (name p) friends)
    as [[|first [|second others]]|e]; [| | |discriminate].
  - intros [= <- <-]. split; [apply keeps_refl|auto].
  - intros [= <- <-]. split; [apply fill_keeps|discriminate].
  - destruct (avatar p); [discriminate|]. destruct (truthy (id p)); [discriminate|].
    intros [= <- <-]. split; [apply fill_keeps|discriminate].
Qed.

Lemma _updateSenderFromParticipantList_keeps (p p' : Participant)
    (participantsList : option (list ParticipantItem)) (found : bool) :
  _updateSenderFromParticipantList origin p participantsList = Return (found, p') ->
  keeps p p'.
Proof.
  unfold _updateSenderFromParticipantList.
  destruct participantsList as [items|]; [|discriminate].
  destruct (List.filter _ items) as [|first [|second others]].
  - intros [= <- <-]. apply keeps_refl.
  - intros [= <- <-]. apply fill_keeps.
  - destruct (avatar p) as [a|].
    + destruct (List.filter _ (first :: second :: others)) as [|only [|another more]];
        [| |discriminate]; intros [= <- <-]; apply fill_keeps.
    + intros [= <- <-]. apply fill_keeps.
Qed.

(** X18. [_updateSenderFromMatch] never overwrites what is known of the
    sender: when it returns, the name is unchanged, an avatar that was set
    is unchanged, and so is an ID that was set. *)
Theorem updateSenderFromMatch_keeps_known (p p' : Participant)
    (friends : list FriendItem) (participantsList : option (list ParticipantItem)) :
  _updateSenderFromMatch origin querySelectorAll p friends participantsList = Return p' ->
  keeps p p'.
Proof.
  unfold _updateSenderFromMatch.
  destruct (_updateSenderFromFriendsList querySelectorAll p friends)
    as [[found q]|e] eqn:Hfriends;
    [|discriminate].
  destruct (_updateSenderFromFriendsList_keeps p q friends found Hfriends) as [Hk Hnone].
  destruct found; [intros [= <-]; exact Hk|].
  destruct (_updateSenderFromParticipantList origin q participantsList)
    as [[found' r]|e] eqn:Hparts; [|discriminate].
  intros [= <-]. eapply keeps_trans; [exact Hk|].
  eapply _updateSenderFromParticipantList_keeps, Hparts.
Qed.

(** X19. When the sender's name is one that the selector holds as it is
    (no apostrophe, backslash or line break), two or more friends have that
    name and the sender has an avatar or an ID, [_updateSenderFromMatch]
    throws a [TypeError]: the friends are held in a [NodeList], on which the
    function calls [filter] (with an avatar) or [find] (with an ID). *)
Theorem updateSenderFromMatch_namesakes_throw (p : Participant)
    (friends : list FriendItem) (participantsList : option (list ParticipantItem)) :
  selector_safe (name p) = true ->
  (2 <= length (namesakes (name p) friends))%nat ->
  is_Some (avatar p) \/ truthy (id p) = true ->
  _updateSenderFromMatch origin querySelectorAll p friends participantsList
  = Throw TypeError.
Proof.
  intros Hsafe Hlen Hknown.
  unfold _updateSenderFromMatch, _updateSenderFromFriendsList, select_friends.
  rewrite Hsafe. fold (namesakes (name p) friends).
  destruct (namesakes (name p) friends) as [|first [|second others]];
    [cbn in Hlen; lia|cbn in Hlen; lia|].
  destruct (avatar p) as [a|]; [reflexivity|].
  destruct Hknown as [[a Ha]|Hid]; [discriminate|]. rewrite Hid. reflexivity.
Qed.

(** X20. In the participant list, when two or more participants have the
    sender's name and an avatar equal to the sender's (as comparable URLs),
    [_updateSenderFromParticipantList] throws a [TypeError]: it assigns the
    filtered array to [elements], which is declared with [const]. *)
Theorem updateSenderFromParticipantList_same_avatars_throw (p : Participant)
    (items : list ParticipantItem) (a : ChatList.PathImage) :
  avatar p = Some a ->
  (2 <= length (List.filter (same_avatar origin (_getComparableImageURL origin (ChatList.url a)))
                  (List.filter (fun e => String.eqb (ttl e) (name p)) items)))%nat ->
  _updateSenderFromParticipantList origin p (Some items) = Throw TypeError.
Proof.
  intros Ha Hlen. unfold _updateSenderFromParticipantList. rewrite Ha.
  destruct (List.filter (fun e => String.eqb (ttl e) (name p)) items)
    as [|first [|second others]] eqn:Hnames.
  - cbn in Hlen. lia.
  - cbn [List.filter] in Hlen. destruct (same_avatar _ _ first); cbn in Hlen; lia.
  - destruct (List.filter _ (first :: second :: others)) as [|only [|another more]];
      [cbn in Hlen; lia|cbn in Hlen; lia|reflexivity].
Qed.

Lemma append_String (c : ascii) (a b : string) : String c a ++ b = String c (a ++ b).
Proof. reflexivity. Qed.

Lemma take_digits_all (w s : string) :
  take_digits w = w -> take_digits (w ++ s) = w ++ take_digits s.
Proof.
  induction w as [|c w IH]; [reflexivity|]. rewrite !append_String. cbn [take_digits].
  destruct (is_digit c); [|discriminate]. intros Hw. injection Hw as Hw.
  f_equal. exact (IH Hw).
Qed.

Lemma drop_digits_all (w s : string) :
  take_digits w = w -> drop_digits (w ++ s) = drop_digits s.
Proof.
  induction w as [|c w IH]; [reflexivity|]. rewrite append_String.
  cbn [take_digits drop_digits].
  destruct (is_digit c); [|discriminate]. intros Hw. injection Hw as Hw. exact (IH Hw).
Qed.

Lemma drop_digits_none (s : string) : take_digits s = "" -> drop_digits s = s.
Proof.
  destruct s as [|c s]; [reflexivity|]. cbn [take_digits drop_digits].
  destruct (is_digit c); [discriminate|reflexivity].
Qed.

Lemma replace_dimensions_no_digit (pre s : string) :
  no_digit pre -> replace_dimensions (pre ++ s) = pre ++ replace_dimensions s.
Proof.
  induction pre as [|c pre IH]; [reflexivity|]. rewrite !append_String.
  cbn [no_digit replace_dimensions].
  intros [Hc Hpre]. rewrite Hc, (IH Hpre). reflexivity.
Qed.

(** The first [WxH] of a string is replaced as a whole. *)
Lemma replace_dimensions_first (pre w h post : string) :
  no_digit pre -> take_digits w = w -> w <> "" -> take_digits h = h -> h <> "" ->
  take_digits post = "" ->
  replace_dimensions (pre ++ w ++ "x" ++ h ++ post) = pre ++ "-x-" ++ post.
Proof.
  intros Hpre Hw Hw0 Hh Hh0 Hpost. rewrite (replace_dimensions_no_digit _ _ Hpre). f_equal.
  destruct w as [|c w]; [contradiction|]. cbn [take_digits] in Hw.
  destruct (is_digit c) eqn:Hc; [|discriminate]. injection Hw as Hw.
  rewrite append_String. cbn [replace_dimensions]. rewrite Hc, (drop_digits_all _ _ Hw).
  change ("x" ++ h ++ post) with (String "x" (h ++ post)).
  cbn [drop_digits]. replace (is_digit "x") with false by reflexivity.
  replace (Ascii.eqb "x" "x") with true by reflexivity.
  rewrite (take_digits_all _ _ Hh), Hpost, (drop_digits_all _ _ Hh), (drop_digits_none _ Hpost).
  destruct h as [|d h]; [contradiction|]. reflexivity.
Qed.

(** X21. [_getComparableImageURL] makes two image URLs that are not
    loaded yet and differ only in their dimension values [WxH] equal:
    when no digit precedes the dimensions, both become the URL with [-x-]
    in their place. *)
Theorem getComparableImageURL_ignores_dimensions (pre w h w' h' post : string) :
  no_digit pre ->
  take_digits w = w -> w <> "" -> take_digits h = h -> h <> "" ->
  take_digits w' = w' -> w' <> "" -> take_digits h' = h' -> h' <> "" ->
  take_digits post = "" ->
  _isLoadedImageURL origin (pre ++ w ++ "x" ++ h ++ post) = false ->
  _isLoadedImageURL origin (pre ++ w' ++ "x" ++ h' ++ post) = false ->
  _getComparableImageURL origin (pre ++ w ++ "x" ++ h ++ post) = pre ++ "-x-" ++ post /\
  _getComparableImageURL origin (pre ++ w' ++ "x" ++ h' ++ post)
  = _getComparableImageURL origin (pre ++ w ++ "x" ++ h ++ post).
Proof.
  intros Hpre Hw Hw0 Hh Hh0 Hw' Hw0' Hh' Hh0' Hpost Hl Hl'.
  unfold _getComparableImageURL. rewrite Hl, Hl'.
  rewrite !replace_dimensions_first by assumption. split; reflexivity.
Qed.

End SenderMatchFacts.

Section SenderMatchSamples.
Import SenderMatch.

(** X18 on a sender that matches one friend. *)
Lemma updateSenderFromMatch_keeps_known_witness :
  keeps sender (fill sender None (Some "u1")).
Proof.
  apply (updateSenderFromMatch_keeps_known "chrome-extension://line" rejects_selector
           sender (fill sender None (Some "u1")) [alex "u1"] None).
  reflexivity.
Defined.

(** X19 on the two friends called Alex. *)
Lemma updateSenderFromMatch_namesakes_throw_witness :
  _updateSenderFromMatch "chrome-extension://line" rejects_selector sender
    [alex "u1"; alex "u2"] None = Throw TypeError.
Proof.
  apply (updateSenderFromMatch_namesakes_throw "chrome-extension://line" rejects_selector
           sender [alex "u1"; alex "u2"] None).
  - reflexivity.
  - cbn. lia.
  - left. eexists. reflexivity.
Defined.

(** X20 on two participants called Alex with the avatar of the sender. *)
Lemma updateSenderFromParticipantList_same_avatars_throw_witness :
  _updateSenderFromParticipantList "chrome-extension://line" sender
    (Some [alex_in_chat; alex_in_chat]) = Throw TypeError.
Proof.
  apply (updateSenderFromParticipantList_same_avatars_throw "chrome-extension://line"
           sender [alex_in_chat; alex_in_chat]
           {| ChatList.path := None; ChatList.url := "blob:1" |}).
  - reflexivity.
  - cbn. lia.
Defined.

(** X21 on a preview URL in two sizes. *)
Lemma getComparableImageURL_ignores_dimensions_witness :
  _getComparableImageURL "chrome-extension://line" "https://obs.line/p/100x100/a.jpg"
  = "https://obs.line/p/-x-/a.jpg" /\
  _getComparableImageURL "chrome-extension://line" "https://obs.line/p/48x64/a.jpg"
  = _getComparableImageURL "chrome-extension://line" "https://obs.line/p/100x100/a.jpg".
Proof.
  apply (getComparableImageURL_ignores_dimensions "chrome-extension://line"
           "https://obs.line/p/" "100" "100" "48" "64" "/a.jpg");
    try reflexivity; try discriminate.
  cbn. repeat split; reflexivity.
Defined.

End SenderMatchSamples.

Section DeliveryFacts.
Import PendingIndex NewGroup OwnMessage MsgListObserver InOrder Delivery.
Variable m0 : Z.

Lemma same_core_refl (s : Closure) : same_core s s.
Proof. unfold same_core. auto 10. Qed.

Lemma same_core_trans (s1 s2 s3 : Closure) :
  same_core s1 s2 -> same_core s2 s3 -> same_core s1 s3.
Proof.
  intros (A1 & A2 & A3 & A4 & A5 & A6) (B1 & B2 & B3 & B4 & B5 & B6).
  unfold same_core. repeat split; congruence.
Qed.

Lemma alive_same_core (s s' : Closure) :
  same_core s s' -> in_order m0 s' -> alive m0 s -> alive m0 s'.
Proof.
  intros (H1 & H2 & H3 & H4 & H5 & H6) Hin (_ & L1 & L3 & L2 & L4 & L5).
  unfold alive, awaited, oids in *. rewrite H1, H2, H3, H4, H5, H6.
  split; [exact Hin|]. auto.
Qed.

Lemma own_reactions_same_core (before : list own_promise) (pg : Page) (s : Closure) :
  same_core s (own_reactions before pg s).
Proof.
  unfold own_reactions. generalize (ownThens s). intros regs. revert s.
  induction regs as [|reg regs IH]; intros s; [apply same_core_refl|].
  cbn [foldl]. eapply same_core_trans; [|apply IH].
  destruct reg as [p ownMsg]. unfold own_reaction.
  destruct (before !! p) as [[| |]|]; try apply same_core_refl.
  destruct (promises pg !! p) as [[|msgID|]|]; try apply same_core_refl.
  - destruct (above msgID (minID (delete_pending ownMsg s)));
      unfold same_core; cbn; auto 10.
  - unfold same_core; cbn; auto 10.
Qed.

Lemma classify_same_core (added : list Element.t) :
  forall acc : Fields * Page * Closure * list (Z * nat),
    same_core (snd (fst acc)) (snd (fst (foldl classify acc added))).
Proof.
  induction added as [|child rest IH]; intros acc; [apply same_core_refl|].
  cbn [foldl]. eapply same_core_trans; [|apply IH].
  destruct acc as [[[c pg] s] remoteMsgs]. unfold classify. cbn [fst snd].
  destruct (negb (is_message_element child s)); [apply same_core_refl|].
  destruct (negb (above _ (minID s))); [apply same_core_refl|].
  destruct (_observeOwnMessage child c pg) as [[c' pg'] ownMsg].
  destruct ownMsg; cbn [fst snd]; unfold same_core; cbn; auto 10.
Qed.

Lemma awaited_more_tasks (s s' : Closure) (g : SameIDMsgs.t) (new : list ParseTask) :
  tasks s' = (tasks s ++ new)%list -> awaited s g -> awaited s' g.
Proof.
  intros Htasks (j & t & Hj & Hset & Hoid). exists j, t. rewrite Htasks.
  split; [|auto]. rewrite lookup_app_l by (eapply lookup_lt_Some, Hj). exact Hj.
Qed.

(** Tracking one remote message whose ID is at or above every tracked ID. *)
Lemma insert_alive (s : Closure) (msgID : Z) (element : nat) :
  alive m0 s -> above msgID (minID s) = true ->
  (forall g, g ∈ sortedSameIDMsgs s -> SameIDMsgs.id g <= msgID) ->
  exists arr' g',
    _insertMsgByID (sortedSameIDMsgs s)
      {| PendingMessage.id := msgID; PendingMessage.promise := length (tasks s) |}
      (length (sortedSameIDMsgs s) + length (detached s))
    = Return (arr', Some g') /\
    alive m0 (set_tasks (tasks s ++ [{| messageElement := element;
                                        sameIDMsgs := SameIDMsgs.oid g';
                                        settled := false |}])
                (set_wrappers arr' (detached s) s)) /\
    (forall g, g ∈ arr' -> SameIDMsgs.id g <= msgID) /\
    (exists gl, last arr' = Some gl).
Proof.
  intros (Hin & L1 & L3 & L2 & L4 & L5) Habove Hle.
  set (msg := {| PendingMessage.id := msgID; PendingMessage.promise := length (tasks s) |}).
  set (fresh := (length (sortedSameIDMsgs s) + length (detached s))%nat).
  pose proof Hin as (HS & (ds & m & Hsent & Hmin & Hrest) & _).
  assert (Hm : m < msgID) by (rewrite Hmin in Habove; cbn [above] in Habove; lia).
  destruct (decide (msgID ∈ ids (sortedSameIDMsgs s))) as [Hmem|Hnin].
  - rewrite ids_fmap in Hmem. apply list_elem_of_fmap in Hmem as (g & Hid & Hg).
    pose proof Hg as Hg'. apply list_elem_of_lookup_1 in Hg' as [j Hj].
    destruct (_insertMsgByID_present (sortedSameIDMsgs s) msg fresh j g
                ltac:(apply strictly_ascending_StronglySorted; exact HS) Hj
                ltac:(symmetry; exact Hid)) as [Hins Hids].
    exists (<[j := SameIDMsgs.push_msg g msg]> (sortedSameIDMsgs s)),
           (SameIDMsgs.push_msg g msg).
    split; [exact Hins|]. split; [|split].
    + assert (Hoids : SameIDMsgs.oid <$> <[j := SameIDMsgs.push_msg g msg]> (sortedSameIDMsgs s)
                      = SameIDMsgs.oid <$> sortedSameIDMsgs s).
      { rewrite list_fmap_insert. apply list_insert_id.
        rewrite list_lookup_fmap, Hj. reflexivity. }
      unfold alive, oids. cbn [set_tasks set_wrappers sortedSameIDMsgs detached tasks
                                continuations sent unacknowledged].
      split; [unfold in_order; cbn; apply in_order_vars_push; [exact Hin|exact Hj]|].
      split; [|split; [|split; [|split]]].
      * apply Forall_insert.
        -- eapply Forall_impl; [exact L1|]. cbn beta. intros g0 [Haw|Hres]; [left|right; exact Hres].
           eapply awaited_more_tasks; [|exact Haw]. reflexivity.
        -- left. exists (length (tasks s)), {| messageElement := element;
                                               sameIDMsgs := SameIDMsgs.oid g;
                                               settled := false |}.
           cbn [tasks set_tasks]. split; [apply list_lookup_middle; reflexivity|].
           split; reflexivity.
      * apply Forall_insert; [exact L3|].
        rewrite Forall_forall in L3. exact (L3 g Hg).
      * intros g0 Hg0 Hres. apply list_lookup_insert_Some in Hg0
          as [(Hj0 & Hg0 & Hlt)|(Hne & Hg0)].
        -- subst j g0. apply (L2 g Hj). exact Hres.
        -- apply (L2 g0 Hg0 Hres).
      * exact L4.
      * rewrite fmap_app, Hoids, <- fmap_app. apply Forall_app. split; [exact L5|].
        apply Forall_singleton. cbn [sameIDMsgs SameIDMsgs.push_msg SameIDMsgs.oid].
        apply list_elem_of_fmap. exists g. split; [reflexivity|].
        apply elem_of_app. left. exact Hg.
    + intros g0 Hg0. assert (Hx : SameIDMsgs.id g0
                                  ∈ ids (<[j:=SameIDMsgs.push_msg g msg]> (sortedSameIDMsgs s))).
      { rewrite ids_fmap. apply list_elem_of_fmap. exists g0. split; [reflexivity|exact Hg0]. }
      rewrite Hids, ids_fmap in Hx. apply list_elem_of_fmap in Hx as (g1 & -> & Hg1).
      apply Hle, Hg1.
    + destruct (last (<[j:=SameIDMsgs.push_msg g msg]> (sortedSameIDMsgs s))) as [gl|] eqn:Hl;
        [eexists; reflexivity|].
      apply last_None in Hl. apply (f_equal length) in Hl. rewrite length_insert in Hl.
      apply lookup_lt_Some in Hj. cbn in Hl. lia.
  - assert (Hall : forall g, g ∈ sortedSameIDMsgs s -> SameIDMsgs.id g < PendingMessage.id msg).
    { intros g Hg. specialize (Hle g Hg). cbn [msg PendingMessage.id].
      assert (SameIDMsgs.id g <> msgID); [|lia].
      intros Heq. apply Hnin. rewrite ids_fmap. apply list_elem_of_fmap.
      exists g. split; [symmetry; exact Heq|exact Hg]. }
    exists (sortedSameIDMsgs s ++ [created fresh msg])%list, (created fresh msg).
    split; [apply _insertMsgByID_above_all; exact Hall|]. split; [|split].
    + unfold alive, oids. cbn [set_tasks set_wrappers sortedSameIDMsgs detached tasks
                                continuations sent unacknowledged].
      split; [|split; [|split; [|split; [|split]]]].
      * unfold in_order in *. cbn. rewrite Hmin in *.
        apply in_order_vars_append; [exact Hin|exact Hm|exact Hall].
      * apply Forall_app. split.
        -- eapply Forall_impl; [exact L1|]. cbn beta. intros g0 [Haw|Hres]; [left|right; exact Hres].
           eapply awaited_more_tasks; [|exact Haw]. reflexivity.
        -- apply Forall_singleton. left.
           exists (length (tasks s)), {| messageElement := element;
                                         sameIDMsgs := SameIDMsgs.oid (created fresh msg);
                                         settled := false |}.
           cbn [tasks set_tasks]. split; [apply list_lookup_middle; reflexivity|].
           split; reflexivity.
      * apply Forall_app. split; [exact L3|]. apply Forall_singleton.
        cbn [created SameIDMsgs.resolve]. intros k [=].
      * intros g0 Hg0 Hres. destruct (sortedSameIDMsgs s) as [|g1 rest] eqn:Harr.
        -- cbn in Hg0. injection Hg0 as <-. destruct Hres as [k Hk]. discriminate.
        -- cbn in Hg0. injection Hg0 as <-. apply (L2 g1 eq_refl Hres).
      * exact L4.
      * apply Forall_app. split.
        -- eapply Forall_impl; [exact L5|]. cbn beta. intros t Ht.
           unfold oids in Ht. rewrite !fmap_app, !elem_of_app in *. tauto.
        -- apply Forall_singleton. cbn [sameIDMsgs]. rewrite !fmap_app, !elem_of_app.
           left. right. cbn. left.
    + intros g0 Hg0. apply elem_of_app in Hg0 as [Hg0|Hg0]; [apply Hle, Hg0|].
      apply list_elem_of_singleton in Hg0 as ->. cbn. lia.
    + exists (created fresh msg). apply last_snoc.
Qed.

Lemma ascending_from_head (lo : option Z) (x : Z) (rest : list Z) :
  ascending_from lo (x :: rest) = true ->
  (forall b, lo = Some b -> b <= x) /\ ascending_from (Some x) rest = true.
Proof.
  cbn [ascending_from]. intros H. apply andb_true_iff in H as [Hlo Hrest].
  split; [|exact Hrest]. intros b ->. lia.
Qed.

(** The second loop of the observer callback keeps [alive]. *)
Lemma track_alive (remoteMsgs : list (Z * nat)) :
  forall s : Closure,
    alive m0 s ->
    (forall msg, msg ∈ remoteMsgs -> above (fst msg) (minID s) = true) ->
    ascending_from (SameIDMsgs.id <$> last (sortedSameIDMsgs s)) (map fst remoteMsgs) = true ->
    alive m0 (track remoteMsgs s).
Proof.
  induction remoteMsgs as [|[msgID element] rest IH]; intros s Hs Habove Hasc; [exact Hs|].
  cbn [map fst] in Hasc. apply ascending_from_head in Hasc as [Hlo Hasc].
  pose proof Hs as ((HS & _) & _).
  assert (Hle : forall g, g ∈ sortedSameIDMsgs s -> SameIDMsgs.id g <= msgID).
  { intros g Hg. destruct (last (sortedSameIDMsgs s)) as [gl|] eqn:Hlast.
    - pose proof (last_is_greatest _ gl g HS Hlast Hg). specialize (Hlo _ eq_refl). lia.
    - apply last_None in Hlast. rewrite Hlast in Hg. inversion Hg. }
  destruct (insert_alive s msgID element Hs (Habove (msgID, element) ltac:(left)) Hle)
    as (arr' & g' & Hins & Halive & Hle' & gl & Hlast).
  cbn [track]. rewrite Hins. apply IH.
  - exact Halive.
  - intros msg Hin. cbn [set_tasks set_wrappers minID]. apply Habove. right. exact Hin.
  - cbn [set_tasks set_wrappers sortedSameIDMsgs]. rewrite Hlast. cbn [fmap option_fmap option_map].
    eapply ascending_from_weaken; [|exact Hasc].
    intros b [= <-]. exists msgID. split; [reflexivity|]. apply Hle'.
    apply last_Some in Hlast as [init ->]. apply elem_of_app. right. left.
Qed.

Lemma oid_inj (l : list SameIDMsgs.t) (g g' : SameIDMsgs.t) :
  NoDup (SameIDMsgs.oid <$> l) -> g ∈ l -> g' ∈ l ->
  SameIDMsgs.oid g = SameIDMsgs.oid g' -> g = g'.
Proof.
  intros Hnd Hg Hg' Heq. pose proof (find_by_oid l g Hnd Hg) as H1.
  pose proof (find_by_oid l g' Hnd Hg') as H2. rewrite Heq in H1. congruence.
Qed.

Lemma sorted_id_inj (arr : list SameIDMsgs.t) (i j : nat) (g g' : SameIDMsgs.t) :
  StronglySorted Z.lt (ids arr) -> arr !! i = Some g -> arr !! j = Some g' ->
  SameIDMsgs.id g = SameIDMsgs.id g' -> i = j.
Proof.
  intros HS Hi Hj Heq. apply strictly_ascending_StronglySorted in HS.
  assert (Hi' : ids arr !! i = Some (SameIDMsgs.id g)) by (rewrite ids_lookup, Hi; reflexivity).
  assert (Hj' : ids arr !! j = Some (SameIDMsgs.id g')) by (rewrite ids_lookup, Hj; reflexivity).
  destruct (Nat.lt_trichotomy i j) as [Hlt|[Heq'|Hgt]]; [|exact Heq'|].
  - pose proof (strictly_ascending_lookup _ HS i j _ _ Hlt Hi' Hj'). lia.
  - pose proof (strictly_ascending_lookup _ HS j i _ _ Hgt Hj' Hi'). lia.
Qed.

(** The wrapper of a parse task. *)
Lemma task_wrapper (s : Closure) (t : ParseTask) :
  alive m0 s -> t ∈ tasks s ->
  exists g, g ∈ (sortedSameIDMsgs s ++ detached s)%list /\
            SameIDMsgs.oid g = sameIDMsgs t /\ deref (sameIDMsgs t) s = Some g.
Proof.
  intros (Hin & _ & _ & _ & _ & L5) Ht. rewrite Forall_forall in L5.
  specialize (L5 t Ht). unfold oids in L5. apply list_elem_of_fmap in L5 as (g & Hoid & Hg).
  exists g. split; [exact Hg|]. split; [symmetry; exact Hoid|].
  unfold deref. rewrite Hoid. apply find_by_oid; [|exact Hg].
  destruct Hin as (_ & _ & _ & HO & _). exact HO.
Qed.

(** The groups removed from the array have smaller IDs than those in it. *)
Lemma detached_below (s : Closure) (g g' : SameIDMsgs.t) :
  alive m0 s -> g ∈ detached s -> g' ∈ sortedSameIDMsgs s ->
  SameIDMsgs.id g < SameIDMsgs.id g'.
Proof.
  intros ((_ & (ds & m & Hsent & _ & _ & _ & Hd) & _) & _ & _ & _ & L4 & _) Hg Hg'.
  assert (Hin : Some (SameIDMsgs.id g) ∈ map (fun g => Some (SameIDMsgs.id g)) (detached s)).
  { apply list_elem_of_In, in_map_iff. exists g. split; [reflexivity|].
    apply list_elem_of_In, Hg. }
  rewrite L4, Hsent in Hin. apply list_elem_of_In, in_map_iff in Hin as (x & Hx & Hin).
  apply list_elem_of_In, list_elem_of_fmap in Hin as (d & -> & Hdin).
  cbn in Hx. injection Hx as Hx. rewrite Forall_forall in Hd.
  destruct (Hd d Hdin) as [_ Hlt]. rewrite Forall_forall in Hlt. rewrite <- Hx.
  apply Hlt. rewrite ids_fmap. apply list_elem_of_fmap. exists g'. split; [reflexivity|exact Hg'].
Qed.

(** Sending the record of the first group. *)
Lemma handleMessage_alive (d : MessageData.t) (s : Closure)
    (g : SameIDMsgs.t) (rest : list SameIDMsgs.t) :
  in_order m0 s -> sortedSameIDMsgs s = g :: rest ->
  MessageData.id d = SameIDMsgs.id g ->
  Forall (fun g' => awaited s g' \/ is_Some (SameIDMsgs.resolve g')) rest ->
  Forall (fun g' => forall k, SameIDMsgs.resolve g' = Some k ->
                    exists c, continuations s !! k = Some c /\ k_woken c = false) rest ->
  map (fun g => Some (SameIDMsgs.id g)) (detached s) = map (fmap MessageData.id) (sent s) ->
  Forall (fun t => sameIDMsgs t ∈ oids s) (tasks s) ->
  alive m0 (handleMessage (Some d) s).
Proof.
  intros Hin Harr Hid L1 L3 L4 L5.
  split; [eapply handleMessage_in_order; eassumption|].
  unfold handleMessage, awaited, oids in *.
  cbn [set_minID sortedSameIDMsgs]. rewrite Harr in *.
  cbn [set_sent set_wrappers set_minID sortedSameIDMsgs detached tasks continuations
       sent unacknowledged].
  split; [exact L1|]. split; [exact L3|]. split; [intros; lia|]. split.
  - rewrite !map_app, L4. cbn [map fmap option_fmap option_map]. rewrite Hid. reflexivity.
  - eapply Forall_impl; [exact L5|]. cbn beta. intros t Ht.
    rewrite !fmap_app in *. cbn [fmap list_fmap] in *.
    rewrite !elem_of_app, list_elem_of_singleton.
    rewrite elem_of_app, elem_of_cons in Ht. tauto.
Qed.

Lemma awaited_other_task (s s' : Closure) (g : SameIDMsgs.t) (task : nat)
    (f : ParseTask -> ParseTask) :
  tasks s' = alter f task (tasks s) ->
  (forall t, tasks s !! task = Some t -> sameIDMsgs t <> SameIDMsgs.oid g) ->
  awaited s g -> awaited s' g.
Proof.
  intros Htasks Hother (j & t & Hj & Hset & Hoid). exists j, t. rewrite Htasks.
  split; [|auto]. rewrite list_lookup_alter_ne; [exact Hj|].
  intros <-. exact (Hother t Hj Hoid).
Qed.

Lemma settle_task_oids (l : list ParseTask) (task : nat) (X : list nat) :
  Forall (fun t => sameIDMsgs t ∈ X) l ->
  Forall (fun t => sameIDMsgs t ∈ X)
    (alter (fun t => {| messageElement := messageElement t;
                        sameIDMsgs := sameIDMsgs t; settled := true |}) task l).
Proof. intros H. apply Forall_alter; [exact H|]. intros t _ Ht. exact Ht. Qed.

(** The fulfilled handler keeps [alive]. *)
Lemma on_fulfilled_alive (s : Closure) (task : nat) (d : MessageData.t) :
  alive m0 s -> parse_matches s task d = true -> alive m0 (on_fulfilled task d s).
Proof.
  intros Hs Hok. unfold on_fulfilled.
  destruct (tasks s !! task) as [t|] eqn:Ht; [|exact Hs].
  destruct (settled t) eqn:Hset; [exact Hs|].
  destruct (task_wrapper s t Hs ltac:(eapply list_elem_of_lookup_2, Ht))
    as (gt & Hgt & Hoid & Hderef).
  unfold parse_matches in Hok. rewrite Ht, Hderef in Hok. apply Z.eqb_eq in Hok.
  pose proof Hs as (Hin & L1 & L3 & L2 & L4 & L5).
  pose proof Hin as (HS & _ & _ & HO & _ & HK).
  cbn [settle_task set_tasks sortedSameIDMsgs]. unfold findMsgsForID.
  destruct (_findMsgsForID_exact_range (sortedSameIDMsgs s) (MessageData.id d)
              ltac:(apply strictly_ascending_StronglySorted; exact HS)
              (length (sortedSameIDMsgs s)) 0
              (Z.of_nat (length (sortedSameIDMsgs s)) - 1)
              ltac:(lia) ltac:(lia) ltac:(lia))
    as [(i & g & Hr & Hrange & Hg & Hgid)|[Hr Hnone]]; rewrite Hr.
  - replace (i =? -1) with false by lia.
    apply at_index_Some in Hg as [_ Hg].
    assert (Hsame : g = gt).
    { apply elem_of_app in Hgt as [Hgt|Hgt].
      - apply list_elem_of_lookup_1 in Hgt as [j Hj].
        assert (j = Z.to_nat i) by (eapply sorted_id_inj; [exact HS|exact Hj|exact Hg|lia]).
        subst j. congruence.
      - exfalso. pose proof (detached_below s gt g Hs Hgt
                               ltac:(eapply list_elem_of_lookup_2, Hg)). lia. }
    subst gt.
    assert (Hothers : forall g0 j, sortedSameIDMsgs s !! j = Some g0 -> j <> Z.to_nat i ->
                                   SameIDMsgs.oid g0 <> sameIDMsgs t).
    { intros g0 j Hj Hne Heq. apply Hne.
      assert (g0 = g).
      { eapply (oid_inj _ g0 g HO); [| |congruence].
        - apply elem_of_app. left. eapply list_elem_of_lookup_2, Hj.
        - apply elem_of_app. left. eapply list_elem_of_lookup_2, Hg. }
      subst g0. eapply sorted_id_inj; [exact HS|exact Hj|exact Hg|reflexivity]. }
    destruct (Z.eqb_spec i 0) as [Hi0|Hi0]; cbn [negb].
    + subst i. cbn in Hg.
      destruct (sortedSameIDMsgs s) as [|g' rest] eqn:Harr; [discriminate|].
      cbn in Hg. injection Hg as ->.
      apply (handleMessage_alive d _ g rest).
      * exact Hin.
      * exact Harr.
      * lia.
      * apply Forall_cons in L1 as [_ L1]. apply Forall_lookup. intros j g0 Hj.
        rewrite Forall_lookup in L1. destruct (L1 j g0 Hj) as [Haw|Hres]; [left|right; exact Hres].
        eapply awaited_other_task; [reflexivity| |exact Haw].
        intros t' Ht'. rewrite Ht in Ht'. injection Ht' as <-.
        intros Heq. apply (Hothers g0 (S j)); [exact Hj|discriminate|symmetry; exact Heq].
      * apply Forall_cons in L3 as [_ L3]. exact L3.
      * exact L4.
      * unfold oids in *.
        cbn [delete_pending set_pending set_tasks sortedSameIDMsgs detached tasks].
        apply settle_task_oids. exact L5.
    + assert (Hupd_id : forall l,
                map SameIDMsgs.id
                  (map (fun g0 => if Nat.eqb (SameIDMsgs.oid g0) (sameIDMsgs t)
                                  then SameIDMsgs.set_resolve g0 (length (continuations s))
                                  else g0) l)
                = map SameIDMsgs.id l).
      { intros l. rewrite map_map. apply map_ext. intros g0.
        destruct (Nat.eqb _ _); reflexivity. }
      assert (Hupd_oid : forall l,
                map SameIDMsgs.oid
                  (map (fun g0 => if Nat.eqb (SameIDMsgs.oid g0) (sameIDMsgs t)
                                  then SameIDMsgs.set_resolve g0 (length (continuations s))
                                  else g0) l)
                = map SameIDMsgs.oid l).
      { intros l. rewrite map_map. apply map_ext. intros g0.
        destruct (Nat.eqb _ _); reflexivity. }
      unfold alive, in_order, oids, awaited, update_wrapper.
      cbn [settle_task set_wrappers set_continuations set_tasks minID sortedSameIDMsgs
           detached tasks continuations sent unacknowledged].
      split; [|split; [|split; [|split; [|split]]]].
      * apply in_order_vars_wait; [exact Hin|].
        intros g' Hfind. unfold deref in Hderef. rewrite Hfind in Hderef. congruence.
      * apply Forall_forall. intros g0' Hin0.
        apply list_elem_of_In, in_map_iff in Hin0 as (g0 & <- & Hg0).
        apply list_elem_of_In, list_elem_of_lookup_1 in Hg0 as [j Hj].
        destruct (Nat.eqb_spec (SameIDMsgs.oid g0) (sameIDMsgs t)) as [Ho|Ho].
        -- right. eexists. reflexivity.
        -- rewrite Forall_lookup in L1.
           destruct (L1 j g0 Hj) as [(j' & t' & Hj' & Hset' & Hoid')|Hres];
             [left|right; exact Hres].
           exists j', t'. split; [|auto]. rewrite list_lookup_alter_ne; [exact Hj'|].
           intros <-. rewrite Ht in Hj'. injection Hj' as <-. congruence.
      * apply Forall_forall. intros g0' Hin0.
        apply list_elem_of_In, in_map_iff in Hin0 as (g0 & <- & Hg0).
        apply list_elem_of_In in Hg0. intros k.
        destruct (Nat.eqb_spec (SameIDMsgs.oid g0) (sameIDMsgs t)) as [Ho|Ho].
        -- cbn [SameIDMsgs.set_resolve SameIDMsgs.resolve]. intros [= <-].
           eexists. split; [apply list_lookup_middle; reflexivity|reflexivity].
        -- intros Hk. rewrite Forall_forall in L3. destruct (L3 g0 Hg0 k Hk) as (c & Hc & Hw).
           exists c. split; [|exact Hw].
           rewrite lookup_app_l by (eapply lookup_lt_Some, Hc). exact Hc.
      * intros g0' Hg0' Hres.
        change (map ?f ?l) with (f <$> l) in Hg0'. rewrite list_lookup_fmap in Hg0'.
        destruct (sortedSameIDMsgs s !! 0%nat) as [g0|] eqn:Hhead; [|discriminate].
        cbn in Hg0'. injection Hg0' as <-.
        destruct (Nat.eqb_spec (SameIDMsgs.oid g0) (sameIDMsgs t)) as [Ho|Ho].
        -- exfalso. apply (Hothers g0 0%nat Hhead); [lia|exact Ho].
        -- apply (L2 g0 eq_refl Hres).
      * rewrite <- L4, map_map. apply map_ext. intros g0.
        destruct (Nat.eqb _ _); reflexivity.
      * apply settle_task_oids. unfold oids in L5. rewrite fmap_app in L5 |- *.
        assert (Hoids : forall l,
                  SameIDMsgs.oid
                    <$> map (fun g0 => if Nat.eqb (SameIDMsgs.oid g0) (sameIDMsgs t)
                                       then SameIDMsgs.set_resolve g0
                                              (length (continuations s))
                                       else g0) l
                  = SameIDMsgs.oid <$> l) by exact Hupd_oid.
        rewrite !Hoids. exact L5.
  - replace (-1 =? -1) with true by reflexivity.
    unfold alive, in_order, oids, awaited.
    cbn [settle_task delete_pending set_pending set_tasks minID sortedSameIDMsgs detached
         tasks continuations sent unacknowledged].
    split; [exact Hin|]. split; [|split; [exact L3|split; [exact L2|split; [exact L4|]]]].
    + apply Forall_lookup. intros j g0 Hj. rewrite Forall_lookup in L1.
      destruct (L1 j g0 Hj) as [(j' & t' & Hj' & Hset' & Hoid')|Hres]; [left|right; exact Hres].
      exists j', t'. split; [|auto]. rewrite list_lookup_alter_ne; [exact Hj'|].
      intros <-. rewrite Ht in Hj'. injection Hj' as <-.
      assert (g0 = gt).
      { eapply (oid_inj _ g0 gt HO); [|exact Hgt|congruence].
        apply elem_of_app. left. eapply list_elem_of_lookup_2, Hj. }
      subst g0. apply (Hnone (Z.of_nat j) gt); [|apply at_index_Some; split; [lia|]|lia].
      * apply lookup_lt_Some in Hj. lia.
      * rewrite Nat2Z.id. exact Hj.
    + apply settle_task_oids. exact L5.
Qed.

(** The return of a backend call keeps [alive]. *)
Lemma receive_messages_returned_alive (s : Closure) :
  alive m0 s -> alive m0 (receive_messages_returned s).
Proof.
  intros Hs. pose proof Hs as (Hin & L1 & L3 & L2 & L4 & L5).
  unfold receive_messages_returned.
  destruct (unacknowledged s) as [|n] eqn:Hunack; [exact Hs|].
  cbn [set_sent sortedSameIDMsgs continuations].
  destruct (sortedSameIDMsgs s) as [|g rest] eqn:Harr.
  { unfold alive, in_order, oids, awaited in *.
    cbn [set_sent minID sortedSameIDMsgs detached tasks continuations sent unacknowledged].
    rewrite Harr in *. split; [exact Hin|]. split; [exact L1|]. split; [exact L3|].
    split; [intros g Hg; discriminate|]. split; [exact L4|exact L5]. }
  destruct (SameIDMsgs.resolve g) as [k|] eqn:Hk.
  2:{ unfold alive, in_order, oids, awaited in *.
      cbn [set_sent minID sortedSameIDMsgs detached tasks continuations sent unacknowledged].
      rewrite Harr in *. split; [exact Hin|]. split; [exact L1|]. split; [exact L3|].
      split; [|split; [exact L4|exact L5]].
      intros g0 Hg0 [k Hres]. cbn in Hg0. injection Hg0 as <-. congruence. }
  pose proof L3 as L3'. apply Forall_cons in L3' as [Hhead L3'].
  destruct (Hhead k Hk) as (c & Hc & Hwoken). rewrite Hc, Hwoken.
  pose proof Hin as (HS & _ & _ & _ & _ & HK).
  rewrite Harr in HS. cbn [ids map] in HS. apply StronglySorted_inv in HS as [HS Hlt].
  pose proof HK as HK'. rewrite Harr in HK'. apply Forall_cons in HK' as [HKg HK'].
  destruct (HKg k Hk) as (c' & Hc' & Hcid).
  assert (c' = c) by congruence. subst c'.
  apply (handleMessage_alive _ _ g rest).
  - unfold in_order in *. cbn. apply in_order_vars_wake; [exact Hin|exact Hc].
  - exact Harr.
  - exact Hcid.
  - apply Forall_cons in L1 as [_ L1]. exact L1.
  - cbn [delete_pending set_pending set_continuations set_sent continuations].
    apply Forall_forall. intros g0 Hg0 k0 Hk0.
    rewrite Forall_forall in L3'. destruct (L3' g0 Hg0 k0 Hk0) as (c0 & Hc0 & Hw0).
    exists c0. split; [|exact Hw0]. rewrite list_lookup_insert_ne; [exact Hc0|].
    intros <-. rewrite Forall_forall in HK'. destruct (HK' g0 Hg0 k Hk0) as (c1 & Hc1 & Hid1).
    assert (c1 = c) by congruence. subst c1.
    rewrite Forall_forall in Hlt.
    assert (SameIDMsgs.id g < SameIDMsgs.id g0); [|lia].
    apply Hlt. apply list_elem_of_In, in_map, list_elem_of_In, Hg0.
  - exact L4.
  - unfold oids in *. cbn [delete_pending set_pending set_continuations set_sent
                            sortedSameIDMsgs detached tasks].
    exact L5.
Qed.

(** Every event of an orderly run keeps [alive]. *)
Lemma step_alive (st : Controller) (ev : event) :
  alive m0 (closure st) -> event_ok st ev = true -> alive m0 (closure (step st ev)).
Proof.
  intros Hs Hok. pose proof (step_in_order m0 st ev (proj1 Hs) Hok) as Hin'.
  destruct ev as [limit ok ko|ms|t|o changes|added|task d|task d|]; cbn [step closure] in *.
  - exact Hs.
  - exact Hs.
  - unfold after_own in *. cbn [closure] in *.
    eapply alive_same_core; [apply own_reactions_same_core|exact Hin'|exact Hs].
  - unfold after_own in *. cbn [closure] in *.
    eapply alive_same_core; [apply own_reactions_same_core|exact Hin'|exact Hs].
  - clear Hin'. cbn [event_ok] in Hok. unfold remote_of in Hok.
    pose proof (classify_closure added (fields st, page st, closure st, [])) as Hc.
    pose proof (classify_same_core added (fields st, page st, closure st, [])) as Hcore.
    cbn zeta in Hc. cbn [fst snd] in Hc, Hcore.
    destruct (foldl classify (fields st, page st, closure st, []) added)
      as [[[c pg] s] remoteMsgs]. cbn [fst snd closure] in *.
    destruct Hc as (H1 & H2 & H3 & H4 & H5 & Hrem).
    apply track_alive.
    + eapply alive_same_core; [exact Hcore| |exact Hs].
      unfold in_order. rewrite H1, H2, H3, H4, H5. exact (proj1 Hs).
    + intros msg Hin. destruct (Hrem msg Hin) as [Hnil|Hab]; [inversion Hnil|].
      rewrite H1. exact Hab.
    + rewrite H2. exact Hok.
  - apply on_fulfilled_alive; [exact Hs|exact Hok].
  - discriminate Hok.
  - apply receive_messages_returned_alive, Hs.
Qed.

Lemma run_alive (evs : list event) :
  forall st : Controller,
    alive m0 (closure st) -> orderly st evs = true -> alive m0 (closure (run st evs)).
Proof.
  induction evs as [|ev evs IH]; intros st Hs Hok; [exact Hs|].
  cbn [orderly] in Hok. apply andb_true_iff in Hok as [Hev Hrest].
  unfold run. cbn [foldl]. apply IH; [|exact Hrest]. apply step_alive; assumption.
Qed.

(** X22. In a run in which the remote messages arrive in the order of
    their IDs and no parse rejects, no message is lost: once every parse has
    settled and every backend call has returned, [sortedSameIDMsgs] is empty
    and the ID of every element for which a parse was started has been
    passed to [__mautrixReceiveMessages]. *)
Theorem orderly_run_delivers_everything (evs : list event) :
  orderly (start m0) evs = true ->
  let st := run (start m0) evs in
  Forall (fun t => settled t = true) (tasks (closure st)) ->
  unacknowledged (closure st) = 0%nat ->
  sortedSameIDMsgs (closure st) = [] /\
  forall t, t ∈ tasks (closure st) ->
    exists g, deref (sameIDMsgs t) (closure st) = Some g /\
              Some (SameIDMsgs.id g) ∈ sent_ids st.
Proof.
  intros Hok st Hsettled Hunack.
  assert (Hs : alive m0 (closure st)).
  { subst st. apply run_alive; [|exact Hok].
    unfold alive, in_order, oids, start, addMsgListObserver. cbn.
    split.
    - split; [constructor|]. split; [|repeat split; constructor].
      exists [], m0. repeat split; try constructor. lia.
    - repeat split; try constructor. intros g Hg. discriminate. }
  pose proof Hs as (Hin & L1 & L3 & L2 & L4 & L5).
  assert (Hempty : sortedSameIDMsgs (closure st) = []).
  { destruct (sortedSameIDMsgs (closure st)) as [|g rest] eqn:Harr; [reflexivity|].
    exfalso. apply Forall_cons in L1 as [[(j & t & Hj & Hset & _)|Hres] _].
    - rewrite Forall_forall in Hsettled.
      rewrite (Hsettled t) in Hset by (eapply list_elem_of_lookup_2, Hj). discriminate.
    - specialize (L2 g eq_refl Hres). lia. }
  split; [exact Hempty|]. intros t Ht.
  destruct (task_wrapper (closure st) t Hs Ht) as (g & Hg & Hoid & Hderef).
  exists g. split; [exact Hderef|].
  rewrite Hempty in Hg. cbn [app] in Hg. unfold sent_ids. rewrite <- L4.
  apply list_elem_of_In, in_map_iff. exists g. split; [reflexivity|].
  apply list_elem_of_In, Hg.
Qed.

End DeliveryFacts.

Section DeliverySample.
Import PendingIndex MsgListObserver InOrder.

(** X22 on the run of [Sample.later_resolves_first]: both backend calls
    have returned, and 9 and 10 have been sent. *)
Lemma orderly_run_delivers_everything_witness :
  let st := run (start 0) Sample.later_resolves_first in
  sortedSameIDMsgs (closure st) = [] /\
  forall t, t ∈ tasks (closure st) ->
    exists g, deref (sameIDMsgs t) (closure st) = Some g /\
              Some (SameIDMsgs.id g) ∈ sent_ids st.
Proof.
  apply (orderly_run_delivers_everything 0 Sample.later_resolves_first).
  - vm_compute. reflexivity.
  - vm_compute. repeat constructor.
  - vm_compute. reflexivity.
Defined.

End DeliverySample.

Section WaitForLoadedImageFacts.
Import WaitForLoadedImage.
Variable origin : string.
Variables t0 limit : Z.

Lemma step_settled_once (st : State) (ev : event) :
  settled_once origin t0 limit st -> settled_once origin t0 limit (step origin st ev).
Proof.
  intros Hst. pose proof Hst as (Hd & Hnow & Hphase).
  destruct ev as [ms|srcs|]; cbn [step].
  - pose proof (Z.le_max_l 0 ms). split; [exact Hd|]. split; [cbn; lia|exact Hphase].
  - destruct Hphase as [(Ho & Hf & Hc)|[(Ho & _)|(Ho & _)]]; rewrite Ho;
      [|exact Hst|exact Hst].
    unfold on_changes. destruct (List.find _ srcs) as [src|] eqn:Hfind; [|exact Hst].
    apply find_some in Hfind as [_ Hloaded].
    split; [exact Hd|]. split; [exact Hnow|]. right. left. cbn.
    split; [reflexivity|]. exists src, (now st). rewrite Hc. auto.
  - destruct (negb (fired st) && (deadline st <=? now st)) eqn:Hdue; [|exact Hst].
    apply andb_true_iff in Hdue as [Hf Hdue]. apply negb_true_iff in Hf.
    apply Z.leb_le in Hdue. unfold on_timeout.
    destruct Hphase as [(Ho & _ & Hc)|[(Ho & src & T & Hc & Hl & HT)|(Ho & Hf' & _)]].
    + rewrite Ho. split; [exact Hd|]. split; [exact Hnow|]. right. right. cbn.
      split; [reflexivity|]. split; [reflexivity|]. exists (now st). rewrite Hc.
      split; [reflexivity|lia].
    + rewrite Ho. split; [exact Hd|]. split; [exact Hnow|]. right. left. cbn.
      split; [reflexivity|]. exists src, T. auto.
    + congruence.
Qed.

Lemma run_settled_once (evs : list event) :
  settled_once origin t0 limit (run origin (_waitForLoadedImage t0 limit) evs).
Proof.
  unfold run. induction evs as [|ev evs IH] using rev_ind.
  - cbn. split; [reflexivity|]. split; [cbn; lia|]. left. auto.
  - rewrite foldl_app. cbn [foldl]. apply step_settled_once, IH.
Qed.

(** Once [resolve] or [reject] has been called, nothing more is. *)
Lemma step_settled_stays (st : State) (ev : event) :
  settled_once origin t0 limit st -> calls st <> [] ->
  calls (step origin st ev) = calls st.
Proof.
  intros (_ & _ & Hphase) Hcalled. destruct ev as [ms|srcs|]; cbn [step].
  - reflexivity.
  - destruct Hphase as [(_ & _ & Hc)|[(Ho & _)|(Ho & _)]];
      [contradiction|rewrite Ho; reflexivity|rewrite Ho; reflexivity].
  - destruct (negb (fired st) && (deadline st <=? now st)) eqn:Hdue; [|reflexivity].
    apply andb_true_iff in Hdue as [Hf _]. apply negb_true_iff in Hf.
    destruct Hphase as [(_ & _ & Hc)|[(Ho & _)|(_ & Hf' & _)]];
      [contradiction| |congruence].
    unfold on_timeout. rewrite Ho. reflexivity.
Qed.

Lemma run_settled_stays (evs : list event) :
  forall st, settled_once origin t0 limit st -> calls st <> [] ->
    calls (run origin st evs) = calls st.
Proof.
  unfold run. induction evs as [|ev evs IH]; intros st Hst Hcalled; [reflexivity|].
  cbn [foldl]. pose proof (step_settled_stays st ev Hst Hcalled) as Hsame.
  rewrite IH; [exact Hsame|apply step_settled_once, Hst|congruence].
Qed.

(** X23. [_waitForLoadedImage] calls [resolve] or [reject] at most once
    in all.  While it has done neither: a batch of changes none of which
    shows a loaded image URL leaves it waiting; a batch with one resolves
    it, with the first such record of the batch, whatever happens afterwards;
    and the timer, when it fires after [timeoutLimitMillis], rejects it,
    whatever happens afterwards.  So it resolves only with a loaded [src],
    and rejects only when the limit has passed. *)
Theorem waitForLoadedImage_settles_once (evs : list event) :
  let st := run origin (_waitForLoadedImage t0 limit) evs in
  (length (calls st) <= 1)%nat /\
  (forall src T, Resolve src T ∈ calls st ->
     SenderMatch._isLoadedImageURL origin src = true /\ calls st = [Resolve src T]) /\
  (forall T, Reject T ∈ calls st -> t0 + limit <= T /\ calls st = [Reject T]) /\
  (calls st = [] ->
   (forall srcs more,
      List.find (SenderMatch._isLoadedImageURL origin) srcs = None ->
      run origin st (SrcChanges srcs :: more) = run origin st more) /\
   (forall srcs src more,
      List.find (SenderMatch._isLoadedImageURL origin) srcs = Some src ->
      calls (run origin st (SrcChanges srcs :: more)) = [Resolve src (now st)]) /\
   (forall ms more, t0 + limit <= now st + ms -> 0 <= ms ->
      calls (run origin st (Elapse ms :: TimerFires :: more)) = [Reject (now st + ms)])).
Proof.
  cbn zeta. pose proof (run_settled_once evs) as Hst.
  set (st := run origin (_waitForLoadedImage t0 limit) evs) in *.
  pose proof Hst as (Hd & Hnow & Hphase).
  destruct Hphase as [(Ho & Hf & Hc)|[(Ho & src & T & Hc & Hl & HT)|
                                      (Ho & Hf & T & Hc & HT)]]; rewrite Hc.
  - split; [cbn; lia|]. split; [intros src T H; inversion H|].
    split; [intros T H; inversion H|]. intros _. split; [|split].
    + intros srcs more Hfind. unfold run. cbn [foldl step]. rewrite Ho.
      unfold on_changes. rewrite Hfind. reflexivity.
    + intros srcs src more Hfind.
      assert (Hstep : step origin st (SrcChanges srcs)
                      = {| now := now st; deadline := deadline st; fired := fired st;
                           observer := None; calls := [Resolve src (now st)] |}).
      { cbn [step]. rewrite Ho. unfold on_changes. rewrite Hfind, Hc. reflexivity. }
      change (run origin st (SrcChanges srcs :: more))
        with (run origin (step origin st (SrcChanges srcs)) more).
      rewrite run_settled_stays.
      * rewrite Hstep. reflexivity.
      * apply step_settled_once, Hst.
      * rewrite Hstep. discriminate.
    + intros ms more Hms Hpos.
      set (st1 := step origin st (Elapse ms)).
      assert (Hstep : step origin st1 TimerFires
                      = {| now := now st + ms; deadline := deadline st; fired := true;
                           observer := Some false; calls := [Reject (now st + ms)] |}).
      { subst st1. cbn [step fired deadline now]. rewrite Hf, Hd. cbn [negb andb].
        rewrite Z.max_r by lia.
        replace (t0 + limit <=? now st + ms) with true by lia.
        unfold on_timeout. cbn. rewrite Ho, Hc. reflexivity. }
      change (run origin st (Elapse ms :: TimerFires :: more))
        with (run origin (step origin st1 TimerFires) more).
      rewrite run_settled_stays.
      * rewrite Hstep. reflexivity.
      * apply step_settled_once, step_settled_once, Hst.
      * rewrite Hstep. discriminate.
  - split; [cbn; lia|]. split; [|split; [|discriminate]].
    + intros src' T' H. apply list_elem_of_singleton in H. injection H as -> ->. auto.
    + intros T' H. apply list_elem_of_singleton in H. discriminate.
  - split; [cbn; lia|]. split; [|split; [|discriminate]].
    + intros src' T' H. apply list_elem_of_singleton in H. discriminate.
    + intros T' H. apply list_elem_of_singleton in H. injection H as ->. auto.
Qed.

End WaitForLoadedImageFacts.

Section WaitForLoadedImageSample.
Import WaitForLoadedImage.

(** The run of [loads_in_time], for a call at time 0 with a limit of 10 s:
    the preview URL does not resolve, the blob does, 3 s after the call; the
    timer and the later change do nothing. *)
Lemma waitForLoadedImage_sample :
  calls (run "chrome-extension://line" (_waitForLoadedImage 0 10000) loads_in_time)
  = [Resolve "blob:7" 3000].
Proof. vm_compute. reflexivity. Qed.

End WaitForLoadedImageSample.
